(** * Board games rule engine and search engine: a shallow embedding

    The development follows [HW2.cpp] (the later iteration); [HW1.cpp]
    contains the same [Board], [GomokuRule] and [GoRule] code, and the places
    where the two differ are noted at the definitions concerned.

    Conventions.
    - C++ [int] values are modelled by [Z].  Every arithmetic expression of
      the modelled functions is evaluated on coordinates that passed a bounds
      check or on small offsets of them, so no signed overflow can occur and
      no wrap-around has to be written out.
    - [vector<vector<PieceType>>] is a [list (list PieceType)], indexed with
      stdpp's lookup; the [bool] marker arrays are finite sets of points.
      The [visited] array of [GoRule] has 19 rows and 19 columns, which is
      enough for every board the program creates (sizes 8 to 19).
    - A board of the program satisfies [wf_board]; the functions of the
      model are total all the same, and a theorem assumes [wf_board] only
      where it depends on it.
    - Recursion and loops whose termination is not structural take a fuel
      argument and return [None] when it runs out; the callers in the model
      supply the fuel, and the theorems prove that it is enough.

    - The counters that the program increments without a bound ([wins],
      [totalGames], [passCount]) are incremented by a partial function,
      undefined at [INT_MAX]; the two numbers a player types are decremented
      by a partial function, undefined at [INT_MIN].
    - Adjacency, lines and directions in the statements are defined by the
      coordinates; the direction tables of the program occur in the embedded
      functions only, and are proved to agree with these notions.

    Layout: the embedding (sections 1 to 10), the notions and positions the
    proofs use (sections 11 and 12), then the properties, component by
    component. *)

From Stdlib Require Import ZArith List Lia Ascii String QArith Lqa DecimalString DecimalPos.
From stdpp Require Import base option list sets gmap.

Local Open Scope Z_scope.

(* stdpp's [set_solver] clears hypotheses by name as it runs, which this
   version of Rocq reports at every use. *)
#[local] Set Warnings "-clear-no-such-hyp".

(** ** 1. Basic data *)

Inductive PieceType : Set := EMPTY | BLACK | WHITE.
Inductive GameStatus : Set := PLAYING | BLACK_WIN | WHITE_WIN | DRAW.

#[global] Instance PieceType_eq_dec : EqDecision PieceType.
Proof. solve_decision. Defined.

#[global] Instance GameStatus_eq_dec : EqDecision GameStatus.
Proof. solve_decision. Defined.

(** [struct Point { int x, y; }] *)
Abbreviation Point := (Z * Z)%type.

Definition getOpponent (p : PieceType) : PieceType :=
  if decide (p = BLACK) then WHITE else BLACK.

(** ** 2. Board *)

Record Board : Type := mkBoard { size : Z; grid : list (list PieceType) }.

(** [Board(int s)]: an [s] by [s] grid of [EMPTY]. *)
Definition newBoard (s : Z) : Board :=
  mkBoard s (replicate (Z.to_nat s) (replicate (Z.to_nat s) EMPTY)).

(** The class invariant established by the constructor: the grid has [size]
    rows of [size] cells, and [size] is a non-negative [int]. *)
Definition wf_boardb (b : Board) : bool :=
  (0 <=? size b) && (size b <? 2 ^ 31) &&
  (Z.of_nat (length (grid b)) =? size b) &&
  forallb (fun row => Z.of_nat (length row) =? size b) (grid b).

Definition wf_board (b : Board) : Prop := wf_boardb b = true.

Definition getSize (b : Board) : Z := size b.

Definition isValidBounds (b : Board) (x y : Z) : bool :=
  (0 <=? x) && (x <? size b) && (0 <=? y) && (y <? size b).

(** [grid[x][y]]; [None] stands for an access outside the vectors. *)
Definition grid_at (b : Board) (x y : Z) : option PieceType :=
  match grid b !! Z.to_nat x with
  | Some row => row !! Z.to_nat y
  | None => None
  end.

Definition getPiece (b : Board) (x y : Z) : PieceType :=
  if isValidBounds b x y then default EMPTY (grid_at b x y) else EMPTY.

Definition setPiece (b : Board) (x y : Z) (p : PieceType) : Board :=
  if isValidBounds b x y
  then mkBoard (size b) (alter (fun row => <[Z.to_nat y := p]> row) (Z.to_nat x) (grid b))
  else b.

Definition countPieces (b : Board) (type : PieceType) : Z :=
  fold_left (fun count row =>
               fold_left (fun count p => if decide (p = type) then count + 1 else count)
                         row count)
            (grid b) 0.

(** All coordinates of the board in row-major order, the order of the nested
    loops [for (i = 0; i < size; ++i) for (j = 0; j < size; ++j)]. *)
Definition cells (b : Board) : list Point :=
  i ← seqZ 0 (size b); j ← seqZ 0 (size b); [(i, j)].

(** [for (auto& a : l) body(a);] over a state, stopping on a failure. *)
Fixpoint for_each {S A : Type} (body : A -> S -> option S) (l : list A) (s : S)
  : option S :=
  match l with
  | [] => Some s
  | a :: l' =>
      match body a s with
      | Some s' => for_each body l' s'
      | None => None
      end
  end.

(** ** 3. Territory-Capture (Go) rule *)

(** [GoRule]: the governed board and the [visited] scratch array, which is a
    member of the object and so survives from one call to the next. *)
Record GoRule : Type := mkGoRule { board : Board; visited : gset Point }.

Module Go.

(** [int dx[] = {0, 0, 1, -1}; int dy[] = {1, -1, 0, 0};] *)
Definition dirs4 : list (Z * Z) := [(0, 1); (0, -1); (1, 0); (-1, 0)].

(** State threaded through one discovery: the marker set and the group
    collected so far (the [vector<Point>& group] out-parameter). *)
Abbreviation DfsState := (gset Point * list Point)%type.

(** [for (int i = 0; i < 4; ++i) liberties += f(dx[i], dy[i]);] *)
Fixpoint sum_dirs {S : Type} (f : Z * Z -> S -> option (Z * S))
         (ds : list (Z * Z)) (liberties : Z) (s : S) : option (Z * S) :=
  match ds with
  | [] => Some (liberties, s)
  | d :: ds' =>
      match f d s with
      | Some (n, s') => sum_dirs f ds' (liberties + n) s'
      | None => None
      end
  end.

Fixpoint countLibertiesDFS (fuel : nat) (b : Board) (x y : Z) (color : PieceType)
         (st : DfsState) : option (Z * DfsState) :=
  match fuel with
  | O => None
  | S fuel' =>
      if negb (isValidBounds b x y) then Some (0, st)
      else if bool_decide ((x, y) ∈ st.1) then Some (0, st)
      else
        let vis := {[ (x, y) ]} ∪ st.1 in
        let p := getPiece b x y in
        if decide (p = EMPTY) then Some (1, (vis, st.2))
        else if decide (p <> color) then Some (0, (vis, st.2))
        else
          sum_dirs (fun d s => countLibertiesDFS fuel' b (x + d.1) (y + d.2) color s)
                   dirs4 0 (vis, st.2 ++ [(x, y)])
  end.

(** [for i < s, for j < s: visited[i][j] = false] *)
Definition reset_visited (b : Board) (v : gset Point) : gset Point :=
  fold_left (fun v p => v ∖ {[ p ]}) (cells b) v.

(** The recursion of [countLibertiesDFS] is at most one deeper than the
    number of unmarked cells, which is [size * size] after the reset. *)
Definition dfs_fuel (b : Board) : nat := S (Z.to_nat (size b * size b)).

Definition getLiberties (r : GoRule) (x y : Z) (color : PieceType) (group : list Point)
  : option (Z * list Point * GoRule) :=
  let b := board r in
  match countLibertiesDFS (dfs_fuel b) b x y color (reset_visited b (visited r), group) with
  | Some (n, (vis, group')) => Some (n, group', mkGoRule b vis)
  | None => None
  end.

Definition with_board (r : GoRule) (b : Board) : GoRule := mkGoRule b (visited r).

(** One round of the loop of [removeDeadStones] for the direction [d]. *)
Definition removeDead_step (x y : Z) (opponent : PieceType) (d : Z * Z) (r : GoRule)
  : option GoRule :=
  let nx := x + d.1 in
  let ny := y + d.2 in
  if isValidBounds (board r) nx ny && bool_decide (getPiece (board r) nx ny = opponent)
  then
    match getLiberties r nx ny opponent [] with
    | Some (n, group, r') =>
        if decide (n = 0)
        then Some (with_board r'
                     (fold_left (fun b p => setPiece b p.1 p.2 EMPTY) group (board r')))
        else Some r'
    | None => None
    end
  else Some r.

Definition removeDeadStones (r : GoRule) (x y : Z) (opponent : PieceType)
  : option GoRule :=
  for_each (removeDead_step x y opponent) dirs4 r.

(** One round of the capture loop of [isValidMove]; the state is the rule
    object together with the [captures] flag. *)
Definition captures_step (x y : Z) (opponent : PieceType) (d : Z * Z)
           (s : bool * GoRule) : option (bool * GoRule) :=
  let '(captures, r) := s in
  let nx := x + d.1 in
  let ny := y + d.2 in
  if isValidBounds (board r) nx ny && bool_decide (getPiece (board r) nx ny = opponent)
  then
    match getLiberties r nx ny opponent [] with
    | Some (n, _, r') => Some (if decide (n = 0) then true else captures, r')
    | None => None
    end
  else Some (captures, r).

Definition isValidMove (r : GoRule) (x y : Z) (player : PieceType)
  : option (bool * GoRule) :=
  if negb (isValidBounds (board r) x y) || negb (bool_decide (getPiece (board r) x y = EMPTY))
  then Some (false, r)
  else
    let r1 := with_board r (setPiece (board r) x y player) in
    let opponent := getOpponent player in
    match for_each (captures_step x y opponent) dirs4 (false, r1) with
    | Some (captures, r2) =>
        let self_check :=
          if negb captures
          then match getLiberties r2 x y player [] with
               | Some (n, _, r3) => Some (bool_decide (n = 0), r3)
               | None => None
               end
          else Some (false, r2) in
        match self_check with
        | Some (suicide, r3) =>
            Some (negb suicide, with_board r3 (setPiece (board r3) x y EMPTY))
        | None => None
        end
    | None => None
    end.

Definition makeMove (r : GoRule) (x y : Z) (player : PieceType) : option GoRule :=
  if (x =? -1) && (y =? -1) then Some r
  else removeDeadStones (with_board r (setPiece (board r) x y player)) x y
                        (getOpponent player).

Definition checkWin (r : GoRule) (x y : Z) : GameStatus := PLAYING.

(** *** Scoring

    [float] scores are modelled by rationals: every value the function
    computes is a cell count of the board, or such a count plus 3.75, and
    these are represented exactly in a [float] for every board of the sizes
    the program creates (at most 19 by 19). *)

(** State of one flood fill: the [checked] array, the queue, the territory
    collected, and the two flags. *)
Record Flood : Type := mkFlood {
  checked : gset Point;
  queue : list Point;
  territory : list Point;
  touchesBlack : bool;
  touchesWhite : bool
}.

(** The body of [for (k < 4)] for the cell [cur] and the direction [d]. *)
Definition flood_neighbor (b : Board) (cur : Point) (f : Flood) (d : Z * Z) : Flood :=
  let nx := cur.1 + d.1 in
  let ny := cur.2 + d.2 in
  if isValidBounds b nx ny then
    let neighbor := getPiece b nx ny in
    if decide (neighbor = EMPTY) then
      if negb (bool_decide ((nx, ny) ∈ checked f))
      then mkFlood ({[ (nx, ny) ]} ∪ checked f) (queue f ++ [(nx, ny)])
                   (territory f ++ [(nx, ny)]) (touchesBlack f) (touchesWhite f)
      else f
    else if decide (neighbor = BLACK)
    then mkFlood (checked f) (queue f) (territory f) true (touchesWhite f)
    else if decide (neighbor = WHITE)
    then mkFlood (checked f) (queue f) (territory f) (touchesBlack f) true
    else f
  else f.

(** [while (!q.empty()) { cur = q.front(); q.pop(); for (k < 4) ... }] *)
Fixpoint flood_loop (fuel : nat) (b : Board) (f : Flood) : option Flood :=
  match queue f with
  | [] => Some f
  | cur :: rest =>
      match fuel with
      | O => None
      | S fuel' =>
          flood_loop fuel' b
            (fold_left (flood_neighbor b cur) dirs4
               (mkFlood (checked f) rest (territory f) (touchesBlack f) (touchesWhite f)))
      end
  end.

(** Every cell enters the queue at most once, so the loop runs at most
    [size * size] times. *)
Definition flood_fuel (b : Board) : nat := S (Z.to_nat (size b * size b)).

(** Scores and the [checked] array, threaded through the double loop. *)
Abbreviation ScoreState := (Q * Q * gset Point)%type.

(** The body of the double loop of [calculateScore] for the cell [p]. *)
Definition score_cell (b : Board) (p : Point) (s : ScoreState) : option ScoreState :=
  let '(blackScore, whiteScore, chk) := s in
  if bool_decide (p ∈ chk) then Some s
  else
    match getPiece b p.1 p.2 with
    | BLACK => Some ((blackScore + 1)%Q, whiteScore, {[ p ]} ∪ chk)
    | WHITE => Some (blackScore, (whiteScore + 1)%Q, {[ p ]} ∪ chk)
    | EMPTY =>
        match flood_loop (flood_fuel b) b (mkFlood ({[ p ]} ∪ chk) [p] [p] false false) with
        | Some f =>
            let n := inject_Z (Z.of_nat (length (territory f))) in
            if touchesBlack f && negb (touchesWhite f)
            then Some ((blackScore + n)%Q, whiteScore, checked f)
            else if negb (touchesBlack f) && touchesWhite f
            then Some (blackScore, (whiteScore + n)%Q, checked f)
            else Some (blackScore, whiteScore, checked f)
        | None => None
        end
    end.

(** The compensation added to White, 3.75. *)
Definition komi : Q := 15 # 4.

(** [calculateScore(blackScore, whiteScore)]; in [HW1.cpp] the function is
    [calculateFinalScore], with the same loop and the same compensation. *)
Definition calculateScore (b : Board) : option (Q * Q) :=
  match for_each (score_cell b) (cells b) (0%Q, 0%Q, ∅) with
  | Some (blackScore, whiteScore, _) => Some (blackScore, (whiteScore + komi)%Q)
  | None => None
  end.

(** *** Groups and liberties, stated without reference to the traversal *)

(** [q] is orthogonally adjacent to [p]: the two cells lie in the same row
    or in the same column, at distance one.  The coordinates alone decide
    this; no table of the program enters. *)
Definition adj (p q : Point) : Prop :=
  Z.abs (q.1 - p.1) + Z.abs (q.2 - p.2) = 1.

(** An on-board cell holding [c]. *)
Definition stone (b : Board) (c : PieceType) (p : Point) : Prop :=
  isValidBounds b p.1 p.2 = true /\ getPiece b p.1 p.2 = c.

(** [connected b c p q]: [q] belongs to the group of the [c] stone [p], the
    stones reachable from [p] through orthogonally adjacent [c] stones. *)
Inductive connected (b : Board) (c : PieceType) (p : Point) : Point -> Prop :=
| conn_refl : stone b c p -> connected b c p p
| conn_step q r : connected b c p q -> adj q r -> stone b c r -> connected b c p r.

(** [l] is a liberty of the group of [seed]: an empty on-board cell next to
    one of its stones. *)
Definition liberty (b : Board) (c : PieceType) (seed l : Point) : Prop :=
  stone b EMPTY l /\ exists q, connected b c seed q /\ adj q l.

(** [L] lists the distinct liberties of the group of [seed], each once. *)
Definition liberties_of (b : Board) (c : PieceType) (seed : Point) (L : list Point) : Prop :=
  NoDup L /\ forall l, l ∈ L <-> liberty b c seed l.

(** [G] lists the stones of the group of [seed], each once. *)
Definition group_of (b : Board) (c : PieceType) (seed : Point) (G : list Point) : Prop :=
  NoDup G /\ forall q, q ∈ G <-> connected b c seed q.

(** *** Captures, stated on the position *)

Definition no_liberty (b : Board) (c : PieceType) (seed : Point) : Prop :=
  forall l, ~ liberty b c seed l.

(** Some cell orthogonally adjacent to [(x, y)] holds an [opponent] stone
    whose group has no liberty on [b]. *)
Definition captures (b : Board) (x y : Z) (opponent : PieceType) : Prop :=
  exists n, adj (x, y) n /\ stone b opponent n /\ no_liberty b opponent n.

(** [q] is a stone of an [opponent] group that has a stone orthogonally
    adjacent to [(x, y)] and no liberty on [b]. *)
Definition captured (b : Board) (x y : Z) (opponent : PieceType) (q : Point) : Prop :=
  exists n, adj (x, y) n /\ no_liberty b opponent n /\ connected b opponent n q.

(** Every stone of the board belongs to a group that has a liberty. *)
Definition all_alive (b : Board) : Prop :=
  forall c p, c <> EMPTY -> stone b c p -> exists l, liberty b c p l.

(** *** Territory, stated on the position *)

(** The region of the empty cell [p], the empty cells joined to [p] through
    orthogonally adjacent empty cells, has a cell next to a stone of [c]. *)
Definition touches (b : Board) (p : Point) (c : PieceType) : Prop :=
  exists q r, connected b EMPTY p q /\ adj q r /\ stone b c r.

(** [T] lists, each once, the empty cells whose region touches a stone of
    [c] and no stone of the other color. *)
Definition territory_of (b : Board) (c : PieceType) (T : list Point) : Prop :=
  NoDup T /\ forall p, p ∈ T <-> touches b p c /\ ~ touches b p (getOpponent c).

End Go.

(** ** 4. Placement-Five (Gomoku) rule

    [GomokuRule] has no state beyond the board pointer, so its methods take
    the board. *)

Module Gomoku.

Definition isValidMove (b : Board) (x y : Z) (player : PieceType) : bool :=
  isValidBounds b x y && bool_decide (getPiece b x y = EMPTY).

Definition makeMove (b : Board) (x y : Z) (player : PieceType) : Board :=
  setPiece b x y player.

(** [int directions[4][2] = {{1, 0}, {0, 1}, {1, 1}, {1, -1}};] *)
Definition directions : list (Z * Z) := [(1, 0); (0, 1); (1, 1); (1, -1)].

(** [for (int i = 1; i < 5; ++i) { if (getPiece(cell i) == current) count++;
    else break; }], the loop indices being the list [idx]. *)
Fixpoint scan (b : Board) (current : PieceType) (cell : Z -> Point) (idx : list Z)
         (count : Z) : Z :=
  match idx with
  | [] => count
  | i :: idx' =>
      if decide (getPiece b (cell i).1 (cell i).2 = current)
      then scan b current cell idx' (count + 1)
      else count
  end.

(** The value of [count] for one direction, after both loops. *)
Definition axis_count (b : Board) (x y : Z) (current : PieceType) (dir : Z * Z) : Z :=
  let count := 1 in
  let count := scan b current (fun i => (x + i * dir.1, y + i * dir.2)) [1; 2; 3; 4] count in
  scan b current (fun i => (x - i * dir.1, y - i * dir.2)) [1; 2; 3; 4] count.

(** [for (auto& dir : directions) { ...; if (count >= 5) return ...; }];
    [None] when the loop ends without returning. *)
Fixpoint axes_loop (b : Board) (x y : Z) (current : PieceType) (dirs : list (Z * Z))
  : option GameStatus :=
  match dirs with
  | [] => None
  | dir :: dirs' =>
      if 5 <=? axis_count b x y current dir
      then Some (if decide (current = BLACK) then BLACK_WIN else WHITE_WIN)
      else axes_loop b x y current dirs'
  end.

(** The final double loop: is some cell still [EMPTY]?  ([HW1.cpp] clears a
    [full] flag instead of returning at the first empty cell; the result is
    the same.) *)
Definition has_empty (b : Board) : bool :=
  existsb (fun p => bool_decide (getPiece b p.1 p.2 = EMPTY)) (cells b).

Definition checkWin (b : Board) (x y : Z) : GameStatus :=
  if (x =? -1) && (y =? -1) then PLAYING
  else
    let current := getPiece b x y in
    if decide (current = EMPTY) then PLAYING
    else
      match axes_loop b x y current directions with
      | Some status => status
      | None => if has_empty b then PLAYING else DRAW
      end.

(** The same function in [HW1.cpp]: the final double loop visits every cell
    and clears a [full] flag at each empty one. *)
Definition board_full (b : Board) : bool :=
  fold_left (fun full p => if decide (getPiece b p.1 p.2 = EMPTY) then false else full)
            (cells b) true.

Definition checkWin_HW1 (b : Board) (x y : Z) : GameStatus :=
  if (x =? -1) && (y =? -1) then PLAYING
  else
    let current := getPiece b x y in
    if decide (current = EMPTY) then PLAYING
    else
      match axes_loop b x y current directions with
      | Some status => status
      | None => if board_full b then DRAW else PLAYING
      end.

(** *** The rule, stated on the position *)

(** The status that announces the win of color [c]. *)
Definition win_of (c : PieceType) : GameStatus :=
  if decide (c = BLACK) then BLACK_WIN else WHITE_WIN.

(** On the axis [dir] through [(x, y)], the cells at offsets [lo .. hi]
    (an interval containing offset 0) all hold [c]: a contiguous run of
    length [hi - lo + 1] through [(x, y)]. *)
Definition run_through (b : Board) (x y : Z) (c : PieceType) (dir : Z * Z) (lo hi : Z)
  : Prop :=
  lo <= 0 <= hi /\
  forall i, lo <= i <= hi -> getPiece b (x + i * dir.1) (y + i * dir.2) = c.

(** [dir] is the step from a cell to the next one on a straight line of
    the board, horizontal, vertical or diagonal: each coordinate changes by
    at most one, and not both stay.  The coordinates alone decide this; no
    table of the program enters. *)
Definition line_step (dir : Z * Z) : Prop :=
  -1 <= dir.1 <= 1 /\ -1 <= dir.2 <= 1 /\ dir <> (0, 0).

(** Some horizontal, vertical or diagonal line carries a run of at least
    five through [(x, y)]. *)
Definition five_in_row (b : Board) (x y : Z) (c : PieceType) : Prop :=
  exists dir lo hi, line_step dir /\ run_through b x y c dir lo hi /\ 5 <= hi - lo + 1.

End Gomoku.

(** ** 5. Flip-Capture (Reversi) rule *)

Module Reversi.

(** [int dx[] = {0, 0, 1, -1, 1, 1, -1, -1}; int dy[] = {1, -1, 0, 0, 1, -1, 1, -1};] *)
Definition dirs8 : list (Z * Z) :=
  [(0, 1); (0, -1); (1, 0); (-1, 0); (1, 1); (1, -1); (-1, 1); (-1, -1)].

(** The [while (true)] loop of [checkDirection], entered with the current
    values of [i] and [hasOpponent]. *)
Fixpoint checkDirection_loop (fuel : nat) (b : Board) (x y dx dy : Z)
         (player : PieceType) (flip : bool) (i : Z) (hasOpponent : bool)
  : option (bool * Board) :=
  match fuel with
  | O => None
  | S fuel' =>
      let opponent := getOpponent player in
      let nx := x + i * dx in
      let ny := y + i * dy in
      if negb (isValidBounds b nx ny) then Some (false, b)
      else
        let p := getPiece b nx ny in
        if decide (p = EMPTY) then Some (false, b)
        else if decide (p = opponent)
        then checkDirection_loop fuel' b x y dx dy player flip (i + 1) true
        else if decide (p = player)
        then
          if hasOpponent
          then
            if flip
            then Some (true,
                       fold_left (fun b k => setPiece b (x + k * dx) (y + k * dy) player)
                                 (seqZ 1 (i - 1)) b)
            else Some (true, b)
          else Some (false, b)
        else checkDirection_loop fuel' b x y dx dy player flip (i + 1) hasOpponent
  end.

(** Along a direction of [dirs8] the walk leaves the board after at most
    [size] steps. *)
Definition checkDirection (b : Board) (x y dx dy : Z) (player : PieceType) (flip : bool)
  : option (bool * Board) :=
  checkDirection_loop (S (Z.to_nat (size b))) b x y dx dy player flip 1 false.

Definition initBoard (b : Board) : Board :=
  let mid := size b / 2 in
  let b := setPiece b (mid - 1) (mid - 1) WHITE in
  let b := setPiece b mid mid WHITE in
  let b := setPiece b (mid - 1) mid BLACK in
  setPiece b mid (mid - 1) BLACK.

(** [for (i < 8) if (checkDirection(..., false)) return true; return false;] *)
Fixpoint isValidMove_loop (b : Board) (x y : Z) (player : PieceType) (ds : list (Z * Z))
  : option bool :=
  match ds with
  | [] => Some false
  | d :: ds' =>
      match checkDirection b x y d.1 d.2 player false with
      | Some (true, _) => Some true
      | Some (false, _) => isValidMove_loop b x y player ds'
      | None => None
      end
  end.

Definition isValidMove (b : Board) (x y : Z) (player : PieceType) : option bool :=
  if negb (isValidBounds b x y) || negb (bool_decide (getPiece b x y = EMPTY))
  then Some false
  else isValidMove_loop b x y player dirs8.

Definition makeMove (b : Board) (x y : Z) (player : PieceType) : option Board :=
  if (x =? -1) && (y =? -1) then Some b
  else
    for_each (fun d b =>
                match checkDirection b x y d.1 d.2 player true with
                | Some (_, b') => Some b'
                | None => None
                end)
             dirs8 (setPiece b x y player).

Definition checkWin (b : Board) (x y : Z) : GameStatus :=
  if countPieces b EMPTY =? 0 then
    let bl := countPieces b BLACK in
    let w := countPieces b WHITE in
    if bl >? w then BLACK_WIN
    else if w >? bl then WHITE_WIN
    else DRAW
  else PLAYING.

(** [GameRule::hasValidMove] for this rule. *)
Fixpoint hasValidMove_loop (b : Board) (player : PieceType) (cs : list Point) : option bool :=
  match cs with
  | [] => Some false
  | p :: cs' =>
      match isValidMove b p.1 p.2 player with
      | Some true => Some true
      | Some false => hasValidMove_loop b player cs'
      | None => None
      end
  end.

Definition hasValidMove (b : Board) (player : PieceType) : option bool :=
  hasValidMove_loop b player (cells b).

(** Plays the moves of [ms] in turn from [b], [player] moving first, each
    move being checked with [isValidMove] before it is made, as the turn
    driver does; [None] if some move is refused. *)
Fixpoint play (b : Board) (player : PieceType) (ms : list Point) : option Board :=
  match ms with
  | [] => Some b
  | m :: ms' =>
      match isValidMove b m.1 m.2 player with
      | Some true =>
          match makeMove b m.1 m.2 player with
          | Some b' => play b' (getOpponent player) ms'
          | None => None
          end
      | _ => None
      end
  end.

(** *** Brackets, stated on the position *)

(** The cell at [i] steps from [(x, y)] in the direction [d]. *)
Definition ray (x y : Z) (d : Z * Z) (i : Z) : Point := (x + i * d.1, y + i * d.2).

(** An on-board cell holding [c]. *)
Definition on_board (b : Board) (c : PieceType) (p : Point) : Prop :=
  isValidBounds b p.1 p.2 = true /\ getPiece b p.1 p.2 = c.

(** From [(x, y)] in the direction [d], the cells at steps [1 .. k - 1] hold
    stones of the opponent and the cell at step [k] a stone of [player]. *)
Definition brackets (b : Board) (x y : Z) (d : Z * Z) (player : PieceType) (k : Z) : Prop :=
  2 <= k /\
  (forall i, 1 <= i < k -> on_board b (getOpponent player) (ray x y d i)) /\
  on_board b player (ray x y d k).

(** [d] is one of the eight directions of the board, the step to one of
    the eight cells around a cell: each coordinate changes by at most one,
    and not both stay.  The coordinates alone decide this; no table of the
    program enters. *)
Definition direction (d : Z * Z) : Prop :=
  -1 <= d.1 <= 1 /\ -1 <= d.2 <= 1 /\ d <> (0, 0).

(** [q] is a stone of a run that a stone of [player] on [(x, y)] brackets in
    one of the eight directions. *)
Definition flipped (b : Board) (x y : Z) (player : PieceType) (q : Point) : Prop :=
  exists d k i, direction d /\ brackets b x y d player k /\ 1 <= i < k /\ q = ray x y d i.

End Reversi.

(** ** 6. Serialization of the board

    [serialize] writes to a [stringstream] and [deserialize] reads from one;
    the stream is modelled by the text that remains to be read. *)

Module BoardIO.

(** [ss << n] for an [int]: decimal digits, with a leading minus sign for a
    negative number. *)
Definition print_int (n : Z) : string :=
  DecimalString.NilZero.string_of_int (Z.to_int n).

(** The value written for a cell: the enumerator as an [int]. *)
Definition piece_code (p : PieceType) : Z :=
  match p with EMPTY => 0 | BLACK => 1 | WHITE => 2 end.

(** [static_cast<PieceType>(temp)].  Only the three enumerators are values
    of the model; another integer gives [None]. *)
Definition piece_of_code (n : Z) : option PieceType :=
  if n =? 0 then Some EMPTY
  else if n =? 1 then Some BLACK
  else if n =? 2 then Some WHITE
  else None.

(** [grid[i][j]] read without a bounds check, as [serialize] does. *)
Definition cell (b : Board) (p : Point) : PieceType :=
  default EMPTY (grid_at b p.1 p.2).

Definition serialize (b : Board) : string :=
  String.append (print_int (size b))
    (String.append " "
       (String.concat ""
          (map (fun p => String.append (print_int (piece_code (cell b p))) " ") (cells b)))).

(** [isspace] in the default locale: the space and the control characters
    9 to 13. *)
Definition is_space (c : ascii) : bool :=
  let n := Z.of_nat (nat_of_ascii c) in
  (n =? 32) || ((9 <=? n) && (n <=? 13)).

(** The value of a decimal digit character, codes 48 to 57. *)
Definition digit_of (c : ascii) : option Z :=
  let n := Z.of_nat (nat_of_ascii c) in
  if (48 <=? n) && (n <=? 57) then Some (n - 48) else None.

Fixpoint skip_ws (s : string) : string :=
  match s with
  | String c s' => if is_space c then skip_ws s' else s
  | EmptyString => s
  end.

(** Reads the longest run of digits, accumulating its value. *)
Fixpoint read_digits (acc : Z) (s : string) : Z * string :=
  match s with
  | String c s' =>
      match digit_of c with
      | Some d => read_digits (acc * 10 + d) s'
      | None => (acc, s)
      end
  | EmptyString => (acc, s)
  end.

Definition INT_MIN : Z := - 2 ^ 31.
Definition INT_MAX : Z := 2 ^ 31 - 1.

(** [ss >> n] for an [int]: leading white space is skipped, then an optional
    sign and at least one digit are read.  [None] is a failed extraction (no
    digit, or a value outside [int]); what the program does after a failed
    extraction is not modelled. *)
Definition read_int (s : string) : option (Z * string) :=
  let s1 := skip_ws s in
  let '(negative, s2) :=
    match s1 with
    | String "-" r => (true, r)
    | String "+" r => (false, r)
    | _ => (false, s1)
    end%char in
  match s2 with
  | String c r =>
      match digit_of c with
      | Some d =>
          let '(v, rest) := read_digits d r in
          let v := if negative then - v else v in
          if (INT_MIN <=? v) && (v <=? INT_MAX) then Some (v, rest) else None
      | None => None
      end
  | EmptyString => None
  end.

(** [grid.resize(n, row)]: the first [n] rows are kept as they are, and rows
    equal to [row] are appended when there are fewer. *)
Definition resize_rows (g : list (list PieceType)) (n : nat) (row : list PieceType)
  : list (list PieceType) :=
  take n g ++ replicate (n - length g) row.

(** [grid[i][j] = v]; [None] is a write outside the vectors. *)
Definition set_cell (g : list (list PieceType)) (i j : Z) (v : PieceType)
  : option (list (list PieceType)) :=
  match g !! Z.to_nat i with
  | Some row =>
      if (Z.to_nat j <? length row)%nat
      then Some (<[Z.to_nat i := <[Z.to_nat j := v]> row]> g)
      else None
  | None => None
  end.

(** The body of the double loop of [deserialize] for the cell [p]. *)
Definition read_cell (p : Point) (s : list (list PieceType) * string)
  : option (list (list PieceType) * string) :=
  match read_int s.2 with
  | Some (temp, rest) =>
      match piece_of_code temp with
      | Some v =>
          match set_cell s.1 p.1 p.2 v with
          | Some g => Some (g, rest)
          | None => None
          end
      | None => None
      end
  | None => None
  end.

(** [deserialize(ss)] called on the board [b]. *)
Definition deserialize (b : Board) (ss : string) : option Board :=
  match read_int ss with
  | Some (sz, rest) =>
      if sz <? 0 then None
      else
        let g := resize_rows (grid b) (Z.to_nat sz) (replicate (Z.to_nat sz) EMPTY) in
        match for_each read_cell (cells (mkBoard sz g)) (g, rest) with
        | Some (g', _) => Some (mkBoard sz g')
        | None => None
        end
  | None => None
  end.

End BoardIO.

(** ** 7. Monte-Carlo tree search: backpropagation and the final decision

    The nodes of one search live in a list and a [MCTSNode*] is an index
    into it ([None] for [nullptr]); a node is appended when it is created,
    so a child always has a larger index than its parent.  [double] rewards
    are modelled by rationals: every reward sum is a multiple of one half
    bounded by the visit count, which a [double] represents exactly. *)

Module MCTS.

Record MCTSNode : Type := mkNode {
  parent : option nat;
  children : list nat;
  move : Point;
  playerMoved : PieceType;
  visits : Z;
  wins : Q;
  untriedMoves : list Point
}.

Abbreviation Tree := (list MCTSNode).

(** [if (bScore > wScore) BLACK_WIN; else if (wScore > bScore) WHITE_WIN;
    else DRAW] *)
Definition score_status (bScore wScore : Q) : GameStatus :=
  if Qlt_le_dec wScore bScore then BLACK_WIN
  else if Qlt_le_dec bScore wScore then WHITE_WIN
  else DRAW.

(** The status used for the reward: the score decides when [checkWin] says
    [PLAYING] or [DRAW]. *)
Definition final_status (status : GameStatus) (bScore wScore : Q) : GameStatus :=
  match status with
  | PLAYING | DRAW => score_status bScore wScore
  | _ => status
  end.

Definition result_of (status : GameStatus) : Q :=
  match status with
  | BLACK_WIN => 1
  | WHITE_WIN => 0
  | _ => 1 # 2
  end.

(** [node->visits++; if (node->playerMoved == BLACK) node->wins += result;
    else node->wins += (1.0 - result);] *)
Definition update (result : Q) (n : MCTSNode) : MCTSNode :=
  mkNode (parent n) (children n) (move n) (playerMoved n)
         (visits n + 1)
         (if decide (playerMoved n = BLACK) then (wins n + result)%Q
          else (wins n + (1 - result))%Q)
         (untriedMoves n).

(** [while (node != nullptr) { update; node = node->parent; }] *)
Fixpoint backpropagate_loop (fuel : nat) (result : Q) (node : option nat) (t : Tree)
  : option Tree :=
  match node with
  | None => Some t
  | Some i =>
      match fuel with
      | O => None
      | S fuel' =>
          match t !! i with
          | Some n => backpropagate_loop fuel' result (parent n) (<[i := update result n]> t)
          | None => None
          end
      end
  end.

(** Backpropagation from [node] of the outcome [status]; the walk visits
    each node of the tree at most once. *)
Definition backpropagate (status : GameStatus) (node : nat) (t : Tree) : option Tree :=
  backpropagate_loop (length t) (result_of status) (Some node) t.

(** The loop over [root->children] after the search, on the child nodes. *)
Definition most_visited (cs : list MCTSNode) : Point :=
  (fold_left (fun (acc : Point * Z) child =>
                let '(bestMove, maxVisits) := acc in
                if visits child >? maxVisits then (move child, visits child)
                else (bestMove, maxVisits))
             cs ((-1, -1), -1)).1.

Definition decision (t : Tree) (root : nat) : option Point :=
  match t !! root with
  | Some n =>
      match mapM (fun c => t !! c) (children n) with
      | Some cs => Some (most_visited cs)
      | None => None
      end
  | None => None
  end.

(** *** The walk, stated on the tree *)

(** [k] lies on the path from node [i] up to the root. *)
Inductive on_path (t : Tree) : nat -> nat -> Prop :=
| path_here i : on_path t i i
| path_up i n p k : t !! i = Some n -> parent n = Some p -> on_path t p k -> on_path t i k.

(** Parents are created before their children. *)
Definition tree_wf (t : Tree) : Prop :=
  forall i n p, t !! i = Some n -> parent n = Some p -> (p < i)%nat.

(** The reward added to a node whose move was made by [player]. *)
Definition oriented (result : Q) (player : PieceType) : Q :=
  if decide (player = BLACK) then result else (1 - result)%Q.

(** The statistics of a tree are coherent: a node has won between zero and
    its number of visits, and is visited at most as often as its parent. *)
Definition stats_ok (t : Tree) : Prop :=
  forall k n, t !! k = Some n ->
    (0 <= wins n)%Q /\ (wins n <= inject_Z (visits n))%Q /\
    forall p np, parent n = Some p -> t !! p = Some np -> visits n <= visits np.

(** *** Expansion

    [if (!node->untriedMoves.empty())]: the move at the index
    [rand() % size] leaves the untried moves of [node] and a child for it is
    appended to the tree.  [r] is the value of [rand()], which is not
    negative; [simPlayer] is the color that makes the move; [childMoves] is
    the list that the constructor of the child collects from the board after
    the move.  The result is the tree and the node that the playout starts
    from. *)
Definition expand (t : Tree) (node : nat) (r : Z) (simPlayer : PieceType)
           (childMoves : list Point) : option (Tree * nat) :=
  match t !! node with
  | Some n =>
      if bool_decide (untriedMoves n = []) then Some (t, node)
      else
        let idx := Z.to_nat (Z.rem r (Z.of_nat (length (untriedMoves n)))) in
        match untriedMoves n !! idx with
        | Some mv =>
            let n' := mkNode (parent n) (children n ++ [length t]) (move n) (playerMoved n)
                             (visits n) (wins n) (delete idx (untriedMoves n)) in
            let child := mkNode (Some node) [] mv simPlayer 0 0 childMoves in
            Some (<[node := n']> t ++ [child], length t)
        | None => None
        end
  | None => None
  end.

(** One round of the search after the selection has stopped at [node]:
    expansion, then backpropagation of the playout's status from the node
    the playout started from. *)
Definition search_step (t : Tree) (node : nat) (r : Z) (simPlayer : PieceType)
           (childMoves : list Point) (status : GameStatus) : option Tree :=
  match expand t node r simPlayer childMoves with
  | Some (t', start) => backpropagate status start t'
  | None => None
  end.

(** Every entry of a [children] vector is a node whose parent is the owner
    of the vector. *)
Definition links_ok (t : Tree) : Prop :=
  forall i n c, t !! i = Some n -> c ∈ children n ->
    exists nc, t !! c = Some nc /\ parent nc = Some i.

(** Every node but the root has been visited. *)
Definition visited_ok (t : Tree) : Prop :=
  forall k n, t !! k = Some n -> is_Some (parent n) -> 1 <= visits n.

(** The quotient and the logarithm of the selection formula are defined:
    a child and its parent have been visited. *)
Definition uct_defined (t : Tree) : Prop :=
  forall i n c nc, t !! i = Some n -> c ∈ children n -> t !! c = Some nc ->
    1 <= visits nc /\ 1 <= visits n.

End MCTS.

(** ** 8. Default rule methods and the heuristic players *)

Module GameRule.

(** [GameRule::calculateScore], which the Placement-Five and Flip-Capture
    rules inherit: the two stone counts. *)
Definition calculateScore (b : Board) : Q * Q :=
  (inject_Z (countPieces b BLACK), inject_Z (countPieces b WHITE)).

End GameRule.

(** [AIPlayer::getMove] for the levels 1 and 2.  The rule's [isValidMove]
    for the player's color on the current board is a predicate on cells;
    the successive values of [rand()], which are not negative, are a
    sequence consumed through a counter; [%] is the remainder of the
    truncated division. *)
Module AI.

(** [int weights[8][8]] *)
Definition weights : list (list Z) :=
  [ [100; -20; 10;  5;  5; 10; -20; 100];
    [-20; -50; -2; -2; -2; -2; -50; -20];
    [ 10;  -2; -1; -1; -1; -1;  -2;  10];
    [  5;  -2; -1; -1; -1; -1;  -2;   5];
    [  5;  -2; -1; -1; -1; -1;  -2;   5];
    [ 10;  -2; -1; -1; -1; -1;  -2;  10];
    [-20; -50; -2; -2; -2; -2; -50; -20];
    [100; -20; 10;  5;  5; 10; -20; 100] ].

(** [if (p.x < 8 && p.y < 8) score += weights[p.x][p.y]; else score += 1;]
    (the cells come from the loops over the board, so the indices are not
    negative). *)
Definition weight (p : Point) : Z :=
  if (p.1 <? 8) && (p.2 <? 8)
  then default 0 (weights !! Z.to_nat p.1 ≫= fun row => row !! Z.to_nat p.2)
  else 1.

Section Player.
Variable isValidMove : Z -> Z -> bool.
Variable rand : nat -> Z.

(** [for i, for j: if (rule->isValidMove(i, j, color)) validMoves.push_back({i, j});] *)
Definition validMoves (b : Board) : list Point :=
  filter (fun p => isValidMove p.1 p.2 = true) (cells b).

(** Level 1: [validMoves[rand() % validMoves.size()]]. *)
Definition random_move (moves : list Point) (k : nat) : option (Point * nat) :=
  match moves !! Z.to_nat (Z.rem (rand k) (Z.of_nat (length moves))) with
  | Some m => Some (m, S k)
  | None => None
  end.

(** The body of [for (auto p : validMoves)] of level 2; the state is
    [bestScore], [bestMove] and the counter of [rand()]. *)
Definition greedy_step (acc : Z * Point * nat) (p : Point) : Z * Point * nat :=
  let '(bestScore, bestMove, k) := acc in
  let score := weight p + Z.rem (rand k) 5 in
  if score >? bestScore then (score, p, S k) else (bestScore, bestMove, S k).

Definition greedy_move (moves : list Point) (k : nat) : option (Point * nat) :=
  match moves with
  | [] => None
  | first :: _ =>
      let '(_, bestMove, k') := fold_left greedy_step moves (-99999, first, k) in
      Some (bestMove, k')
  end.

(** The part of [getMove] after the level-3 branch. *)
Definition getMove (level : Z) (b : Board) (k : nat) : option (Point * nat) :=
  let moves := validMoves b in
  if bool_decide (moves = []) then Some ((-1, -1), k)
  else if level =? 1 then random_move moves k
  else greedy_move moves k.

End Player.
End AI.

(** ** 9. Accounts *)

(** [UserManager].  The file [users.txt], which [saveUsers] rewrites from
    the map after every change, is not part of the state.  [wins++] and
    [totalGames++] are defined below [INT_MAX] only: [incr] returns [None]
    at [INT_MAX], where the program's behaviour is undefined. *)
Module UserManager.

Record User : Type := mkUser {
  username : string;
  password : string;
  wins : Z;
  totalGames : Z
}.

Record UserManager : Type := mkUserManager {
  users : gmap string User;
  currentUser : string
}.

Definition incr (n : Z) : option Z :=
  if n <? BoardIO.INT_MAX then Some (n + 1) else None.

Definition registerUser (m : UserManager) (username password : string)
  : bool * UserManager :=
  match users m !! username with
  | Some _ => (false, m)
  | None =>
      (true, mkUserManager (<[username := mkUser username password 0 0]> (users m))
                           (currentUser m))
  end.

Definition login (m : UserManager) (username password : string) : bool * UserManager :=
  match users m !! username with
  | None => (false, m)
  | Some u =>
      if decide (UserManager.password u = password)
      then (true, mkUserManager (users m) username)
      else (false, m)
  end.

Definition logout (m : UserManager) : UserManager := mkUserManager (users m) "".

Definition isLoggedIn (m : UserManager) : bool :=
  negb (bool_decide (currentUser m = ""%string)).

Definition getCurrentUsername (m : UserManager) : string :=
  if bool_decide (currentUser m = ""%string) then "Guest"%string else currentUser m.

(** [users[name]]: the entry of [name], a value-initialized one when the map
    has none. *)
Definition entry (us : gmap string User) (name : string) : User :=
  default (mkUser "" "" 0 0) (us !! name).

Definition recordGameResult (m : UserManager) (isWin : bool) : option UserManager :=
  if bool_decide (currentUser m = ""%string) then Some m
  else
    let u := entry (users m) (currentUser m) in
    match incr (totalGames u) with
    | Some t =>
        match (if isWin then incr (wins u) else Some (wins u)) with
        | Some w =>
            Some (mkUserManager
                    (<[currentUser m := mkUser (username u) (UserManager.password u) w t]>
                       (users m))
                    (currentUser m))
        | None => None
        end
    | None => None
    end.

End UserManager.

(** ** 10. The game loop *)

Inductive GameType : Type := GOMOKU | GO | REVERSI.

#[global] Instance GameType_eq_dec : EqDecision GameType.
Proof. solve_decision. Defined.

Module GameManager.

(** *** Calls through the rule interface

    The rule object is the board together with the marker array of the
    Territory-Capture rule, which the other two rules do not have. *)

Definition supportsPass (g : GameType) : bool :=
  match g with GOMOKU => false | GO | REVERSI => true end.

Definition initBoard (g : GameType) (b : Board) : Board :=
  match g with REVERSI => Reversi.initBoard b | GOMOKU | GO => b end.

Definition isValidMove (g : GameType) (r : GoRule) (x y : Z) (player : PieceType)
  : option (bool * GoRule) :=
  match g with
  | GOMOKU => Some (Gomoku.isValidMove (board r) x y player, r)
  | GO => Go.isValidMove r x y player
  | REVERSI =>
      match Reversi.isValidMove (board r) x y player with
      | Some v => Some (v, r)
      | None => None
      end
  end.

Definition makeMove (g : GameType) (r : GoRule) (x y : Z) (player : PieceType)
  : option GoRule :=
  match g with
  | GOMOKU => Some (Go.with_board r (Gomoku.makeMove (board r) x y player))
  | GO => Go.makeMove r x y player
  | REVERSI =>
      match Reversi.makeMove (board r) x y player with
      | Some b => Some (Go.with_board r b)
      | None => None
      end
  end.

Definition checkWin (g : GameType) (r : GoRule) (x y : Z) : GameStatus :=
  match g with
  | GOMOKU => Gomoku.checkWin (board r) x y
  | GO => Go.checkWin r x y
  | REVERSI => Reversi.checkWin (board r) x y
  end.

Definition calculateScore (g : GameType) (r : GoRule) : option (Q * Q) :=
  match g with
  | GO => Go.calculateScore (board r)
  | GOMOKU | REVERSI => Some (GameRule.calculateScore (board r))
  end.

(** [GameRule::hasValidMove], through the rule's [isValidMove]. *)
Fixpoint hasValidMove_loop (g : GameType) (player : PieceType) (cs : list Point) (r : GoRule)
  : option (bool * GoRule) :=
  match cs with
  | [] => Some (false, r)
  | p :: cs' =>
      match isValidMove g r p.1 p.2 player with
      | Some (true, r') => Some (true, r')
      | Some (false, r') => hasValidMove_loop g player cs' r'
      | None => None
      end
  end.

Definition hasValidMove (g : GameType) (r : GoRule) (player : PieceType)
  : option (bool * GoRule) :=
  hasValidMove_loop g player (cells (board r)) r.

(** *** The state of a game *)

Record GameState : Type := mkGameState {
  gs_board : Board;
  gs_currentPlayer : PieceType;
  gs_passCount : Z;
  gs_moveHistory : list Point
}.

Record Manager : Type := mkManager {
  rule : GoRule;
  gameType : GameType;
  currentTurn : PieceType;
  passCount : Z;
  undoStack : list GameState;
  moveHistory : list Point
}.

Definition with_rule (m : Manager) (r : GoRule) : Manager :=
  mkManager r (gameType m) (currentTurn m) (passCount m) (undoStack m) (moveHistory m).

(** [GameState state = {*board, currentTurn, passCount, moveHistory};
    undoStack.push(state);] *)
Definition saveState (m : Manager) : Manager :=
  mkManager (rule m) (gameType m) (currentTurn m) (passCount m)
            (mkGameState (board (rule m)) (currentTurn m) (passCount m) (moveHistory m)
               :: undoStack m)
            (moveHistory m).

(** How an iteration of the loop ends: the loop goes on, the player quits,
    [checkWin] has decided the game, or the loop jumps to [GAME_OVER] with
    the two scores. *)
Inductive Outcome : Type :=
| Continue
| Quit
| Decided (status : GameStatus)
| GameOver (bScore wScore : Q).

(** The part of the loop at the label [GAME_OVER]. *)
Definition game_over (m : Manager) : option (Manager * Outcome) :=
  match calculateScore (gameType m) (rule m) with
  | Some (bScore, wScore) => Some (m, GameOver bScore wScore)
  | None => None
  end.

(** [saveState(); passCount++; moveHistory.push_back({-1, -1});] *)
Definition record_pass (m : Manager) : option Manager :=
  match UserManager.incr (passCount m) with
  | Some n =>
      let m1 := saveState m in
      Some (mkManager (rule m1) (gameType m1) (currentTurn m1) n (undoStack m1)
                      (moveHistory m1 ++ [(-1, -1)]))
  | None => None
  end.

Definition with_turn (m : Manager) (p : PieceType) : Manager :=
  mkManager (rule m) (gameType m) p (passCount m) (undoStack m) (moveHistory m).

(** The second look at the status that the loop takes for Flip-Capture. *)
Definition reversi_recheck (m : Manager) (x y : Z) (status : GameStatus)
  : option (GameStatus * Manager) :=
  let b := board (rule m) in
  if (countPieces b EMPTY =? 0) || (countPieces b BLACK =? 0) || (countPieces b WHITE =? 0)
  then Some (checkWin (gameType m) (rule m) x y, m)
  else
    match hasValidMove (gameType m) (rule m) BLACK with
    | Some (true, r1) => Some (status, with_rule m r1)
    | Some (false, r1) =>
        match hasValidMove (gameType m) r1 WHITE with
        | Some (true, r2) => Some (status, with_rule m r2)
        | Some (false, r2) =>
            Some (checkWin (gameType m) r2 x y, with_rule m r2)
        | None => None
        end
    | None => None
    end.

(** The branch of a cell that [isValidMove] accepted. *)
Definition play_move (m : Manager) (move : Point) : option (Manager * Outcome) :=
  let m1 := saveState m in
  match makeMove (gameType m1) (rule m1) move.1 move.2 (currentTurn m1) with
  | Some r =>
      let m2 := mkManager r (gameType m1) (currentTurn m1) 0 (undoStack m1)
                          (moveHistory m1 ++ [move]) in
      let status := checkWin (gameType m2) (rule m2) move.1 move.2 in
      let checked :=
        if decide (gameType m2 = REVERSI) then reversi_recheck m2 move.1 move.2 status
        else Some (status, m2) in
      match checked with
      | Some (status, m3) =>
          if decide (status = PLAYING)
          then Some (with_turn m3 (getOpponent (currentTurn m3)), Continue)
          else Some (m3, Decided status)
      | None => None
      end
  | None => None
  end.

(** The loop body after [getMove] has returned [move]. *)
Definition handle_move (m : Manager) (move : Point) : option (Manager * Outcome) :=
  if move.1 =? -2 then
    match undoStack m with
    | [] => Some (m, Continue)
    | prev :: rest =>
        Some (mkManager (Go.with_board (rule m) (gs_board prev)) (gameType m)
                        (gs_currentPlayer prev) (gs_passCount prev) rest
                        (gs_moveHistory prev),
              Continue)
    end
  else if move.1 =? -3 then Some (m, Continue)
  else if move.1 =? -4 then Some (m, Quit)
  else if move.1 =? -1 then
    if decide (gameType m = GO) then
      match record_pass m with
      | Some m1 =>
          let m2 := with_turn m1 (getOpponent (currentTurn m1)) in
          if 2 <=? passCount m2 then game_over m2 else Some (m2, Continue)
      | None => None
      end
    else Some (m, Continue)
  else
    match isValidMove (gameType m) (rule m) move.1 move.2 (currentTurn m) with
    | Some (true, r) => play_move (with_rule m r) move
    | Some (false, r) => Some (with_rule m r, Continue)
    | None => None
    end.

(** One iteration of the loop of [gameLoop]; [move] is what [getMove]
    returns when the loop comes to call it. *)
Definition iteration (m : Manager) (move : Point) : option (Manager * Outcome) :=
  if supportsPass (gameType m) then
    match hasValidMove (gameType m) (rule m) (currentTurn m) with
    | Some (true, r) => handle_move (with_rule m r) move
    | Some (false, r) =>
        match record_pass (with_rule m r) with
        | Some m1 =>
            if (2 <=? passCount m1)
               || (bool_decide (gameType m1 = REVERSI)
                   && (countPieces (board (rule m1)) EMPTY =? 0))
            then game_over m1
            else Some (with_turn m1 (getOpponent (currentTurn m1)), Continue)
        | None => None
        end
    | None => None
    end
  else handle_move m move.

(** The loop, for the moves that [getMove] returns in turn; it stops at the
    first iteration that does not end with [Continue]. *)
Fixpoint gameLoop (m : Manager) (moves : list Point) : option (Manager * Outcome) :=
  match moves with
  | [] => Some (m, Continue)
  | move :: moves' =>
      match iteration m move with
      | Some (m', Continue) => gameLoop m' moves'
      | other => other
      end
  end.

(** *** Starting a game *)

Definition standard_size (g : GameType) : Z :=
  match g with REVERSI => 8 | GO => 19 | GOMOKU => 15 end.

(** The state that [run] sets up before it enters the loop; [marks] is the
    content of the marker array of the new rule object. *)
Definition new_game (g : GameType) (marks : gset Point) : Manager :=
  mkManager (mkGoRule (initBoard g (newBoard (standard_size g))) marks) g BLACK 0 [] [].

(** *** Replay *)

(** [Board::clear]. *)
Definition clear (b : Board) : Board :=
  mkBoard (size b) (map (map (fun _ => EMPTY)) (grid b)).

(** The loop of [replayMode], when the viewer steps through all moves. *)
Fixpoint replay_loop (g : GameType) (r : GoRule) (p : PieceType) (ms : list Point)
  : option GoRule :=
  match ms with
  | [] => Some r
  | m :: ms' =>
      if m.1 =? -1 then replay_loop g r (getOpponent p) ms'
      else
        match makeMove g r m.1 m.2 p with
        | Some r' => replay_loop g r' (getOpponent p) ms'
        | None => None
        end
  end.

Definition replayMode (m : Manager) : option Manager :=
  let r := Go.with_board (rule m) (initBoard (gameType m) (clear (board (rule m)))) in
  match replay_loop (gameType m) r BLACK (moveHistory m) with
  | Some r' => Some (with_rule m r')
  | None => None
  end.

(** *** Recording the result

    [Player::isAI]: the name contains the letters AI. *)
Fixpoint isAI (name : string) : bool :=
  match name with
  | String c rest =>
      match rest with
      | String c' _ =>
          if bool_decide (c = "A"%char) && bool_decide (c' = "I"%char) then true else isAI rest
      | EmptyString => false
      end
  | EmptyString => false
  end.

(** The calls of [recordGameResult] at the end of a game, in order. *)
Definition results (blackName whiteName : string) (out : Outcome) : list bool :=
  let black v := if isAI blackName then [] else [v] in
  let white v := if isAI whiteName then [] else [v] in
  match out with
  | Decided BLACK_WIN => black true ++ white false
  | Decided WHITE_WIN => white true ++ black false
  | Decided _ => black false ++ white false
  | GameOver bScore wScore =>
      if Qlt_le_dec wScore bScore then black true else white true
  | Continue | Quit => []
  end.


(** *** Saving and loading *)

Definition gameType_code (g : GameType) : Z :=
  match g with GOMOKU => 1 | GO => 2 | REVERSI => 3 end.

(** [(GameType)gt].  Only the three enumerators are values of the model. *)
Definition gameType_of_code (n : Z) : option GameType :=
  if n =? 1 then Some GOMOKU
  else if n =? 2 then Some GO
  else if n =? 3 then Some REVERSI
  else None.

(** The character that [endl] writes. *)
Definition newline : ascii := ascii_of_nat 10.

(** [file << p.x << " " << p.y << " "] *)
Definition print_point (p : Point) : string :=
  String.append (BoardIO.print_int p.1)
    (String.append " " (String.append (BoardIO.print_int p.2) " ")).

(** The text that [saveGame] writes. *)
Definition saveGame (m : Manager) : string :=
  String.append (BoardIO.print_int (gameType_code (gameType m)))
    (String.append " "
       (String.append (BoardIO.print_int (BoardIO.piece_code (currentTurn m)))
          (String.append " "
             (String.append (BoardIO.print_int (passCount m))
                (String newline
                   (String.append (BoardIO.serialize (board (rule m)))
                      (String newline
                         (String.append
                            (BoardIO.print_int (Z.of_nat (length (moveHistory m))))
                            (String newline
                               (String.concat "" (map print_point (moveHistory m)))))))))))).

(** [getline]: the text before the first newline, and the text after it. *)
Fixpoint getline (s : string) : string * string :=
  match s with
  | String c s' =>
      if Ascii.eqb c newline then (EmptyString, s')
      else let '(line, rest) := getline s' in (String c line, rest)
  | EmptyString => (EmptyString, EmptyString)
  end.

(** [for (i < histSize) { file >> x >> y; moveHistory.push_back({x, y}); }] *)
Fixpoint read_points (n : nat) (s : string) : option (list Point * string) :=
  match n with
  | O => Some ([], s)
  | S n' =>
      match BoardIO.read_int s with
      | Some (x, s1) =>
          match BoardIO.read_int s1 with
          | Some (y, s2) =>
              match read_points n' s2 with
              | Some (ps, s3) => Some ((x, y) :: ps, s3)
              | None => None
              end
          | None => None
          end
      | None => None
      end
  end.

(** [loadGame] on the text [file]; [marks] is the content of the marker
    array of the new rule object.  The stack of saved states is left as it
    is. *)
Definition loadGame (m : Manager) (marks : gset Point) (file : string) : option Manager :=
  match BoardIO.read_int file with
  | Some (gt, s1) =>
      match BoardIO.read_int s1 with
      | Some (ct, s2) =>
          match BoardIO.read_int s2 with
          | Some (pc, s3) =>
              match gameType_of_code gt, BoardIO.piece_of_code ct with
              | Some g, Some turn =>
                  let '(_, s4) := getline s3 in
                  let '(boardStr, s5) := getline s4 in
                  match BoardIO.deserialize (newBoard (standard_size g)) boardStr with
                  | Some b =>
                      match BoardIO.read_int s5 with
                      | Some (histSize, s6) =>
                          match read_points (Z.to_nat histSize) s6 with
                          | Some (hist, _) =>
                              Some (mkManager (mkGoRule b marks) g turn pc (undoStack m) hist)
                          | None => None
                          end
                      | None => None
                      end
                  | None => None
                  end
              | _, _ => None
              end
          | None => None
          end
      | None => None
      end
  | None => None
  end.

(** *** Reading a move *)

(** [n - 1] for an [int]: defined above [INT_MIN] only; at [INT_MIN] the
    subtraction leaves [int] and the program's behaviour is undefined. *)
Definition decr (n : Z) : option Z :=
  if BoardIO.INT_MIN <? n then Some (n - 1) else None.

(** [HumanPlayer::getMove] for the input lines [inputs]: the first line
    that is a command or starts with two numbers gives the move; lines that
    are neither are skipped.  [None]: the lines are used up, or one of the
    two subtractions is undefined. *)
Fixpoint getMove (inputs : list string) : option (Point * list string) :=
  match inputs with
  | [] => None
  | input :: rest =>
      if bool_decide (input = "undo"%string) then Some ((-2, -2), rest)
      else if bool_decide (input = "save"%string) then Some ((-3, -3), rest)
      else if bool_decide (input = "quit"%string) then Some ((-4, -4), rest)
      else if bool_decide (input = "pass"%string) then Some ((-1, -1), rest)
      else
        match BoardIO.read_int input with
        | Some (x, s1) =>
            match BoardIO.read_int s1 with
            | Some (y, _) =>
                match decr x, decr y with
                | Some x', Some y' => Some ((x', y'), rest)
                | _, _ => None
                end
            | None => getMove rest
            end
        | None => getMove rest
        end
  end.

End GameManager.

(** The first version of the program ([HW1.cpp]) knows the first two games,
    lets the players choose the size of the board, and saves no history. *)
Module GameManagerHW1.

(** [(GameType)type] *)
Definition gameType_of_code (n : Z) : option GameType :=
  if n =? 1 then Some GOMOKU else if n =? 2 then Some GO else None.

(** The text that [saveGame] writes. *)
Definition saveGame (g : GameType) (currentPlayer : PieceType) (passCount : Z) (b : Board)
  : string :=
  String.append (BoardIO.print_int (GameManager.gameType_code g))
    (String.append " "
       (String.append (BoardIO.print_int (BoardIO.piece_code currentPlayer))
          (String.append " "
             (String.append (BoardIO.print_int passCount)
                (String GameManager.newline (BoardIO.serialize b)))))).

(** [loadGame]: the game type, the player to move, the pass count and the
    board, which is read into a board of size 0. *)
Definition loadGame (file : string) : option (GameType * PieceType * Z * Board) :=
  match BoardIO.read_int file with
  | Some (type, s1) =>
      match BoardIO.read_int s1 with
      | Some (player, s2) =>
          match BoardIO.read_int s2 with
          | Some (passCount, s3) =>
              match gameType_of_code type, BoardIO.piece_of_code player with
              | Some g, Some p =>
                  match BoardIO.deserialize (newBoard 0) s3 with
                  | Some b => Some (g, p, passCount, b)
                  | None => None
                  end
              | _, _ => None
              end
          | None => None
          end
      | None => None
      end
  | None => None
  end.

End GameManagerHW1.

(** ** 11. Auxiliary notions of the proofs *)

Section GoNotions.
Import Go.

(** The cells of the board, as a set. *)
Definition cellset (b : Board) : gset Point := list_to_set (cells b).

(** Number of cells of the board outside the marker set [V]: the measure
    that bounds the recursion and the flood fill. *)
Definition unmarked (b : Board) (V : gset Point) : nat := base.size (cellset b ∖ V).

(** [p] is the seed, or touches a stone of the group of the seed. *)
Definition reach (b : Board) (c : PieceType) (seed p : Point) : Prop :=
  p = seed \/ exists q, connected b c seed q /\ adj q p.

(** The cell [p] holds a stone of color [c]. *)
Definition holds (b : Board) (c : PieceType) (p : Point) : Prop :=
  getPiece b p.1 p.2 = c /\ c <> EMPTY.

#[global] Instance holds_dec b c p : Decision (holds b c p).
Proof. unfold holds. apply _. Defined.

(** What one discovery from [seed] does to the marker set [V] and the group
    [G]: [new] lists the cells it marks, in the order it marks them; [n] is
    [acc] plus the number of empty cells among them; the stones among them
    join the group; every neighbour of a new stone is marked at the end; and
    every new cell is the seed or touches its group. *)
Record dfs_post (b : Board) (c : PieceType) (seed : Point)
       (V : gset Point) (G : list Point) (acc n : Z) (V' : gset Point) (G' new : list Point)
  : Prop := {
  post_nodup : NoDup new;
  post_fresh : forall p, p ∈ new -> (p ∉ V) /\ isValidBounds b p.1 p.2 = true;
  post_vis : V' = list_to_set new ∪ V;
  post_count : n = acc + Z.of_nat (length (filter (fun p => getPiece b p.1 p.2 = EMPTY) new));
  post_group : G' = G ++ filter (holds b c) new;
  post_closed : forall q, q ∈ new -> holds b c q ->
                forall r, adj q r -> isValidBounds b r.1 r.2 = true -> r ∈ V';
  post_sound : forall p, p ∈ new -> reach b c seed p
}.

(** With fuel above the number of unmarked cells, a discovery from any cell
    returns, and [dfs_post] describes what it returns. *)
Definition dfs_ok (b : Board) (c : PieceType) (fuel : nat) : Prop :=
  forall x y (V : gset Point) G, (unmarked b V < fuel)%nat ->
    exists n V' G' new,
      countLibertiesDFS fuel b x y c (V, G) = Some (n, (V', G')) /\
      dfs_post b c (x, y) V G 0 n V' G' new /\
      (isValidBounds b x y = true -> (x, y) ∈ V').

(** Two marker sets with the same cells of the board. *)
Definition agree (b : Board) (V1 V2 : gset Point) : Prop :=
  forall p, isValidBounds b p.1 p.2 = true -> (p ∈ V1 <-> p ∈ V2).

(** Two discoveries with the same tally, the same group and marker sets that
    agree on the board. *)
Definition same_discovery (b : Board) (r1 r2 : option (Z * DfsState)) : Prop :=
  match r1, r2 with
  | Some (n1, (V1, G1)), Some (n2, (V2, G2)) => n1 = n2 /\ G1 = G2 /\ agree b V1 V2
  | None, None => True
  | _, _ => False
  end.

(** [for (auto& p : group) board->setPiece(p.x, p.y, EMPTY);] *)
Definition clear_group (G : list Point) (b : Board) : Board :=
  fold_left (fun b p => setPiece b p.1 p.2 EMPTY) G b.

(** [q] is a stone of an [opponent] group that touches [(x, y)] through the
    direction [d] and has no liberty on [b]. *)
Definition captured_via (b : Board) (x y : Z) (opponent : PieceType) (d : Z * Z) (q : Point)
  : Prop :=
  no_liberty b opponent (x + d.1, y + d.2) /\ connected b opponent (x + d.1, y + d.2) q.

(** [q] is captured through one of the directions of [done]. *)
Definition captured_in (b0 : Board) (x y : Z) (opp : PieceType) (done : list (Z * Z))
           (q : Point) : Prop :=
  exists d, d ∈ done /\ captured_via b0 x y opp d q.

(** Invariant of the loop of [removeDeadStones] once the directions of
    [done] are processed: [b] is [b0] with the cells captured through them
    emptied. *)
Definition removal_inv (b0 : Board) (x y : Z) (opp : PieceType) (done : list (Z * Z))
           (b : Board) : Prop :=
  size b = size b0 /\ wf_board b /\
  (forall q, captured_in b0 x y opp done q -> getPiece b q.1 q.2 = EMPTY) /\
  (forall q, getPiece b q.1 q.2 = getPiece b0 q.1 q.2 \/
             (getPiece b q.1 q.2 = EMPTY /\ captured_in b0 x y opp done q)).

(** Length of the queue plus the number of unchecked cells: it drops by one
    at each round of the flood fill. *)
Definition flood_measure (b : Board) (f : Flood) : nat :=
  (length (queue f) + unmarked b (checked f))%nat.

(** Both running scores are whole and non-negative. *)
Definition whole_scores (s : ScoreState) : Prop :=
  exists nb nw : Z, 0 <= nb /\ 0 <= nw /\ (s.1.1 == inject_Z nb)%Q /\ (s.1.2 == inject_Z nw)%Q.

End GoNotions.

Section BoardIONotions.
Import BoardIO.

(** The value of a digit sequence read after the prefix value [acc]. *)
Fixpoint uint_value (acc : Z) (u : Decimal.uint) : Z :=
  match u with
  | Decimal.Nil => acc
  | Decimal.D0 u => uint_value (acc * 10 + 0) u
  | Decimal.D1 u => uint_value (acc * 10 + 1) u
  | Decimal.D2 u => uint_value (acc * 10 + 2) u
  | Decimal.D3 u => uint_value (acc * 10 + 3) u
  | Decimal.D4 u => uint_value (acc * 10 + 4) u
  | Decimal.D5 u => uint_value (acc * 10 + 5) u
  | Decimal.D6 u => uint_value (acc * 10 + 6) u
  | Decimal.D7 u => uint_value (acc * 10 + 7) u
  | Decimal.D8 u => uint_value (acc * 10 + 8) u
  | Decimal.D9 u => uint_value (acc * 10 + 9) u
  end.

(** The text that [serialize] leaves after the size: a space, then every
    cell value followed by a space. *)
Fixpoint stream_of (b : Board) (cs : list Point) : string :=
  match cs with
  | [] => " "
  | p :: cs' => String " " (String.append (print_int (piece_code (cell b p))) (stream_of b cs'))
  end.

(** [grid[i][j]] on a bare grid. *)
Definition at_cell (g : list (list PieceType)) (p : Point) : option PieceType :=
  match g !! Z.to_nat p.1 with
  | Some row => row !! Z.to_nat p.2
  | None => None
  end.

(** [n] rows of [w] cells each. *)
Definition shape (n w : nat) (g : list (list PieceType)) : Prop :=
  length g = n /\ forall row, row ∈ g -> length row = w.

End BoardIONotions.

Section MCTSNotions.
Import MCTS.

(** The effect of the walk on one node. *)
Definition bumped (result : Q) (n n' : MCTSNode) : Prop :=
  parent n' = parent n /\ children n' = children n /\ move n' = move n /\
  playerMoved n' = playerMoved n /\ untriedMoves n' = untriedMoves n /\
  visits n' = visits n + 1 /\
  (wins n' == wins n + oriented result (playerMoved n))%Q.

End MCTSNotions.

Section BoardNotions.

(** Number of cells of a row that hold [t]. *)
Definition row_count (t : PieceType) (row : list PieceType) : Z :=
  Z.of_nat (length (filter (fun p => p = t) row)).

End BoardNotions.

Section ReversiNotions.
Import Reversi.

(** The board after the run of [k - 1] stones from [(x, y)] in the direction
    [d] has been turned to [player], when [flip] is set. *)
Definition after_flip (b : Board) (x y : Z) (d : Z * Z) (player : PieceType) (flip : bool)
           (k : Z) : Board :=
  if flip
  then fold_left (fun b j => setPiece b (x + j * d.1) (y + j * d.2) player) (seqZ 1 (k - 1)) b
  else b.

(** What holds of the board [bi] once a move of [player] on [(x, y)] of
    [b] has handled the directions [ds]. *)
Definition move_inv (b : Board) (x y : Z) (player : PieceType) (ds : list (Z * Z))
           (bi : Board) : Prop :=
  wf_board bi /\ size bi = size b /\ getPiece bi x y = player /\
  (forall d k i, d ∈ ds -> brackets b x y d player k -> 1 <= i < k ->
                 getPiece bi (ray x y d i).1 (ray x y d i).2 = player) /\
  (forall q, q = (x, y) \/
             (exists d k i, d ∈ ds /\ brackets b x y d player k /\ 1 <= i < k /\ q = ray x y d i) \/
             getPiece bi q.1 q.2 = getPiece b q.1 q.2).

End ReversiNotions.

Section ScoreNotions.
Import Go.

(** The cell one step from [q] in the direction [d]. *)
Definition step (q : Point) (d : Z * Z) : Point := (q.1 + d.1, q.2 + d.2).

(** State of a flood fill from [p0] started with the marker set [C0]: the
    territory is [pre] followed by the queue, every pair of a cell and a
    direction in [sn] has been looked at. *)
Definition flood_gen (b : Board) (p0 : Point) (C0 : gset Point) (pre : list Point)
           (sn : Point -> Z * Z -> Prop) (f : Flood) : Prop :=
  territory f = pre ++ queue f /\
  NoDup (territory f) /\ p0 ∈ territory f /\
  (forall q, q ∈ checked f <-> q ∈ C0 \/ q ∈ territory f) /\
  (forall q, q ∈ territory f -> connected b EMPTY p0 q) /\
  (forall q d, sn q d -> stone b EMPTY (step q d) -> step q d ∈ territory f) /\
  (touchesBlack f = true <-> exists q d, sn q d /\ stone b BLACK (step q d)) /\
  (touchesWhite f = true <-> exists q d, sn q d /\ stone b WHITE (step q d)).

(** Every direction of every cell of [done] has been looked at. *)
Definition all_dirs (done : list Point) (q : Point) (d : Z * Z) : Prop :=
  q ∈ done /\ d ∈ dirs4.

(** The state between two rounds of the flood fill. *)
Definition flood_head (b : Board) (p0 : Point) (C0 : gset Point) (f : Flood) : Prop :=
  exists done, flood_gen b p0 C0 done (all_dirs done) f.

(** [T] lists the cells of [chk] that are territory of [c]. *)
Definition terr_upto (b : Board) (chk : gset Point) (c : PieceType) (T : list Point) : Prop :=
  NoDup T /\
  forall q, q ∈ T <-> q ∈ chk /\ touches b q c /\ ~ touches b q (getOpponent c).

(** Invariant of the double loop of [calculateScore] once the cells of
    [pre] are handled. *)
Definition score_inv (b : Board) (pre : list Point) (s : ScoreState) : Prop :=
  (forall q, q ∈ s.2 <-> q ∈ pre \/ exists p, p ∈ pre /\ connected b EMPTY p q) /\
  exists Tb Tw,
    terr_upto b s.2 BLACK Tb /\ terr_upto b s.2 WHITE Tw /\
    (s.1.1 == inject_Z (Z.of_nat (length (filter (fun p => getPiece b p.1 p.2 = BLACK) pre))
                        + Z.of_nat (length Tb)))%Q /\
    (s.1.2 == inject_Z (Z.of_nat (length (filter (fun p => getPiece b p.1 p.2 = WHITE) pre))
                        + Z.of_nat (length Tw)))%Q.
End ScoreNotions.

Section LivenessNotions.
Import Go.

(** The test of [all_alive] by discovery from every stone. *)
Definition alive_check (b : Board) : bool :=
  forallb (fun p =>
             match getPiece b p.1 p.2 with
             | EMPTY => true
             | c => match getLiberties (mkGoRule b ∅) p.1 p.2 c [] with
                    | Some (n, _, _) => 0 <? n
                    | None => false
                    end
             end) (cells b).
End LivenessNotions.


Section AccountNotions.
Import UserManager.

(** The calls that the program makes on the account manager. *)
Inductive Op : Type :=
| OpRegister (username password : string)
| OpLogin (username password : string)
| OpLogout
| OpRecord (isWin : bool).

Definition apply_op (m : UserManager) (o : Op) : option UserManager :=
  match o with
  | OpRegister u p => Some (registerUser m u p).2
  | OpLogin u p => Some (login m u p).2
  | OpLogout => Some (logout m)
  | OpRecord v => recordGameResult m v
  end.

(** Every entry is stored under its own name, has won between zero and its
    number of games, and the current user, if any, has an entry. *)
Definition accounts_ok (m : UserManager) : Prop :=
  (forall name u, users m !! name = Some u ->
     username u = name /\ 0 <= wins u <= totalGames u) /\
  (currentUser m = ""%string \/ is_Some (users m !! currentUser m)).

(** The entry [u'] continues the entry [u]: same name and password, no
    fewer games and wins. *)
Definition continues (u u' : User) : Prop :=
  username u' = username u /\ password u' = password u /\
  wins u <= wins u' /\ totalGames u <= totalGames u'.
End AccountNotions.

Section LoopNotions.
Import GameManager.

(** The color to move after the moves [ms], when [p] moves first. *)
Definition player_after (p : PieceType) (ms : list Point) : PieceType :=
  fold_left (fun p _ => getOpponent p) ms p.

(** Replaying [h] from the board [b0], Black moving first, ends on [b]. *)
Definition replays (g : GameType) (b0 : Board) (h : list Point) (b : Board) : Prop :=
  exists r, replay_loop g (mkGoRule b0 ∅) BLACK h = Some r /\ board r = b.

(** The state [s] is the one that its own history leads to from [b0]. *)
Definition recorded (g : GameType) (b0 : Board) (s : GameState) : Prop :=
  wf_board (gs_board s) /\ size (gs_board s) = size b0 /\
  replays g b0 (gs_moveHistory s) (gs_board s) /\
  gs_currentPlayer s = player_after BLACK (gs_moveHistory s).

(** What [saveState] stores. *)
Definition snapshot (m : Manager) : GameState :=
  mkGameState (board (rule m)) (currentTurn m) (passCount m) (moveHistory m).

(** The current state and every state kept for undoing are recorded. *)
Definition coherent (b0 : Board) (m : Manager) : Prop :=
  recorded (gameType m) b0 (snapshot m) /\
  Forall (recorded (gameType m) b0) (undoStack m).
End LoopNotions.

Section TextNotions.
Import BoardIO GameManager.

(** The text [s] does not start with a digit. *)
Definition no_digit_head (s : string) : Prop :=
  match s with
  | String c _ => digit_of c = None
  | EmptyString => True
  end.

(** The text [s] has no newline. *)
Fixpoint one_line (s : string) : Prop :=
  match s with
  | String c s' => Ascii.eqb c newline = false /\ one_line s'
  | EmptyString => True
  end.

(** The number [z] is a value of [int]. *)
Definition is_int (z : Z) : Prop := INT_MIN <= z <= INT_MAX.
End TextNotions.

(** ** 12. Positions and trees used as concrete instances *)

(** White to play in the corner would have no liberty and capture nothing. *)
Definition corner_eye : Board :=
  mkBoard 3 [[EMPTY; BLACK; EMPTY]; [BLACK; EMPTY; EMPTY]; [EMPTY; EMPTY; EMPTY]].

(** Black to play in the corner takes the last liberty of both white stones. *)
Definition corner_capture : Board :=
  mkBoard 3 [[EMPTY; WHITE; BLACK]; [WHITE; BLACK; EMPTY]; [BLACK; EMPTY; EMPTY]].

(** A bent group of three: the cell (1, 1) touches two of its stones. *)
Definition bent_three : Board :=
  mkBoard 3 [[BLACK; BLACK; EMPTY]; [BLACK; EMPTY; EMPTY]; [EMPTY; EMPTY; EMPTY]].

(** Black stones on (7, 7) .. (7, 11) of a 15 by 15 board. *)
Definition five_row : Board :=
  fold_left (fun b y => setPiece b 7 y BLACK) [7; 8; 9; 10; 11] (newBoard 15).

(** The same row one stone short. *)
Definition four_row : Board :=
  fold_left (fun b y => setPiece b 7 y BLACK) [7; 8; 9; 10] (newBoard 15).

(** A game of nine legal moves from the initial position of an 8 by 8
    board, Black moving first, and the position it reaches: White has no
    stone left. *)
Definition wipeout_line : list Point :=
  [(2, 3); (2, 2); (2, 1); (1, 3); (0, 4); (5, 3); (6, 3); (2, 4); (3, 5)].

(** The position after [wipeout_line]. *)
Definition wipeout_board : Board :=
  mkBoard 8
    [[EMPTY; EMPTY; EMPTY; EMPTY; BLACK; EMPTY; EMPTY; EMPTY];
     [EMPTY; EMPTY; EMPTY; BLACK; EMPTY; EMPTY; EMPTY; EMPTY];
     [EMPTY; BLACK; BLACK; BLACK; BLACK; EMPTY; EMPTY; EMPTY];
     [EMPTY; EMPTY; EMPTY; BLACK; BLACK; BLACK; EMPTY; EMPTY];
     [EMPTY; EMPTY; EMPTY; BLACK; BLACK; EMPTY; EMPTY; EMPTY];
     [EMPTY; EMPTY; EMPTY; BLACK; EMPTY; EMPTY; EMPTY; EMPTY];
     [EMPTY; EMPTY; EMPTY; BLACK; EMPTY; EMPTY; EMPTY; EMPTY];
     [EMPTY; EMPTY; EMPTY; EMPTY; EMPTY; EMPTY; EMPTY; EMPTY]].

(** A position with stones of both colors, to be saved and read back. *)
Definition small_position : Board :=
  mkBoard 3 [[EMPTY; BLACK; EMPTY]; [WHITE; EMPTY; EMPTY]; [EMPTY; EMPTY; BLACK]].

(** A search tree: node 0 is the root, nodes 1 and 2 are its children, node
    3 is a child of node 1.  Node 2 has the better average reward (3/4), node
    1 the higher visit count. *)
Definition sample_tree : MCTS.Tree :=
  [MCTS.mkNode None [1; 2]%nat (-1, -1) WHITE 5 2 [];
   MCTS.mkNode (Some 0%nat) [3%nat] (0, 0) BLACK 3 1 [];
   MCTS.mkNode (Some 0%nat) [] (0, 1) BLACK 2 (3 # 2) [];
   MCTS.mkNode (Some 1%nat) [] (1, 1) WHITE 0 0 []].

(** A search tree after two rounds: the root has two visited children and
    one move left to try. *)
Definition searched_tree : MCTS.Tree :=
  [MCTS.mkNode None [1; 2]%nat (-1, -1) WHITE 2 1 [(2, 2)];
   MCTS.mkNode (Some 0%nat) [] (0, 0) BLACK 1 1 [];
   MCTS.mkNode (Some 0%nat) [] (0, 1) BLACK 1 0 []].


(** A Flip-Capture position in which neither color can move: one stone
    each, in opposite corners. *)
Definition quiet_corners : Board :=
  setPiece (setPiece (newBoard 8) 0 0 BLACK) 7 7 WHITE.

(** The game after [wipeout_line], played through the loop. *)
Definition wipeout_game : GameManager.Manager :=
  match GameManager.gameLoop (GameManager.new_game REVERSI ∅) wipeout_line with
  | Some (m, _) => m
  | None => GameManager.new_game REVERSI ∅
  end.

(** A Territory-Capture game after the first move. *)
Definition first_stone : GameManager.Manager :=
  match GameManager.iteration (GameManager.new_game GO ∅) (3, 3) with
  | Some (m, _) => m
  | None => GameManager.new_game GO ∅
  end.

(** * Properties *)

(** ** Board *)

Section BoardFacts.

Lemma isValidBounds_spec b x y :
  isValidBounds b x y = true <-> 0 <= x < size b /\ 0 <= y < size b.
Proof. unfold isValidBounds. rewrite !andb_true_iff, !Z.leb_le, !Z.ltb_lt. lia. Qed.

Lemma elem_of_cells b p : p ∈ cells b <-> isValidBounds b p.1 p.2 = true.
Proof.
  unfold cells. rewrite isValidBounds_spec, list_elem_of_bind. split.
  - intros (i & Hj & Hi). apply list_elem_of_bind in Hj as (j & Hp & Hj).
    apply list_elem_of_singleton in Hp. subst p. simpl.
    apply elem_of_seqZ in Hi, Hj. lia.
  - intros [Hx Hy]. exists p.1. split; [|apply elem_of_seqZ; lia].
    apply list_elem_of_bind. exists p.2. split; [|apply elem_of_seqZ; lia].
    destruct p; simpl. apply list_elem_of_singleton. reflexivity.
Qed.

Lemma length_bind_const {A B : Type} (f : A -> list B) (k : nat) (l : list A) :
  (forall a, length (f a) = k) -> length (l ≫= f) = (length l * k)%nat.
Proof.
  intros Hf. induction l as [|a l IH]; [reflexivity|].
  change ((a :: l) ≫= f) with (f a ++ (l ≫= f)). rewrite length_app, Hf, IH. simpl. lia.
Qed.

Lemma length_cells b : (length (cells b) <= Z.to_nat (size b * size b))%nat.
Proof.
  unfold cells.
  rewrite (length_bind_const _ (Z.to_nat (size b))).
  - rewrite length_seqZ. destruct (Z_le_gt_dec 0 (size b)).
    + rewrite Z2Nat.inj_mul by lia. reflexivity.
    + rewrite (Z2Nat.nonpos (size b)) by lia. simpl. lia.
  - intros i. rewrite (length_bind_const _ 1%nat) by reflexivity.
    rewrite length_seqZ. lia.
Qed.

Lemma NoDup_cells b : NoDup (cells b).
Proof.
  unfold cells. apply NoDup_bind; [| |apply NoDup_seqZ].
  - intros i1 i2 p _ _ H1 H2.
    apply list_elem_of_bind in H1 as (j1 & H1 & _). apply list_elem_of_bind in H2 as (j2 & H2 & _).
    apply list_elem_of_singleton in H1, H2. congruence.
  - intros i _. apply NoDup_bind; [| |apply NoDup_seqZ].
    + intros j1 j2 p _ _ H1 H2. apply list_elem_of_singleton in H1, H2. congruence.
    + intros j _. apply NoDup_singleton.
Qed.

Lemma size_setPiece b x y p : size (setPiece b x y p) = size b.
Proof. unfold setPiece. destruct (isValidBounds b x y); reflexivity. Qed.

Lemma isValidBounds_setPiece b x y p x' y' :
  isValidBounds (setPiece b x y p) x' y' = isValidBounds b x' y'.
Proof. unfold isValidBounds. rewrite size_setPiece. reflexivity. Qed.

Lemma wf_board_spec b :
  wf_board b <->
  0 <= size b < 2 ^ 31 /\ Z.of_nat (length (grid b)) = size b /\
  forall row, row ∈ grid b -> Z.of_nat (length row) = size b.
Proof.
  unfold wf_board, wf_boardb.
  rewrite !andb_true_iff, Z.leb_le, Z.ltb_lt, Z.eqb_eq, forallb_forall.
  setoid_rewrite <- list_elem_of_In. setoid_rewrite Z.eqb_eq. tauto.
Qed.

Lemma wf_grid_at b x y :
  wf_board b -> isValidBounds b x y = true -> is_Some (grid_at b x y).
Proof.
  intros (Hs & Hl & Hrows)%wf_board_spec (Hx & Hy)%isValidBounds_spec.
  unfold grid_at. destruct (lookup_lt_is_Some_2 (grid b) (Z.to_nat x)) as [row Hrow]; [lia|].
  rewrite Hrow. apply lookup_lt_is_Some_2.
  specialize (Hrows row (list_elem_of_lookup_2 _ _ _ Hrow)). lia.
Qed.

(** Placing a stone changes no other cell. *)
Lemma getPiece_setPiece_ne b x y p x' y' :
  (x', y') <> (x, y) -> getPiece (setPiece b x y p) x' y' = getPiece b x' y'.
Proof.
  intros Hne. unfold getPiece. rewrite isValidBounds_setPiece.
  destruct (isValidBounds b x' y') eqn:Hb'; [|reflexivity].
  unfold setPiece. destruct (isValidBounds b x y) eqn:Hb; [|reflexivity].
  apply isValidBounds_spec in Hb, Hb'. unfold grid_at. simpl.
  destruct (decide (x' = x)) as [->|Hx].
  - rewrite list_lookup_alter_eq. destruct (grid b !! Z.to_nat x) as [row|]; simpl; [|reflexivity].
    rewrite list_lookup_insert_ne; [reflexivity|]. intros E. apply Hne. f_equal. lia.
  - rewrite list_lookup_alter_ne by lia. reflexivity.
Qed.

(** On a well-formed board, a stone placed on the board is read back. *)
Lemma getPiece_setPiece_eq b x y p :
  wf_board b -> isValidBounds b x y = true -> getPiece (setPiece b x y p) x y = p.
Proof.
  intros Hwf Hb. unfold getPiece. rewrite isValidBounds_setPiece, Hb.
  destruct (wf_grid_at b x y Hwf Hb) as [c Hc]. revert Hc.
  unfold setPiece. rewrite Hb. unfold grid_at. simpl. rewrite list_lookup_alter_eq.
  destruct (grid b !! Z.to_nat x) as [row|]; simpl; [|discriminate].
  intros Hc. rewrite list_lookup_insert_eq; [reflexivity|]. eapply lookup_lt_Some; eassumption.
Qed.

Lemma wf_setPiece b x y p : wf_board b -> wf_board (setPiece b x y p).
Proof.
  intros Hwf. unfold setPiece. destruct (isValidBounds b x y); [|assumption].
  apply wf_board_spec in Hwf as (Hs & Hl & Hrows). apply wf_board_spec. simpl.
  rewrite length_alter. split; [assumption|]. split; [assumption|].
  intros row (i & Hi)%list_elem_of_lookup_1. rewrite list_lookup_alter in Hi.
  case_decide.
  - subst i. destruct (grid b !! Z.to_nat x) as [row'|] eqn:E; [|discriminate].
    simpl in Hi. injection Hi as <-. rewrite length_insert.
    apply Hrows. eapply list_elem_of_lookup_2; eassumption.
  - apply Hrows. eapply list_elem_of_lookup_2; eassumption.
Qed.

(** Placing a stone on an empty cell and emptying the cell again gives the
    board back, whatever its shape. *)
Lemma setPiece_undo b x y p :
  getPiece b x y = EMPTY -> setPiece (setPiece b x y p) x y EMPTY = b.
Proof.
  intros He. unfold setPiece at 1. rewrite isValidBounds_setPiece.
  destruct (isValidBounds b x y) eqn:Hb; [|unfold setPiece; rewrite Hb; reflexivity].
  unfold getPiece in He. rewrite Hb in He. unfold grid_at in He.
  unfold setPiece. rewrite Hb. simpl. destruct b as [s g]. simpl in *. f_equal.
  apply list_eq. intros i. destruct (decide (i = Z.to_nat x)) as [->|Hi].
  2:{ rewrite !list_lookup_alter_ne by congruence. reflexivity. }
  rewrite !list_lookup_alter_eq.
  destruct (g !! Z.to_nat x) as [row|]; simpl; [|reflexivity]. f_equal.
  rewrite list_insert_insert_eq. destruct (row !! Z.to_nat y) as [c|] eqn:Hc; simpl in He.
  - subst c. apply list_insert_id. assumption.
  - apply list_insert_ge. apply lookup_ge_None. assumption.
Qed.

(** An invariant that every round of a loop keeps holds at its end, and the
    loop returns. *)
Lemma for_each_inv {S A : Type} (body : A -> S -> option S) (I : S -> Prop) (l : list A) :
  (forall a s, a ∈ l -> I s -> exists s', body a s = Some s' /\ I s') ->
  forall s, I s -> exists s', for_each body l s = Some s' /\ I s'.
Proof.
  induction l as [|a l IH]; intros Hbody s Hs; simpl.
  - eauto.
  - destruct (Hbody a s ltac:(left) Hs) as (s1 & E1 & Hs1). rewrite E1.
    apply IH; [|exact Hs1]. intros a' s' Ha'. apply Hbody. right. exact Ha'.
Qed.

Lemma getOpponent_stone p : getOpponent p <> EMPTY.
Proof. unfold getOpponent. destruct (decide (p = BLACK)); discriminate. Qed.

Lemma getOpponent_ne p : p <> EMPTY -> getOpponent p <> p.
Proof. unfold getOpponent. destruct p; simpl; congruence. Qed.

End BoardFacts.

(** ** Territory-Capture: groups, liberties, legality and capture *)

Section GoFacts.
Import Go.

Lemma elem_of_cellset b p : p ∈ cellset b <-> isValidBounds b p.1 p.2 = true.
Proof. unfold cellset. rewrite elem_of_list_to_set. apply elem_of_cells. Qed.

Lemma fold_diff_elem (l : list Point) (v : gset Point) p :
  p ∈ fold_left (fun v p => v ∖ {[ p ]}) l v <-> p ∈ v /\ p ∉ l.
Proof.
  revert v. induction l as [|a l IH]; intros v; simpl.
  - set_solver.
  - rewrite IH. set_solver.
Qed.

Lemma elem_of_reset_visited b v p :
  p ∈ reset_visited b v <-> p ∈ v /\ isValidBounds b p.1 p.2 = false.
Proof.
  unfold reset_visited. rewrite fold_diff_elem, elem_of_cells.
  destruct (isValidBounds b p.1 p.2); intuition congruence.
Qed.

Lemma unmarked_mono (b : Board) (V V' : gset Point) : V ⊆ V' -> (unmarked b V' <= unmarked b V)%nat.
Proof. intros H. apply subseteq_size. set_solver. Qed.

Lemma unmarked_mark (b : Board) (V : gset Point) p :
  isValidBounds b p.1 p.2 = true -> p ∉ V ->
  (unmarked b ({[ p ]} ∪ V) < unmarked b V)%nat.
Proof.
  intros Hb Hp. apply subset_size. apply elem_of_cellset in Hb. set_solver.
Qed.

(** The fuel of [getLiberties] exceeds the number of unmarked cells. *)
Lemma unmarked_le_fuel (b : Board) (V : gset Point) : (unmarked b V < dfs_fuel b)%nat.
Proof.
  unfold unmarked, dfs_fuel. apply Nat.lt_succ_r.
  etransitivity; [apply (subseteq_size _ (cellset b)); set_solver|].
  etransitivity; [|apply length_cells]. unfold cellset.
  rewrite size_list_to_set by apply NoDup_cells. reflexivity.
Qed.

Lemma connected_stone_l b c p q : connected b c p q -> stone b c p.
Proof. induction 1; assumption. Qed.

Lemma connected_stone_r b c p q : connected b c p q -> stone b c q.
Proof. destruct 1; assumption. Qed.

Lemma connected_trans b c p q r :
  connected b c p q -> connected b c q r -> connected b c p r.
Proof. intros Hpq Hqr. induction Hqr; [assumption|]. eapply conn_step; eassumption. Qed.

(** The neighbour table of the program lists the orthogonally adjacent
    cells, all of them and no other. *)
Lemma adj_dirs4 p q : adj p q <-> exists d, d ∈ dirs4 /\ q = (p.1 + d.1, p.2 + d.2).
Proof.
  destruct p as [px py], q as [qx qy]. unfold adj. simpl. split.
  - intros H. exists (qx - px, qy - py). split.
    + assert (Hc : (qx - px = 0 /\ qy - py = 1) \/ (qx - px = 0 /\ qy - py = -1) \/
                   (qx - px = 1 /\ qy - py = 0) \/ (qx - px = -1 /\ qy - py = 0)) by lia.
      unfold dirs4. destruct Hc as [[-> ->]|[[-> ->]|[[-> ->]|[-> ->]]]]; set_solver.
    + simpl. f_equal; lia.
  - intros (d & Hd & E). injection E as -> ->. unfold dirs4 in Hd.
    repeat (apply elem_of_cons in Hd as [->|Hd]; [simpl; lia|]). inversion Hd.
Qed.

Lemma adj_dir p d : d ∈ dirs4 -> adj p (p.1 + d.1, p.2 + d.2).
Proof. intros Hd. apply adj_dirs4. exists d. auto. Qed.

Lemma captures_dirs4 b x y opponent :
  captures b x y opponent <->
  exists d, d ∈ dirs4 /\ stone b opponent (x + d.1, y + d.2) /\
            no_liberty b opponent (x + d.1, y + d.2).
Proof.
  unfold captures. split.
  - intros (n & (d & Hd & ->)%adj_dirs4 & H). exists d. auto.
  - intros (d & Hd & H). exists (x + d.1, y + d.2). split; [|exact H].
    apply (adj_dir (x, y)). exact Hd.
Qed.

Lemma captured_dirs4 b x y opponent q :
  captured b x y opponent q <-> captured_in b x y opponent dirs4 q.
Proof.
  unfold captured, captured_in, captured_via. split.
  - intros (n & (d & Hd & ->)%adj_dirs4 & H). exists d. auto.
  - intros (d & Hd & H). exists (x + d.1, y + d.2). split; [|exact H].
    apply (adj_dir (x, y)). exact Hd.
Qed.

Lemma reach_lift b c p d q :
  stone b c p -> d ∈ dirs4 -> reach b c (p.1 + d.1, p.2 + d.2) q -> reach b c p q.
Proof.
  intros Hp Hd [->|(s & Hs & Ha)]; right.
  - exists p. split; [apply conn_refl; assumption|]. apply adj_dir. exact Hd.
  - exists s. split; [|assumption].
    eapply connected_trans; [|exact Hs].
    eapply conn_step; [apply conn_refl; assumption| |eapply connected_stone_l; exact Hs].
    apply adj_dir. exact Hd.
Qed.

(** The postcondition of a discovery that marks no cell. *)
Ltac nothing_new :=
  split; simpl; try (intros ? H; inversion H); try constructor;
  first [set_solver | lia | (rewrite app_nil_r; reflexivity)].

Section Discovery.
Variable b : Board.
Variable c : PieceType.

(** The loop over the four neighbours of a stone of the group, given the
    specification of the recursive calls. *)
Lemma sum_dirs_ok fuel x y :
  dfs_ok b c fuel -> stone b c (x, y) ->
  forall ds, ds ⊆ dirs4 ->
  forall acc (V : gset Point) G, (unmarked b V < fuel)%nat ->
    exists n V' G' new,
      sum_dirs (fun d s => countLibertiesDFS fuel b (x + d.1) (y + d.2) c s) ds acc (V, G)
        = Some (n, (V', G')) /\
      dfs_post b c (x, y) V G acc n V' G' new /\
      (forall d, d ∈ ds -> isValidBounds b (x + d.1) (y + d.2) = true ->
                 (x + d.1, y + d.2) ∈ V').
Proof.
  intros IH Hst. induction ds as [|d ds IHds]; intros Hsub acc V G Hfuel; simpl.
  - exists acc, V, G, []. split; [reflexivity|]. split; [nothing_new|].
    intros ? H. inversion H.
  - destruct (IH (x + d.1) (y + d.2) V G Hfuel) as (n1 & V1 & G1 & new1 & E1 & P1 & R1).
    rewrite E1.
    assert (HV1 : V ⊆ V1) by (rewrite (post_vis _ _ _ _ _ _ _ _ _ _ P1); set_solver).
    destruct (IHds ltac:(set_solver) (acc + n1) V1 G1) as (n2 & V2 & G2 & new2 & E2 & P2 & R2).
    { eapply Nat.le_lt_trans; [apply unmarked_mono; exact HV1|exact Hfuel]. }
    exists n2, V2, G2, (new1 ++ new2). split; [exact E2|].
    destruct P1 as [nd1 fr1 vis1 cnt1 grp1 cl1 sd1].
    destruct P2 as [nd2 fr2 vis2 cnt2 grp2 cl2 sd2].
    split; [split|].
    + apply NoDup_app. split; [assumption|]. split; [|assumption].
      intros p Hp1 Hp2. apply fr2 in Hp2 as [Hp2 _]. apply Hp2. subst V1. set_solver.
    + intros p [Hp|Hp]%elem_of_app; [apply fr1; assumption|].
      apply fr2 in Hp as [Hp Hb]. split; [|assumption]. set_solver.
    + subst V2 V1. rewrite list_to_set_app_L. set_solver.
    + rewrite filter_app, length_app. lia.
    + subst G2 G1. rewrite filter_app, app_assoc. reflexivity.
    + intros q [Hq|Hq]%elem_of_app Hc r Hadj Hr.
      * assert (r ∈ V1) by (eapply cl1; eassumption). subst V2. set_solver.
      * eapply cl2; eassumption.
    + intros p [Hp|Hp]%elem_of_app; [|apply sd2; assumption].
      eapply (reach_lift b c (x, y) d); [assumption|set_solver|]. apply sd1. assumption.
    + intros d' [->|Hd']%elem_of_cons Hb.
      * subst V2. specialize (R1 Hb). set_solver.
      * apply R2; assumption.
Qed.

(** Total correctness of the traversal, by induction on the fuel. *)
Lemma countLibertiesDFS_ok fuel : dfs_ok b c fuel.
Proof.
  induction fuel as [|fuel IH]; intros x y V G Hfuel; [lia|].
  simpl. destruct (isValidBounds b x y) eqn:Hb; simpl.
  2:{ exists 0, V, G, []. split; [reflexivity|]. split; [nothing_new|discriminate]. }
  case_bool_decide as Hvis.
  { exists 0, V, G, []. split; [reflexivity|]. split; [nothing_new|intros _; exact Hvis]. }
  assert (Hmark : (unmarked b ({[ (x, y) ]} ∪ V) < fuel)%nat).
  { pose proof (unmarked_mark b V (x, y) Hb Hvis). lia. }
  destruct (decide (getPiece b x y = EMPTY)) as [He|He].
  { exists 1, ({[ (x, y) ]} ∪ V), G, [(x, y)]. split; [reflexivity|]. split; [|set_solver].
    split; simpl.
    - apply NoDup_singleton.
    - intros p ->%list_elem_of_singleton. auto.
    - set_solver.
    - rewrite filter_cons_True by exact He. reflexivity.
    - rewrite filter_cons_False by (unfold holds; simpl; intros [? ?]; congruence).
      rewrite app_nil_r. reflexivity.
    - intros q ->%list_elem_of_singleton [? ?]. simpl in *. congruence.
    - intros p ->%list_elem_of_singleton. left. reflexivity. }
  destruct (decide (getPiece b x y <> c)) as [Hc|Hc].
  { exists 0, ({[ (x, y) ]} ∪ V), G, [(x, y)]. split; [reflexivity|]. split; [|set_solver].
    split; simpl.
    - apply NoDup_singleton.
    - intros p ->%list_elem_of_singleton. auto.
    - set_solver.
    - rewrite filter_cons_False by exact He. reflexivity.
    - rewrite filter_cons_False by (unfold holds; simpl; tauto).
      rewrite app_nil_r. reflexivity.
    - intros q ->%list_elem_of_singleton [? ?]. simpl in *. congruence.
    - intros p ->%list_elem_of_singleton. left. reflexivity. }
  assert (Hc' : getPiece b x y = c) by (destruct (decide (getPiece b x y = c)); tauto).
  destruct (sum_dirs_ok fuel x y IH (conj Hb Hc') dirs4 ltac:(set_solver) 0
                        ({[ (x, y) ]} ∪ V) (G ++ [(x, y)]) Hmark)
    as (n & V' & G' & new & E & [nd fr vis cnt grp cl sd] & R).
  exists n, V', G', ((x, y) :: new). split; [exact E|]. split; [|subst V'; set_solver].
  split.
  - constructor; [|assumption]. intros Hin. apply fr in Hin as [Hin _]. set_solver.
  - intros p [->|Hp]%elem_of_cons; [auto|]. apply fr in Hp as [Hp Hpb]. split; [set_solver|assumption].
  - subst V'. simpl. set_solver.
  - rewrite filter_cons_False by exact He. exact cnt.
  - rewrite filter_cons_True by (split; simpl; congruence). rewrite grp, <- app_assoc. reflexivity.
  - intros q [->|Hq]%elem_of_cons Hqc r Hadj Hr; [|eapply cl; eassumption].
    apply adj_dirs4 in Hadj as (d & Hd & ->). apply R; assumption.
  - intros p [->|Hp]%elem_of_cons; [left; reflexivity|apply sd; assumption].
Qed.
End Discovery.

(** A discovery always returns, and it leaves the board alone. *)
Lemma getLiberties_total r x y c G :
  exists n G' r', getLiberties r x y c G = Some (n, G', r') /\ board r' = board r.
Proof.
  unfold getLiberties.
  destruct (countLibertiesDFS_ok (board r) c (dfs_fuel (board r)) x y
              (reset_visited (board r) (visited r)) G (unmarked_le_fuel _ _))
    as (n & V' & G' & new & E & _ & _).
  rewrite E. exists n, G', (mkGoRule (board r) V'). split; reflexivity.
Qed.

Lemma liberties_of_length b c seed L L' :
  liberties_of b c seed L -> liberties_of b c seed L' -> length L = length L'.
Proof.
  intros [N1 H1] [N2 H2]. apply Permutation_length. apply NoDup_Permutation; try assumption.
  intros l. rewrite H1, H2. reflexivity.
Qed.

Lemma group_of_perm b c seed G G' :
  group_of b c seed G -> group_of b c seed G' -> G ≡ₚ G'.
Proof.
  intros [N1 H1] [N2 H2]. apply NoDup_Permutation; try assumption.
  intros l. rewrite H1, H2. reflexivity.
Qed.

(** From a seed stone the discovery returns exactly the group of the seed,
    each stone once, and the number of its distinct liberties. *)
Lemma getLiberties_correct r x y c G0 :
  stone (board r) c (x, y) -> c <> EMPTY ->
  exists n G L r',
    getLiberties r x y c G0 = Some (n, G0 ++ G, r') /\ board r' = board r /\
    group_of (board r) c (x, y) G /\ liberties_of (board r) c (x, y) L /\
    n = Z.of_nat (length L).
Proof.
  intros Hseed Hc. unfold getLiberties. set (b := board r).
  destruct (countLibertiesDFS_ok b c (dfs_fuel b) x y
              (reset_visited b (visited r)) G0 (unmarked_le_fuel _ _))
    as (n & V' & G' & new & E & [nd fr vis cnt grp cl sd] & R).
  rewrite E.
  exists n, (filter (holds b c) new), (filter (fun p => getPiece b p.1 p.2 = EMPTY) new),
         (mkGoRule b V').
  assert (Hnew : forall p, isValidBounds b p.1 p.2 = true -> p ∈ V' -> p ∈ new).
  { intros p Hb Hp. subst V'. apply elem_of_union in Hp as [Hp|Hp].
    - apply elem_of_list_to_set in Hp. exact Hp.
    - apply elem_of_reset_visited in Hp as [_ Hp]. congruence. }
  assert (Hgroup : forall q, q ∈ filter (holds b c) new <-> connected b c (x, y) q).
  { intros q. rewrite list_elem_of_filter. split.
    - intros [[Hq _] Hin]. destruct (sd q Hin) as [->|(s & Hs & Ha)].
      + apply conn_refl. exact Hseed.
      + eapply conn_step; [exact Hs|exact Ha|]. split; [apply fr; exact Hin|exact Hq].
    - induction 1 as [Hs|q t Hq IH Ha Hr].
      + split; [split; [apply Hs|exact Hc]|]. apply Hnew; [apply Hs|]. apply R, Hs.
      + destruct IH as [Hh Hin]. split; [split; [apply Hr|exact Hc]|].
        apply Hnew; [apply Hr|]. eapply cl; [exact Hin|exact Hh|exact Ha|apply Hr]. }
  split; [subst G'; reflexivity|]. split; [reflexivity|].
  split; [split; [apply NoDup_filter; exact nd|exact Hgroup]|].
  split; [|rewrite cnt; lia].
  split; [apply NoDup_filter; exact nd|].
  intros l. rewrite list_elem_of_filter. split.
  - intros [He Hin]. split; [split; [apply fr; exact Hin|exact He]|].
    destruct (sd l Hin) as [->|(s & Hs & Ha)]; [|eauto].
    destruct Hseed as [_ Hseed]. unfold b in *. simpl in *. congruence.
  - intros [[Hb He] (q & Hq & Ha)]. split; [exact He|].
    apply Hgroup in Hq. apply list_elem_of_filter in Hq as [Hh Hin].
    apply Hnew; [exact Hb|]. eapply cl; eassumption.
Qed.

Lemma sum_dirs_agree (b : Board) (f : Z * Z -> DfsState -> option (Z * DfsState)) :
  (forall d V1 V2 G, agree b V1 V2 -> same_discovery b (f d (V1, G)) (f d (V2, G))) ->
  forall ds acc V1 V2 G, agree b V1 V2 ->
    same_discovery b (sum_dirs f ds acc (V1, G)) (sum_dirs f ds acc (V2, G)).
Proof.
  intros Hf. induction ds as [|d ds IH]; intros acc V1 V2 G Hag; simpl.
  - auto.
  - specialize (Hf d V1 V2 G Hag). unfold same_discovery in Hf.
    destruct (f d (V1, G)) as [[n1 [V1' G1]]|], (f d (V2, G)) as [[n2 [V2' G2]]|];
      try contradiction; [|exact I].
    destruct Hf as (-> & -> & Hag'). apply IH. exact Hag'.
Qed.

Lemma countLibertiesDFS_agree (b : Board) c fuel : forall x y V1 V2 G,
  agree b V1 V2 ->
  same_discovery b (countLibertiesDFS fuel b x y c (V1, G))
                   (countLibertiesDFS fuel b x y c (V2, G)).
Proof.
  induction fuel as [|fuel IH]; intros x y V1 V2 G Hag; [exact I|].
  cbn [countLibertiesDFS fst snd].
  destruct (isValidBounds b x y) eqn:Hb; cbn [negb]; [|simpl; auto].
  assert (Hmark : agree b ({[(x, y)]} ∪ V1) ({[(x, y)]} ∪ V2)).
  { intros p Hp. specialize (Hag p Hp). set_solver. }
  pose proof (Hag (x, y) Hb) as Hxy.
  destruct (bool_decide ((x, y) ∈ V1)) eqn:E1, (bool_decide ((x, y) ∈ V2)) eqn:E2;
    try (apply bool_decide_eq_true in E1); try (apply bool_decide_eq_true in E2);
    try (apply bool_decide_eq_false in E1); try (apply bool_decide_eq_false in E2);
    try tauto; [simpl; auto|].
  destruct (decide (getPiece b x y = EMPTY)); [simpl; auto|].
  destruct (decide (getPiece b x y <> c)); [simpl; auto|].
  apply sum_dirs_agree; [|exact Hmark].
  intros d W1 W2 G' HW. apply IH. exact HW.
Qed.

(** The marks left in [visited] by earlier calls have no effect on a
    discovery: tally and group are the same whatever the array held. *)
Lemma getLiberties_ignores_stale_marks (b : Board) (V1 V2 : gset Point) x y c G :
  (fun r => r.1) <$> getLiberties (mkGoRule b V1) x y c G
  = (fun r => r.1) <$> getLiberties (mkGoRule b V2) x y c G.
Proof.
  unfold getLiberties. cbn [board visited].
  assert (Hag : agree b (reset_visited b V1) (reset_visited b V2)).
  { intros p Hp. rewrite !elem_of_reset_visited. split; intros [_ H]; congruence. }
  pose proof (countLibertiesDFS_agree b c (dfs_fuel b) x y _ _ G Hag) as H.
  unfold same_discovery in H.
  destruct (countLibertiesDFS (dfs_fuel b) b x y c (reset_visited b V1, G)) as [[n1 [W1 G1]]|],
           (countLibertiesDFS (dfs_fuel b) b x y c (reset_visited b V2, G)) as [[n2 [W2 G2]]|];
    try contradiction; [|reflexivity].
  destruct H as (-> & -> & _). reflexivity.
Qed.

(** A zero tally means a group without liberty. *)
Lemma getLiberties_zero r x y c G0 :
  stone (board r) c (x, y) -> c <> EMPTY ->
  exists n G r',
    getLiberties r x y c G0 = Some (n, G0 ++ G, r') /\ board r' = board r /\
    group_of (board r) c (x, y) G /\
    (n = 0 <-> no_liberty (board r) c (x, y)).
Proof.
  intros Hs Hc.
  destruct (getLiberties_correct r x y c G0 Hs Hc) as (n & G & L & r' & E & Hb & HG & [HN HL] & Hn).
  exists n, G, r'. split; [exact E|]. split; [exact Hb|]. split; [exact HG|]. split.
  - intros H0 l Hl. apply HL in Hl. destruct L; [inversion Hl|simpl in Hn; lia].
  - intros Hno. destruct L as [|l L]; [simpl in Hn; lia|].
    exfalso. apply (Hno l). apply HL. left.
Qed.

(** The capture loop of [isValidMove] leaves the board alone and sets the
    flag exactly when some direction captures. *)
Lemma captures_loop x y opp ds :
  opp <> EMPTY -> forall cap r,
  exists cap' r',
    for_each (captures_step x y opp) ds (cap, r) = Some (cap', r') /\
    board r' = board r /\
    (cap' = true <->
     cap = true \/
     exists d, d ∈ ds /\ stone (board r) opp (x + d.1, y + d.2) /\
               no_liberty (board r) opp (x + d.1, y + d.2)).
Proof.
  intros Hopp. induction ds as [|d ds IH]; intros cap r; simpl.
  - exists cap, r. split; [reflexivity|]. split; [reflexivity|]. split; [auto|].
    intros [H|(d & Hd & _)]; [assumption|inversion Hd].
  - destruct (isValidBounds (board r) (x + d.1) (y + d.2)) eqn:Hb; simpl.
    2:{ destruct (IH cap r) as (cap' & r' & E & Hbr & Hiff). exists cap', r'.
        split; [exact E|]. split; [exact Hbr|]. rewrite Hiff. split.
        - intros [H|(d' & Hd' & H)]; [auto|]. right. exists d'. split; [right; exact Hd'|exact H].
        - intros [H|(d' & [->|Hd']%elem_of_cons & H1 & H3)]; [auto| |right; eauto].
          destruct H1 as [H1 _]. simpl in H1. congruence. }
    case_bool_decide as Hp; simpl.
    2:{ destruct (IH cap r) as (cap' & r' & E & Hbr & Hiff). exists cap', r'.
        split; [exact E|]. split; [exact Hbr|]. rewrite Hiff. split.
        - intros [H|(d' & Hd' & H)]; [auto|]. right. exists d'. split; [right; exact Hd'|exact H].
        - intros [H|(d' & [->|Hd']%elem_of_cons & H1 & H3)]; [auto| |right; eauto].
          destruct H1 as [_ H2]. simpl in H2. congruence. }
    destruct (getLiberties_zero r (x + d.1) (y + d.2) opp [] (conj Hb Hp) Hopp)
      as (n & G & r1 & E1 & Hb1 & _ & Hn).
    rewrite E1.
    destruct (IH (if decide (n = 0) then true else cap) r1) as (cap' & r' & E & Hbr & Hiff).
    exists cap', r'. split; [exact E|]. split; [congruence|]. rewrite Hiff, Hb1. split.
    + intros [H|(d' & Hd' & H)].
      * destruct (decide (n = 0)) as [H0|H0]; [|auto]. right. exists d.
        split; [left|]. split; [split; assumption|]. apply Hn. exact H0.
      * right. exists d'. split; [right; exact Hd'|exact H].
    + intros [H|(d' & [->|Hd']%elem_of_cons & H1 & H3)].
      * left. destruct (decide (n = 0)); auto.
      * left. rewrite decide_True; [reflexivity|]. apply Hn. exact H3.
      * right. eauto.
Qed.

(** C1.  Whatever the board, the coordinate and the color, the legality
    check of Territory-Capture returns, and the board it leaves is the board
    it was given: the speculative stone is always taken back, whether the
    move is found legal or not. *)
Theorem isValidMove_restores_board (r : GoRule) (x y : Z) (player : PieceType) :
  exists legal r', Go.isValidMove r x y player = Some (legal, r') /\ board r' = board r.
Proof.
  unfold isValidMove.
  destruct (isValidBounds (board r) x y) eqn:Hb; cbn [negb orb]; [|eauto].
  case_bool_decide as He; cbn [negb]; [|eauto].
  destruct (captures_loop x y (getOpponent player) dirs4 (getOpponent_stone player) false
              (with_board r (setPiece (board r) x y player)))
    as (cap & r2 & E & Hb2 & _).
  rewrite E. simpl in Hb2. destruct cap; cbn [negb].
  - eexists _, _. split; [reflexivity|]. simpl. rewrite Hb2. apply setPiece_undo. exact He.
  - destruct (getLiberties_total r2 x y player []) as (n & G & r3 & E3 & Hb3).
    rewrite E3. eexists _, _. split; [reflexivity|]. simpl. rewrite Hb3, Hb2.
    apply setPiece_undo. exact He.
Qed.

(** C2.  On an empty cell of the board, the move is legal whenever the stone,
    once placed, leaves an adjacent opponent group without liberty (whatever
    the liberties of the mover), and it is illegal exactly when there is no
    such capture and the group of the placed stone has no liberty. *)
Theorem isValidMove_capture_or_suicide (r : GoRule) (x y : Z) (player : PieceType) :
  wf_board (board r) -> player <> EMPTY ->
  isValidBounds (board r) x y = true -> getPiece (board r) x y = EMPTY ->
  let placed := setPiece (board r) x y player in
  let opponent := getOpponent player in
  exists legal r',
    Go.isValidMove r x y player = Some (legal, r') /\
    (captures placed x y opponent -> legal = true) /\
    (legal = false <-> ~ captures placed x y opponent /\ no_liberty placed player (x, y)).
Proof.
  intros Hwf Hpl Hb He placed opponent. unfold isValidMove. rewrite Hb.
  rewrite bool_decide_eq_true_2 by exact He. cbn [negb orb].
  destruct (captures_loop x y opponent dirs4 (getOpponent_stone player) false
              (with_board r placed))
    as (cap & r2 & E & Hb2 & Hcap).
  fold placed opponent. rewrite E. simpl in Hb2, Hcap.
  assert (Hcap' : cap = true <-> captures placed x y opponent).
  { rewrite Hcap, captures_dirs4. split; [intros [?|?]; [discriminate|assumption]|auto]. }
  destruct cap; cbn [negb].
  - eexists _, _. split; [reflexivity|]. split; [reflexivity|].
    split; [discriminate|]. intros [Hn _]. exfalso. apply Hn, Hcap'. reflexivity.
  - assert (Hself : stone (board r2) player (x, y)).
    { rewrite Hb2. split; simpl; [unfold placed; rewrite isValidBounds_setPiece; exact Hb|].
      apply getPiece_setPiece_eq; assumption. }
    destruct (getLiberties_zero r2 x y player [] Hself Hpl) as (n & G & r3 & E3 & Hb3 & _ & Hn).
    rewrite E3. eexists _, _. split; [reflexivity|]. rewrite Hb2 in Hn.
    split; [intros Hc; apply Hcap' in Hc; discriminate|].
    rewrite negb_false_iff, bool_decide_eq_true, Hn. split.
    + intros H. split; [|exact H]. intros Hc. apply Hcap' in Hc. discriminate.
    + intros [_ H]. exact H.
Qed.

Lemma adj_sym p q : adj p q -> adj q p.
Proof. unfold adj. lia. Qed.

Lemma connected_sym b c p q : connected b c p q -> connected b c q p.
Proof.
  induction 1 as [Hs|q r Hpq IH Ha Hr]; [apply conn_refl; assumption|].
  eapply connected_trans; [|exact IH].
  eapply conn_step; [apply conn_refl; exact Hr|apply adj_sym; exact Ha|].
  eapply connected_stone_r; exact Hpq.
Qed.

(** Emptying the cells of a group empties them and no other. *)
Lemma getPiece_clear_group (G : list Point) : forall b q,
  wf_board b -> (forall p, p ∈ G -> isValidBounds b p.1 p.2 = true) ->
  size (clear_group G b) = size b /\ wf_board (clear_group G b) /\
  getPiece (clear_group G b) q.1 q.2 = if decide (q ∈ G) then EMPTY else getPiece b q.1 q.2.
Proof.
  unfold clear_group. induction G as [|p G IH]; intros b q Hwf HG; simpl.
  - split; [reflexivity|]. split; [assumption|]. destruct (decide (q ∈ [])) as [H|_]; [inversion H|reflexivity].
  - destruct (IH (setPiece b p.1 p.2 EMPTY) q) as (Hs & Hwf' & Hq).
    + apply wf_setPiece; assumption.
    + intros p' Hp'. rewrite isValidBounds_setPiece. apply HG. right. assumption.
    + split; [rewrite Hs; apply size_setPiece|]. split; [assumption|]. rewrite Hq.
      destruct (decide (q ∈ G)) as [Hin|Hin].
      * rewrite decide_True; [reflexivity|right; assumption].
      * destruct (decide (q = p)) as [->|Hne].
        -- rewrite decide_True by left. apply getPiece_setPiece_eq; [assumption|]. apply HG. left.
        -- rewrite decide_False by (intros [?|?]%elem_of_cons; contradiction).
           apply getPiece_setPiece_ne. destruct p, q; simpl. congruence.
Qed.

Section Removal.
Variable b0 : Board.
Variables x y : Z.
Variable opp : PieceType.
Hypothesis opp_stone : opp <> EMPTY.

Lemma captured_in_mono done done' q :
  done ⊆ done' -> captured_in b0 x y opp done q -> captured_in b0 x y opp done' q.
Proof. intros Hsub (d & Hd & H). exists d. split; [apply Hsub; exact Hd|exact H]. Qed.

Lemma captured_in_conn done p q :
  captured_in b0 x y opp done p -> connected b0 opp p q -> captured_in b0 x y opp done q.
Proof.
  intros (d & Hd & Hno & Hc) Hpq. exists d. split; [exact Hd|]. split; [exact Hno|].
  eapply connected_trans; eassumption.
Qed.

Section Step.
Variable done : list (Z * Z).
Variable b : Board.
Hypothesis Hinv : removal_inv b0 x y opp done b.

Lemma inv_bounds p1 p2 : isValidBounds b p1 p2 = isValidBounds b0 p1 p2.
Proof. destruct Hinv as (Hs & _). unfold isValidBounds. rewrite Hs. reflexivity. Qed.

Lemma inv_stone p : stone b opp p -> stone b0 opp p.
Proof.
  intros [Hb Hp]. split; [rewrite <- inv_bounds; assumption|].
  destruct Hinv as (_ & _ & _ & Hc). destruct (Hc p) as [E|[E _]]; congruence.
Qed.

Lemma inv_connected p q : connected b opp p q -> connected b0 opp p q.
Proof.
  induction 1 as [Hs|q r Hpq IH Ha Hr].
  - apply conn_refl, inv_stone, Hs.
  - eapply conn_step; [exact IH|exact Ha|apply inv_stone, Hr].
Qed.

(** A group of [b0] one of whose stones is still on [b] is intact on [b]. *)
Lemma inv_intact p q : stone b opp p -> connected b0 opp p q -> stone b opp q.
Proof.
  intros Hp Hpq. pose proof (connected_stone_r _ _ _ _ Hpq) as [Hqb Hq].
  split; [rewrite inv_bounds; assumption|].
  destruct Hinv as (_ & _ & Hcap & Hc). destruct (Hc q) as [E|[_ Hq']]; [congruence|].
  exfalso. apply connected_sym in Hpq.
  pose proof (Hcap p (captured_in_conn done q p Hq' Hpq)) as E.
  destruct Hp as [_ Hp]. congruence.
Qed.

Lemma inv_connected_rev p q : stone b opp p -> connected b0 opp p q -> connected b opp p q.
Proof.
  intros Hp. induction 1 as [Hs|q r Hpq IH Ha Hr].
  - apply conn_refl, Hp.
  - eapply conn_step; [exact IH|exact Ha|].
    apply (inv_intact p); [exact Hp|]. eapply conn_step; eassumption.
Qed.

Lemma inv_liberty p l : liberty b opp p l -> liberty b0 opp p l.
Proof.
  intros [[Hlb Hl] (q & Hq & Ha)].
  assert (Hq0 : connected b0 opp p q) by (apply inv_connected; exact Hq).
  split; [|eauto]. split; [rewrite <- inv_bounds; assumption|].
  destruct Hinv as (_ & _ & Hcap & Hc). destruct (Hc l) as [E|[_ (d & Hd & Hno & Hl')]]; [congruence|].
  exfalso. assert (Hcq : captured_in b0 x y opp done q).
  { exists d. split; [exact Hd|]. split; [exact Hno|].
    eapply conn_step; [exact Hl'|apply adj_sym; exact Ha|].
    eapply connected_stone_r; exact Hq0. }
  apply Hcap in Hcq. apply connected_stone_r in Hq as [_ Hq]. congruence.
Qed.

Lemma inv_liberty_rev p l : stone b opp p -> liberty b0 opp p l -> liberty b opp p l.
Proof.
  intros Hp [[Hlb Hl] (q & Hq & Ha)]. split.
  - split; [rewrite inv_bounds; assumption|].
    destruct Hinv as (_ & _ & _ & Hc). destruct (Hc l) as [E|[E _]]; congruence.
  - exists q. split; [|exact Ha]. apply inv_connected_rev; assumption.
Qed.
End Step.
End Removal.

(** One round of [removeDeadStones] keeps the invariant. *)
Lemma removeDead_step_inv b0 x y opp done d r :
  opp <> EMPTY -> removal_inv b0 x y opp done (board r) ->
  exists r', removeDead_step x y opp d r = Some r' /\
             removal_inv b0 x y opp (done ++ [d]) (board r').
Proof.
  intros Hopp Hinv. pose proof Hinv as (Hs & Hwf & Hcap & Hc).
  unfold removeDead_step.
  assert (Hkeep : (forall q, captured_via b0 x y opp d q -> getPiece (board r) q.1 q.2 = EMPTY) ->
                  removal_inv b0 x y opp (done ++ [d]) (board r)).
  { intros Hd. split; [exact Hs|]. split; [exact Hwf|]. split.
    - intros q (d' & [Hd'| ->%list_elem_of_singleton]%elem_of_app & Hv).
      + apply Hcap. exists d'. auto.
      + apply Hd, Hv.
    - intros q. destruct (Hc q) as [E|[E Hq]]; [left; exact E|right].
      split; [exact E|]. eapply captured_in_mono; [|exact Hq]. set_solver. }
  destruct (isValidBounds (board r) (x + d.1) (y + d.2) &&
            bool_decide (getPiece (board r) (x + d.1) (y + d.2) = opp)) eqn:Hguard.
  2:{ exists r. split; [reflexivity|]. apply Hkeep. intros q [Hno Hq].
      pose proof (connected_stone_l _ _ _ _ Hq) as [Hnb Hn]. simpl in Hnb, Hn.
      destruct (Hc (x + d.1, y + d.2)) as [E|[_ Hcn]]; simpl in *.
      - rewrite <- (inv_bounds b0 x y opp done (board r) Hinv) in Hnb.
        rewrite Hnb, bool_decide_eq_true_2 in Hguard by congruence. discriminate.
      - apply Hcap. eapply captured_in_conn; eassumption. }
  apply andb_true_iff in Hguard as [Hnb Hn]. apply bool_decide_eq_true in Hn.
  assert (Hst : stone (board r) opp (x + d.1, y + d.2)) by (split; assumption).
  destruct (getLiberties_zero r (x + d.1) (y + d.2) opp [] Hst Hopp)
    as (n & G & r1 & E1 & Hb1 & [HGN HG] & Hn0).
  rewrite E1. simpl. destruct (decide (n = 0)) as [Hz|Hz].
  - eexists. split; [reflexivity|]. simpl. rewrite Hb1.
    assert (HGb : forall p, p ∈ G -> isValidBounds (board r) p.1 p.2 = true).
    { intros p Hp. apply HG in Hp. apply connected_stone_r in Hp. apply Hp. }
    assert (Hno0 : no_liberty b0 opp (x + d.1, y + d.2)).
    { intros l Hl. apply (proj1 Hn0 Hz l).
      eapply inv_liberty_rev; eassumption. }
    assert (HG0 : forall q, q ∈ G <-> connected b0 opp (x + d.1, y + d.2) q).
    { intros q. rewrite HG. split.
      - eapply inv_connected; eassumption.
      - eapply inv_connected_rev; eassumption. }
    fold (clear_group G (board r)).
    split; [|split; [|split]].
    + rewrite <- Hs. apply (getPiece_clear_group G (board r) (0, 0) Hwf HGb).
    + apply (getPiece_clear_group G (board r) (0, 0) Hwf HGb).
    + intros q Hq. destruct (getPiece_clear_group G (board r) q Hwf HGb) as (_ & _ & ->).
      destruct (decide (q ∈ G)) as [Hin|Hin]; [reflexivity|].
      destruct Hq as (d' & [Hd'| ->%list_elem_of_singleton]%elem_of_app & Hv).
      * apply Hcap. exists d'. auto.
      * exfalso. apply Hin, HG0, Hv.
    + intros q. destruct (getPiece_clear_group G (board r) q Hwf HGb) as (_ & _ & ->).
      destruct (decide (q ∈ G)) as [Hin|Hin].
      * right. split; [reflexivity|]. exists d. split; [set_solver|].
        split; [exact Hno0|]. apply HG0, Hin.
      * destruct (Hc q) as [E|[E Hq]]; [left; exact E|right].
        split; [exact E|]. eapply captured_in_mono; [|exact Hq]. set_solver.
  - exists r1. split; [reflexivity|]. rewrite Hb1. apply Hkeep.
    intros q [Hno _]. exfalso. apply Hz, Hn0. intros l Hl. apply (Hno l).
    eapply inv_liberty; eassumption.
Qed.

(** The whole loop keeps the invariant. *)
Lemma removeDead_loop_inv b0 x y opp :
  opp <> EMPTY -> forall ds done r,
  removal_inv b0 x y opp done (board r) ->
  exists r', for_each (removeDead_step x y opp) ds r = Some r' /\
             removal_inv b0 x y opp (done ++ ds) (board r').
Proof.
  intros Hopp. induction ds as [|d ds IH]; intros done r Hinv; simpl.
  - exists r. rewrite app_nil_r. auto.
  - destruct (removeDead_step_inv b0 x y opp done d r Hopp Hinv) as (r1 & E1 & Hinv1).
    rewrite E1. destruct (IH (done ++ [d]) r1 Hinv1) as (r' & E & Hinv').
    exists r'. split; [exact E|]. rewrite <- app_assoc in Hinv'. exact Hinv'.
Qed.

(** C3.  [makeMove] places the stone and empties every cell of every
    opponent group that touches it and has no liberty on the board with the
    stone placed; every other cell is as on that board, and the placed stone
    itself stays, even when only the capture gives it a liberty. *)
Theorem makeMove_captures_groups (r : GoRule) (x y : Z) (player : PieceType) :
  wf_board (board r) -> player <> EMPTY -> isValidBounds (board r) x y = true ->
  let placed := setPiece (board r) x y player in
  let opponent := getOpponent player in
  exists r',
    Go.makeMove r x y player = Some r' /\
    getPiece (board r') x y = player /\
    forall q,
      (captured placed x y opponent q -> getPiece (board r') q.1 q.2 = EMPTY) /\
      (~ captured placed x y opponent q ->
       getPiece (board r') q.1 q.2 = getPiece placed q.1 q.2).
Proof.
  intros Hwf Hpl Hb placed opponent. unfold makeMove.
  assert (Hxy : (x =? -1) && (y =? -1) = false).
  { apply isValidBounds_spec in Hb. apply andb_false_iff. left. apply Z.eqb_neq. lia. }
  rewrite Hxy. unfold removeDeadStones. fold placed opponent.
  assert (Hinv0 : removal_inv placed x y opponent [] (board (with_board r placed))).
  { simpl. split; [reflexivity|]. split; [apply wf_setPiece; exact Hwf|].
    split; [|left; reflexivity]. intros q (d & Hd & _). inversion Hd. }
  destruct (removeDead_loop_inv placed x y opponent (getOpponent_stone player) dirs4 []
              (with_board r placed) Hinv0) as (r' & E & (Hs & Hwf' & Hcap & Hc)).
  exists r'. split; [exact E|]. simpl in Hcap, Hc.
  assert (Hq : forall q,
    (captured placed x y opponent q -> getPiece (board r') q.1 q.2 = EMPTY) /\
    (~ captured placed x y opponent q -> getPiece (board r') q.1 q.2 = getPiece placed q.1 q.2)).
  { intros q. rewrite captured_dirs4. split; [apply Hcap|]. intros Hn.
    destruct (Hc q) as [E'|[_ Hq]]; tauto. }
  split; [|exact Hq].
  assert (Hme : getPiece placed x y = player) by (apply getPiece_setPiece_eq; assumption).
  transitivity (getPiece placed x y); [|exact Hme]. apply (Hq (x, y)). intros (n & _ & _ & Hconn).
  apply connected_stone_r in Hconn as [_ Hconn]. simpl in Hconn.
  apply (getOpponent_ne player Hpl). unfold opponent in Hconn. congruence.
Qed.

(** C5, as amended.  The liberty tally of the group of a seed stone is the
    number of distinct empty cells adjacent to the group: an empty cell is
    marked when it is first counted, so it is counted once, however many
    stones of the group touch it. *)
Theorem getLiberties_counts_each_liberty_once (r : GoRule) (x y : Z) (c : PieceType) :
  stone (board r) c (x, y) -> c <> EMPTY ->
  exists n G r' L,
    Go.getLiberties r x y c [] = Some (n, G, r') /\
    liberties_of (board r) c (x, y) L /\
    forall L', liberties_of (board r) c (x, y) L' -> n = Z.of_nat (length L').
Proof.
  intros Hs Hc.
  destruct (getLiberties_correct r x y c [] Hs Hc) as (n & G & L & r' & E & _ & _ & HL & Hn).
  exists n, G, r', L. split; [exact E|]. split; [exact HL|].
  intros L' HL'. rewrite Hn. f_equal. eapply liberties_of_length; eassumption.
Qed.

(** C5 as stated fails: on no board and for no seed stone does the tally
    exceed the number of distinct empty cells adjacent to the group. *)
Lemma liberty_tally_never_exceeds :
  ~ exists (r : GoRule) (x y : Z) (c : PieceType) n G r' L,
      stone (board r) c (x, y) /\ c <> EMPTY /\
      Go.getLiberties r x y c [] = Some (n, G, r') /\
      liberties_of (board r) c (x, y) L /\
      Z.of_nat (length L) < n.
Proof.
  intros (r & x & y & c & n & G & r' & L & Hs & Hc & E & HL & Hlt).
  destruct (getLiberties_correct r x y c [] Hs Hc) as (n1 & G1 & L1 & r1 & E1 & _ & _ & HL1 & Hn1).
  rewrite E in E1. injection E1 as -> _ _.
  rewrite (liberties_of_length _ _ _ _ _ HL HL1) in Hlt. lia.
Qed.

End GoFacts.

(** ** Territory-Capture: scoring *)

Section ScoringFacts.
Import Go.

Lemma unmarked_mark_exact (b : Board) (V : gset Point) (p : Point) :
  isValidBounds b p.1 p.2 = true -> p ∉ V ->
  unmarked b V = S (unmarked b ({[ p ]} ∪ V)).
Proof.
  intros Hb Hin. unfold unmarked. apply elem_of_cellset in Hb.
  replace (cellset b ∖ V) with ({[ p ]} ∪ (cellset b ∖ ({[ p ]} ∪ V))).
  - rewrite size_union by set_solver. rewrite size_singleton. reflexivity.
  - apply set_eq. intros q. destruct (decide (q = p)); set_solver.
Qed.

Lemma flood_neighbor_measure b cur f d :
  flood_measure b (flood_neighbor b cur f d) = flood_measure b f.
Proof.
  unfold flood_neighbor.
  destruct (isValidBounds b (cur.1 + d.1) (cur.2 + d.2)) eqn:Hb; [|reflexivity].
  destruct (decide (getPiece b (cur.1 + d.1) (cur.2 + d.2) = EMPTY)).
  - case_bool_decide as Hin; simpl; [reflexivity|].
    unfold flood_measure. simpl. rewrite length_app. simpl.
    rewrite (unmarked_mark_exact b (checked f) (cur.1 + d.1, cur.2 + d.2) Hb Hin). lia.
  - destruct (decide _); [reflexivity|]. destruct (decide _); reflexivity.
Qed.

Lemma flood_neighbors_measure b cur ds : forall f,
  flood_measure b (fold_left (flood_neighbor b cur) ds f) = flood_measure b f.
Proof.
  induction ds as [|d ds IH]; intros f; simpl; [reflexivity|].
  rewrite IH. apply flood_neighbor_measure.
Qed.

Lemma flood_loop_step fuel b f :
  flood_loop (S fuel) b f =
  match queue f with
  | [] => Some f
  | cur :: rest =>
      flood_loop fuel b
        (fold_left (flood_neighbor b cur) dirs4
           (mkFlood (checked f) rest (territory f) (touchesBlack f) (touchesWhite f)))
  end.
Proof. reflexivity. Qed.

(** The flood fill returns when the fuel exceeds its measure. *)
Lemma flood_loop_total b fuel : forall f,
  (flood_measure b f < fuel)%nat -> exists f', flood_loop fuel b f = Some f'.
Proof.
  induction fuel as [|fuel IH]; intros f Hm; [lia|].
  rewrite flood_loop_step. destruct (queue f) as [|cur rest] eqn:Hq; [eauto|].
  apply IH. rewrite flood_neighbors_measure. unfold flood_measure in *. simpl.
  rewrite Hq in Hm. simpl in Hm. lia.
Qed.

(** One round of the scoring loop returns and keeps the scores whole. *)
Lemma score_cell_whole b p s :
  p ∈ cells b -> whole_scores s -> exists s', score_cell b p s = Some s' /\ whole_scores s'.
Proof.
  intros Hp (nb & nw & Hnb & Hnw & Eb & Ew). destruct s as [[bs ws] chk]. simpl in Eb, Ew.
  unfold score_cell. case_bool_decide as Hin.
  { eexists. split; [reflexivity|]. exists nb, nw. auto. }
  destruct (getPiece b p.1 p.2).
  - destruct (flood_loop_total b (flood_fuel b) (mkFlood ({[ p ]} ∪ chk) [p] [p] false false))
      as (f & Ef).
    { unfold flood_measure, flood_fuel. simpl.
      apply elem_of_cells in Hp.
      pose proof (unmarked_mark b chk p Hp Hin). pose proof (unmarked_le_fuel b chk).
      unfold dfs_fuel in *. lia. }
    rewrite Ef. set (n := Z.of_nat (length (territory f))).
    destruct (touchesBlack f && negb (touchesWhite f)).
    { eexists. split; [reflexivity|]. exists (nb + n), nw. simpl.
      split; [lia|]. split; [lia|]. split; [|exact Ew]. rewrite inject_Z_plus, Eb. reflexivity. }
    destruct (negb (touchesBlack f) && touchesWhite f).
    { eexists. split; [reflexivity|]. exists nb, (nw + n). simpl.
      split; [lia|]. split; [lia|]. split; [exact Eb|]. rewrite inject_Z_plus, Ew. reflexivity. }
    eexists. split; [reflexivity|]. exists nb, nw. auto.
  - eexists. split; [reflexivity|]. exists (nb + 1), nw. simpl.
    split; [lia|]. split; [lia|]. split; [|exact Ew]. rewrite inject_Z_plus, Eb. reflexivity.
  - eexists. split; [reflexivity|]. exists nb, (nw + 1). simpl.
    split; [lia|]. split; [lia|]. split; [exact Eb|]. rewrite inject_Z_plus, Ew. reflexivity.
Qed.

(** A whole number is never a whole number plus 3.75, and exceeds it exactly
    when it exceeds the whole number by 4. *)
Lemma komi_strict (nb nw : Z) :
  ~ (inject_Z nb == inject_Z nw + komi)%Q /\
  ((inject_Z nw + komi < inject_Z nb)%Q <-> nw + 4 <= nb) /\
  ((inject_Z nb < inject_Z nw + komi)%Q <-> nb <= nw + 3).
Proof.
  unfold komi, Qeq, Qlt, Qplus, inject_Z. simpl. lia.
Qed.

(** C10.  The two totals of Territory-Capture scoring are never equal: the
    black total and the white total before compensation are whole numbers,
    White receives 3.75 on top, so the comparison made at the end of a game
    always names a winner, and Black wins exactly when the black count
    exceeds the white count by at least 4. *)
Theorem calculateScore_never_ties (b : Board) :
  exists blackScore whiteScore (nb nw : Z),
    Go.calculateScore b = Some (blackScore, whiteScore) /\
    0 <= nb /\ 0 <= nw /\
    (blackScore == inject_Z nb)%Q /\ (whiteScore == inject_Z nw + komi)%Q /\
    ~ (blackScore == whiteScore)%Q /\
    ((whiteScore < blackScore)%Q <-> nw + 4 <= nb) /\
    ((blackScore < whiteScore)%Q <-> nb <= nw + 3) /\
    MCTS.score_status blackScore whiteScore <> DRAW /\
    (MCTS.score_status blackScore whiteScore = BLACK_WIN <-> nw + 4 <= nb).
Proof.
  unfold calculateScore.
  destruct (for_each_inv (score_cell b) whole_scores (cells b)
              (fun p s Hp Hs => score_cell_whole b p s Hp Hs) (0%Q, 0%Q, ∅))
    as ([[bs ws] chk] & E & (nb & nw & Hnb & Hnw & Eb & Ew)).
  { exists 0, 0. simpl. repeat split; try lia; reflexivity. }
  rewrite E. simpl in Eb, Ew. exists bs, (ws + komi)%Q, nb, nw.
  split; [reflexivity|]. split; [exact Hnb|]. split; [exact Hnw|]. split; [exact Eb|].
  split; [rewrite Ew; reflexivity|].
  destruct (komi_strict nb nw) as (Hne & Hgt & Hlt).
  rewrite <- Eb, <- Ew in Hne, Hgt, Hlt.
  split; [exact Hne|]. split; [exact Hgt|]. split; [exact Hlt|].
  unfold MCTS.score_status.
  destruct (Qlt_le_dec (ws + komi) bs) as [H1|H1].
  - split; [discriminate|]. split; [intros _; apply Hgt, H1|reflexivity].
  - destruct (Qlt_le_dec bs (ws + komi)) as [H2|H2].
    + split; [discriminate|]. split; [discriminate|].
      intros H. apply Hgt in H. exfalso. apply (Qlt_not_le _ _ H). exact H1.
    + exfalso. apply Hne. apply Qle_antisym; assumption.
Qed.

End ScoringFacts.

(** ** Flip-Capture *)

Section ReversiFacts.

(** [checkWin] of Flip-Capture reports a decided game exactly on a full
    board. *)
Lemma reversi_checkWin_full_only (b : Board) (x y : Z) :
  Reversi.checkWin b x y <> PLAYING <-> countPieces b EMPTY = 0.
Proof.
  unfold Reversi.checkWin. destruct (countPieces b EMPTY =? 0) eqn:E.
  - apply Z.eqb_eq in E. split; [intros _; exact E|intros _].
    destruct (_ >? _); [discriminate|]. destruct (_ >? _); discriminate.
  - apply Z.eqb_neq in E. split; [congruence|contradiction].
Qed.

(** C4.  After the nine legal moves of [wipeout_line] White has no stone and
    neither color has a legal move, yet [checkWin] answers [PLAYING]: it
    decides a game only on a full board. *)
Theorem reversi_checkWin_misses_wipeout :
  Reversi.play (Reversi.initBoard (newBoard 8)) BLACK wipeout_line = Some wipeout_board /\
  countPieces wipeout_board WHITE = 0 /\
  countPieces wipeout_board BLACK = 13 /\
  Reversi.hasValidMove wipeout_board BLACK = Some false /\
  Reversi.hasValidMove wipeout_board WHITE = Some false /\
  Reversi.checkWin wipeout_board 3 5 = PLAYING.
Proof. vm_compute. repeat split; reflexivity. Qed.

End ReversiFacts.

(** ** Placement-Five *)

Section GomokuFacts.
Import Gomoku.

(** What [scan] over the indices [1..4] adds to the counter. *)
Lemma scan_spec b current cell count :
  exists k, scan b current cell [1; 2; 3; 4] count = count + k /\ 0 <= k <= 4 /\
    (forall i, 1 <= i <= k -> getPiece b (cell i).1 (cell i).2 = current) /\
    (k < 4 -> getPiece b (cell (k + 1)).1 (cell (k + 1)).2 <> current).
Proof.
  simpl.
  destruct (decide (getPiece b (cell 1).1 (cell 1).2 = current)) as [H1|H1].
  2:{ exists 0. split; [lia|]. split; [lia|]. split; [intros; lia|intros _; exact H1]. }
  destruct (decide (getPiece b (cell 2).1 (cell 2).2 = current)) as [H2|H2].
  2:{ exists 1. split; [lia|]. split; [lia|]. split; [|intros _; exact H2].
      intros i Hi. assert (i = 1) as -> by lia. exact H1. }
  destruct (decide (getPiece b (cell 3).1 (cell 3).2 = current)) as [H3|H3].
  2:{ exists 2. split; [lia|]. split; [lia|]. split; [|intros _; exact H3].
      intros i Hi. assert (i = 1 \/ i = 2) as [-> | ->] by lia; assumption. }
  destruct (decide (getPiece b (cell 4).1 (cell 4).2 = current)) as [H4|H4].
  2:{ exists 3. split; [lia|]. split; [lia|]. split; [|intros _; exact H4].
      intros i Hi. assert (i = 1 \/ i = 2 \/ i = 3) as [-> | [-> | ->]] by lia; assumption. }
  exists 4. split; [lia|]. split; [lia|]. split; [|lia].
  intros i Hi. assert (i = 1 \/ i = 2 \/ i = 3 \/ i = 4) as [-> | [-> | [-> | ->]]] by lia; assumption.
Qed.

(** The counter of one axis reaches 5 exactly when the axis carries a run of
    at least 5 through the cell. *)
Lemma axis_count_five b x y c dir :
  getPiece b x y = c ->
  (5 <= axis_count b x y c dir <->
   exists lo hi, run_through b x y c dir lo hi /\ 5 <= hi - lo + 1).
Proof.
  intros Hc. unfold axis_count.
  destruct (scan_spec b c (fun i => (x + i * dir.1, y + i * dir.2)) 1)
    as (kf & -> & Hkf & Hf & Hfstop).
  destruct (scan_spec b c (fun i => (x - i * dir.1, y - i * dir.2)) (1 + kf))
    as (kb & -> & Hkb & Hb & Hbstop).
  simpl in *. split.
  - intros H5. exists (- kb), kf. split; [|lia]. split; [lia|].
    intros i Hi. destruct (Z.lt_trichotomy i 0) as [Hneg|[->|Hpos]].
    + specialize (Hb (- i) ltac:(lia)).
      replace (x - - i * dir.1) with (x + i * dir.1) in Hb by lia.
      replace (y - - i * dir.2) with (y + i * dir.2) in Hb by lia. exact Hb.
    + rewrite !Z.mul_0_l, !Z.add_0_r. exact Hc.
    + apply Hf. lia.
  - intros (lo & hi & [Hlh Hrun] & H5).
    assert (Hkf' : kf = 4 \/ hi <= kf).
    { destruct (Z_lt_ge_dec kf 4) as [Hlt|]; [|lia]. right.
      destruct (Z_le_gt_dec hi kf); [assumption|]. exfalso.
      apply (Hfstop Hlt). apply Hrun. lia. }
    assert (Hkb' : kb = 4 \/ - lo <= kb).
    { destruct (Z_lt_ge_dec kb 4) as [Hlt|]; [|lia]. right.
      destruct (Z_le_gt_dec (- lo) kb); [assumption|]. exfalso.
      apply (Hbstop Hlt). specialize (Hrun (- (kb + 1)) ltac:(lia)).
      replace (x + - (kb + 1) * dir.1) with (x - (kb + 1) * dir.1) in Hrun by lia.
      replace (y + - (kb + 1) * dir.2) with (y - (kb + 1) * dir.2) in Hrun by lia.
      exact Hrun. }
    lia.
Qed.

(** The loop over the four axes returns a win at the first axis with such a
    run, and falls through when there is none. *)
Lemma axes_loop_spec b x y c dirs :
  getPiece b x y = c ->
  match axes_loop b x y c dirs with
  | Some s => s = win_of c /\
              exists dir lo hi, dir ∈ dirs /\ run_through b x y c dir lo hi /\ 5 <= hi - lo + 1
  | None => forall dir lo hi, dir ∈ dirs -> run_through b x y c dir lo hi -> hi - lo + 1 < 5
  end.
Proof.
  intros Hc. induction dirs as [|dir dirs IH]; simpl.
  - intros dir lo hi Hd. inversion Hd.
  - destruct (5 <=? axis_count b x y c dir) eqn:E.
    + split; [reflexivity|]. apply Z.leb_le, axis_count_five in E as (lo & hi & Hr & H5); [|exact Hc].
      exists dir, lo, hi. split; [left|]. auto.
    + destruct (axes_loop b x y c dirs) as [s|].
      * destruct IH as (-> & dir' & lo & hi & Hd & H). split; [reflexivity|].
        exists dir', lo, hi. split; [right; exact Hd|exact H].
      * intros dir' lo hi [->|Hd]%elem_of_cons Hr; [|eapply IH; eassumption].
        apply Z.leb_gt in E. destruct (Z_lt_ge_dec (hi - lo + 1) 5) as [|Hge]; [assumption|].
        exfalso. apply (Z.lt_irrefl 5). eapply Z.le_lt_trans; [|exact E].
        apply axis_count_five; [exact Hc|]. exists lo, hi. split; [exact Hr|lia].
Qed.

(** A run seen along a step is the same run seen along the opposite step. *)
Lemma run_through_opp b x y c dir lo hi :
  run_through b x y c dir lo hi -> run_through b x y c (- dir.1, - dir.2) (- hi) (- lo).
Proof.
  intros [Hlh Hrun]. split; [lia|]. intros i Hi. cbn [fst snd].
  replace (x + i * - dir.1) with (x + (- i) * dir.1) by lia.
  replace (y + i * - dir.2) with (y + (- i) * dir.2) by lia.
  apply Hrun. lia.
Qed.

(** The four entries of the table of the program cover the four lines
    through a cell: every step of a line is an entry or the opposite of one. *)
Lemma line_step_directions dir :
  line_step dir <-> dir ∈ directions \/ (- dir.1, - dir.2) ∈ directions.
Proof.
  destruct dir as [dx dy]. unfold line_step, directions. cbn [fst snd]. split.
  - intros (Hx & Hy & Hne).
    assert (Hc : (dx = 1 /\ dy = 0) \/ (dx = 0 /\ dy = 1) \/ (dx = 1 /\ dy = 1) \/
                 (dx = 1 /\ dy = -1) \/ (dx = -1 /\ dy = 0) \/ (dx = 0 /\ dy = -1) \/
                 (dx = -1 /\ dy = -1) \/ (dx = -1 /\ dy = 1)).
    { destruct (decide (dx = 0)) as [->|]; [|lia].
      destruct (decide (dy = 0)) as [->|]; [contradiction|lia]. }
    destruct Hc as [[-> ->]|[[-> ->]|[[-> ->]|[[-> ->]|[[-> ->]|[[-> ->]|[[-> ->]|[-> ->]]]]]]]];
      cbn [Z.opp Pos.pred_double]; set_solver.
  - intros [Hd|Hd];
      repeat (apply elem_of_cons in Hd as [E|Hd];
              [injection E as E1 E2; repeat split; try lia; intros [= ? ?]; lia|]);
      inversion Hd.
Qed.

(** Five in a row on some line is five in a row along some entry of the
    table. *)
Lemma five_in_row_directions b x y c :
  five_in_row b x y c <->
  exists dir lo hi, dir ∈ directions /\ run_through b x y c dir lo hi /\ 5 <= hi - lo + 1.
Proof.
  split.
  - intros (dir & lo & hi & [Hd|Hd]%line_step_directions & Hr & H5).
    + exists dir, lo, hi. auto.
    + exists (- dir.1, - dir.2), (- hi), (- lo).
      split; [exact Hd|]. split; [apply run_through_opp; exact Hr|lia].
  - intros (dir & lo & hi & Hd & H). exists dir, lo, hi. split; [|exact H].
    apply line_step_directions. left. exact Hd.
Qed.

(** C6.  With a stone of color [c] on [(x, y)], [checkWin] reports the win
    of [c] if and only if some axis carries a contiguous run of [c] of length
    at least 5 through [(x, y)]; otherwise the game goes on or is drawn. *)
Theorem gomoku_checkWin_five (b : Board) (x y : Z) (c : PieceType) :
  getPiece b x y = c -> c <> EMPTY ->
  (Gomoku.checkWin b x y = win_of c <-> five_in_row b x y c) /\
  (~ five_in_row b x y c -> Gomoku.checkWin b x y = PLAYING \/ Gomoku.checkWin b x y = DRAW).
Proof.
  intros Hc Hne. unfold checkWin.
  assert (Hxy : (x =? -1) && (y =? -1) = false).
  { destruct (isValidBounds b x y) eqn:Hb.
    - unfold isValidBounds in Hb. apply andb_false_iff. left. apply Z.eqb_neq.
      rewrite !andb_true_iff, Z.leb_le in Hb. lia.
    - unfold getPiece in Hc. rewrite Hb in Hc. congruence. }
  rewrite Hxy, Hc. destruct (decide (c = EMPTY)) as [|_]; [contradiction|].
  pose proof (axes_loop_spec b x y c directions Hc) as Hloop.
  destruct (axes_loop b x y c directions) as [s|].
  - destruct Hloop as (-> & Hfive%five_in_row_directions).
    split; [split; [intros _; exact Hfive|reflexivity]|].
    intros Hn. contradiction.
  - assert (Hno : ~ five_in_row b x y c).
    { intros (dir & lo & hi & Hd & Hr & H5)%five_in_row_directions.
      specialize (Hloop dir lo hi Hd Hr). lia. }
    split; [|intros _; destruct (has_empty b); auto].
    split; [|intros H; contradiction].
    unfold win_of. destruct (has_empty b), (decide (c = BLACK)); discriminate.
Qed.

End GomokuFacts.

(** ** Serialization *)

Section BoardIOFacts.
Import BoardIO.

Lemma read_digits_uint (u : Decimal.uint) : forall acc rest,
  read_digits acc (String.append (NilEmpty.string_of_uint u) (String " " rest))
  = (uint_value acc u, String " " rest).
Proof.
  induction u; intros acc rest; simpl; try apply IHu. reflexivity.
Qed.

Lemma uint_value_acc (u : Decimal.uint) : forall acc : positive,
  uint_value (Z.pos acc) u = Z.pos (Pos.of_uint_acc u acc).
Proof.
  induction u; intros acc; simpl; try reflexivity;
    match goal with
    | |- uint_value ?z _ = _ =>
        match goal with
        | |- _ = Z.pos (Pos.of_uint_acc _ ?p) =>
            replace z with (Z.pos p) by lia; apply IHu
        end
    end.
Qed.

Lemma uint_value_of_uint (u : Decimal.uint) :
  uint_value 0 u = Z.of_N (Pos.of_uint u).
Proof.
  induction u; simpl; try reflexivity; try exact IHu;
    match goal with
    | |- uint_value ?z _ = Z.pos (Pos.of_uint_acc _ ?p) =>
        change z with (Z.pos p); apply uint_value_acc
    end.
Qed.

Lemma read_int_space s : read_int (String " " s) = read_int s.
Proof. reflexivity. Qed.

(** Reading what [print_int] wrote, up to the space that follows it, gives
    the number back. *)
Lemma read_int_print (z : Z) (rest : string) :
  0 <= z <= INT_MAX ->
  read_int (String.append (print_int z) (String " " rest)) = Some (z, String " " rest).
Proof.
  intros Hz. unfold print_int.
  assert (Hu : exists u, Z.to_int z = Decimal.Pos u /\ u <> Decimal.Nil /\ uint_value 0 u = z).
  { destruct z as [|p|p]; [| |lia].
    - exists (Decimal.D0 Decimal.Nil). repeat split. discriminate.
    - exists (Pos.to_uint p). split; [reflexivity|]. split; [apply Unsigned.to_uint_nonnil|].
      rewrite uint_value_of_uint, Unsigned.of_to. reflexivity. }
  destruct Hu as (u & -> & Hnil & Hval). simpl.
  assert (Hrange : (INT_MIN <=? z) && (z <=? INT_MAX) = true).
  { apply andb_true_iff. unfold INT_MIN, INT_MAX in *. split; [apply Z.leb_le|apply Z.leb_le]; lia. }
  unfold NilZero.string_of_uint.
  destruct u; try contradiction; unfold read_int; simpl;
    rewrite read_digits_uint;
    match goal with
    | |- context [uint_value ?a ?v] =>
        replace (uint_value a v) with z by (rewrite <- Hval; reflexivity)
    end; cbv zeta; rewrite Hrange; reflexivity.
Qed.

Lemma stream_of_head b cs : exists r, stream_of b cs = String " " r.
Proof. destruct cs; simpl; eauto. Qed.

Lemma string_app_cons (a : ascii) (s t : string) :
  String.append (String a s) t = String a (String.append s t).
Proof. reflexivity. Qed.

Lemma string_app_assoc (s1 s2 s3 : string) :
  String.append (String.append s1 s2) s3 = String.append s1 (String.append s2 s3).
Proof.
  induction s1 as [|a s1 IH]; [reflexivity|]. rewrite !string_app_cons, IH. reflexivity.
Qed.

Lemma string_app_nil_r (s : string) : String.append s "" = s.
Proof. induction s as [|a s IH]; [reflexivity|]. rewrite string_app_cons, IH. reflexivity. Qed.

Lemma concat_cons (h : string) (t : list string) :
  String.concat "" (h :: t) = String.append h (String.concat "" t).
Proof. destruct t; [rewrite string_app_nil_r|]; reflexivity. Qed.

(** The text written by [serialize], cell by cell. *)
Lemma serialize_stream b :
  serialize b = String.append (print_int (size b)) (stream_of b (cells b)).
Proof.
  unfold serialize. f_equal. induction (cells b) as [|p cs IH]; [reflexivity|].
  rewrite map_cons, concat_cons. cbn [stream_of]. rewrite <- IH, string_app_assoc. reflexivity.
Qed.

Lemma piece_of_code_code p : piece_of_code (piece_code p) = Some p.
Proof. destruct p; reflexivity. Qed.

Lemma piece_code_range p : 0 <= piece_code p <= INT_MAX.
Proof. destruct p; unfold INT_MAX; simpl; lia. Qed.

Lemma set_cell_shape n w g i j v :
  shape n w g -> 0 <= i -> 0 <= j -> (Z.to_nat i < n)%nat -> (Z.to_nat j < w)%nat ->
  exists g', set_cell g i j v = Some g' /\ shape n w g' /\
    at_cell g' (i, j) = Some v /\
    forall q, 0 <= q.1 -> 0 <= q.2 -> q <> (i, j) -> at_cell g' q = at_cell g q.
Proof.
  intros [Hlen Hrows] Hi Hj Hin Hjw. unfold set_cell.
  destruct (lookup_lt_is_Some_2 g (Z.to_nat i)) as [row Hrow]; [lia|]. rewrite Hrow.
  assert (Hrl : length row = w) by (apply Hrows; eapply list_elem_of_lookup_2; exact Hrow).
  rewrite (proj2 (Nat.ltb_lt _ _)) by lia. eexists. split; [reflexivity|]. split; [|split].
  - split; [rewrite length_insert; exact Hlen|].
    intros r (k & Hk)%list_elem_of_lookup_1. destruct (decide (k = Z.to_nat i)) as [->|Hne].
    + rewrite list_lookup_insert_eq in Hk by lia. injection Hk as <-.
      rewrite length_insert. exact Hrl.
    + rewrite list_lookup_insert_ne in Hk by congruence.
      apply Hrows. eapply list_elem_of_lookup_2; exact Hk.
  - unfold at_cell. simpl. rewrite list_lookup_insert_eq by lia.
    apply list_lookup_insert_eq. lia.
  - intros q Hq1 Hq2 Hne. unfold at_cell.
    destruct (decide (Z.to_nat q.1 = Z.to_nat i)) as [E|E].
    + rewrite E, list_lookup_insert_eq, Hrow by lia.
      apply list_lookup_insert_ne. intros E2. apply Hne. destruct q; simpl in *. f_equal; lia.
    + rewrite list_lookup_insert_ne by congruence. reflexivity.
Qed.

(** The double loop of [deserialize] reads every cell value of the text and
    stores it in its cell. *)
Lemma read_cells_loop b n w : forall cs g,
  shape n w g ->
  (forall p, p ∈ cs -> 0 <= p.1 /\ 0 <= p.2 /\ (Z.to_nat p.1 < n)%nat /\ (Z.to_nat p.2 < w)%nat) ->
  exists g', for_each read_cell cs (g, stream_of b cs) = Some (g', " "%string) /\
    shape n w g' /\
    (forall p, p ∈ cs -> at_cell g' p = Some (cell b p)) /\
    (forall q, 0 <= q.1 -> 0 <= q.2 -> q ∉ cs -> at_cell g' q = at_cell g q).
Proof.
  induction cs as [|p cs IH]; intros g Hg Hcs.
  - exists g. split; [reflexivity|]. split; [exact Hg|]. split; [|auto].
    intros p Hp. inversion Hp.
  - destruct (Hcs p ltac:(left)) as (Hp1 & Hp2 & Hpn & Hpw).
    destruct (stream_of_head b cs) as [r Hr].
    cbn [for_each stream_of]. unfold read_cell at 1. cbn [fst snd].
    rewrite read_int_space, Hr, read_int_print by apply piece_code_range.
    rewrite piece_of_code_code.
    destruct (set_cell_shape n w g p.1 p.2 (cell b p) Hg Hp1 Hp2 Hpn Hpw)
      as (g1 & -> & Hg1 & Hset & Hother).
    rewrite <- Hr.
    destruct (IH g1 Hg1 ltac:(intros q Hq; apply Hcs; right; exact Hq))
      as (g' & E & Hg' & Hin & Hout).
    exists g'. split; [exact E|]. split; [exact Hg'|]. split.
    + intros q [->|Hq]%elem_of_cons; [|apply Hin, Hq].
      destruct (decide (p ∈ cs)) as [Hpc|Hpc]; [apply Hin, Hpc|].
      rewrite (Hout p Hp1 Hp2 Hpc). destruct p; exact Hset.
    + intros q Hq1 Hq2 Hq. rewrite Hout by (try assumption; set_solver).
      apply Hother; try assumption. destruct p; set_solver.
Qed.

Lemma wf_shape b : wf_board b -> shape (Z.to_nat (size b)) (Z.to_nat (size b)) (grid b).
Proof.
  intros (Hs & Hl & Hrows)%wf_board_spec. split; [lia|].
  intros row Hrow. specialize (Hrows row Hrow). lia.
Qed.

Lemma resize_rows_shape (t : Board) (n : nat) :
  wf_board t -> (size t = 0 \/ Z.of_nat n <= size t) ->
  shape n (if decide (size t = 0) then n else Z.to_nat (size t))
        (resize_rows (grid t) n (replicate n EMPTY)).
Proof.
  intros Hwf Ht. destruct (wf_shape t Hwf) as [Hlen Hrows]. unfold resize_rows.
  destruct (decide (size t = 0)) as [E|E].
  - rewrite E in Hlen. simpl in Hlen. destruct (grid t); [|discriminate]. simpl.
    rewrite take_nil, Nat.sub_0_r. simpl. split; [apply length_replicate|].
    intros row Hrow. apply elem_of_replicate in Hrow as [-> _]. apply length_replicate.
  - destruct Ht as [Ht|Ht]; [contradiction|]. split.
    + rewrite length_app, length_take, length_replicate. lia.
    + intros row [Hrow|Hrow]%elem_of_app.
      * apply elem_of_take in Hrow as (i & Hi & _).
        apply Hrows. eapply list_elem_of_lookup_2; exact Hi.
      * apply elem_of_replicate in Hrow as [_ Hrow]. lia.
Qed.

Lemma shape_eq n (g g' : list (list PieceType)) :
  shape n n g -> shape n n g' ->
  (forall p, 0 <= p.1 -> 0 <= p.2 -> (Z.to_nat p.1 < n)%nat -> (Z.to_nat p.2 < n)%nat ->
             at_cell g p = at_cell g' p) ->
  g = g'.
Proof.
  intros [Hl Hr] [Hl' Hr'] Hcells. apply list_eq. intros i.
  destruct (decide (i < n)%nat) as [Hi|Hi].
  2:{ rewrite !(proj2 (lookup_ge_None _ _)) by lia. reflexivity. }
  destruct (lookup_lt_is_Some_2 g i) as [row Hrow]; [lia|].
  destruct (lookup_lt_is_Some_2 g' i) as [row' Hrow']; [lia|].
  rewrite Hrow, Hrow'. f_equal. apply list_eq. intros j.
  assert (Hrl : length row = n) by (apply Hr; eapply list_elem_of_lookup_2; exact Hrow).
  assert (Hrl' : length row' = n) by (apply Hr'; eapply list_elem_of_lookup_2; exact Hrow').
  destruct (decide (j < n)%nat) as [Hj|Hj].
  2:{ rewrite !(proj2 (lookup_ge_None _ _)) by lia. reflexivity. }
  specialize (Hcells (Z.of_nat i, Z.of_nat j)). unfold at_cell in Hcells. simpl in Hcells.
  rewrite !Nat2Z.id, Hrow, Hrow' in Hcells. apply Hcells; lia.
Qed.

(** C9.  Reading back what [serialize] wrote gives a board of the same size
    with the same cells.  The board that receives the data is either fresh
    and empty, as in the first iteration of the program, or at least as large
    as the saved one, as in the second; when it is empty or of the saved
    size the result is the saved board itself. *)
Theorem deserialize_serialize (b target : Board) :
  wf_board b -> wf_board target -> (size target = 0 \/ size b <= size target) ->
  exists b',
    BoardIO.deserialize target (BoardIO.serialize b) = Some b' /\
    getSize b' = getSize b /\
    (forall x y, getPiece b' x y = getPiece b x y) /\
    (size target = 0 \/ size target = size b -> b' = b).
Proof.
  intros Hwf Hwft Ht. pose proof Hwf as (Hs & Hl & Hrows)%wf_board_spec.
  unfold deserialize. rewrite serialize_stream.
  destruct (stream_of_head b (cells b)) as [r Hr]. rewrite Hr.
  rewrite read_int_print by (unfold INT_MAX; lia). rewrite <- Hr.
  rewrite (proj2 (Z.ltb_ge _ _)) by lia.
  set (n := Z.to_nat (size b)).
  set (g0 := resize_rows (grid target) n (replicate n EMPTY)).
  set (w := if decide (size target = 0) then n else Z.to_nat (size target)).
  assert (Hg0 : shape n w g0) by (apply resize_rows_shape; [exact Hwft|lia]).
  assert (Hw : (n <= w)%nat).
  { unfold w. destruct (decide (size target = 0)); lia. }
  change (cells {| size := size b; grid := g0 |}) with (cells b).
  assert (Hcells : forall p, p ∈ cells b ->
            0 <= p.1 /\ 0 <= p.2 /\ (Z.to_nat p.1 < n)%nat /\ (Z.to_nat p.2 < w)%nat).
  { intros p Hp%elem_of_cells%isValidBounds_spec. lia. }
  destruct (read_cells_loop b n w (cells b) g0 Hg0 Hcells) as (g' & E & Hg' & Hin & _).
  rewrite E. eexists. split; [reflexivity|]. split; [reflexivity|].
  assert (Hat : forall x y, isValidBounds b x y = true ->
            at_cell g' (x, y) = Some (getPiece b x y)).
  { intros x y Hb. rewrite (Hin (x, y)) by (apply elem_of_cells; exact Hb).
    unfold cell, getPiece. simpl. rewrite Hb. reflexivity. }
  split.
  - intros x y. unfold getPiece at 1. unfold isValidBounds at 1. simpl.
    fold (isValidBounds b x y). destruct (isValidBounds b x y) eqn:Hb.
    + unfold grid_at. simpl. specialize (Hat x y Hb). unfold at_cell in Hat. simpl in Hat.
      rewrite Hat. reflexivity.
    + unfold getPiece. rewrite Hb. reflexivity.
  - intros Hsame. destruct b as [s g]. simpl in *. f_equal.
    assert (w = n) as Hwn.
    { unfold w. destruct (decide (size target = 0)); [reflexivity|]. lia. }
    rewrite Hwn in Hg'. apply (shape_eq n); [exact Hg'|apply (wf_shape (mkBoard s g) Hwf)|].
    intros p Hp1 Hp2 Hpn Hpn'. destruct p as [x y]. simpl in *.
    assert (Hb : isValidBounds (mkBoard s g) x y = true).
    { apply isValidBounds_spec. simpl. lia. }
    rewrite (Hat x y Hb). unfold getPiece. rewrite Hb.
    destruct (wf_grid_at (mkBoard s g) x y Hwf Hb) as [c Hc]. rewrite Hc. simpl.
    symmetry. exact Hc.
Qed.

(** A receiving board smaller than the saved one, and not empty, has rows
    too short for the data: the write leaves the vectors. *)
Example deserialize_into_smaller_board :
  BoardIO.deserialize (newBoard 2) (BoardIO.serialize small_position) = None.
Proof. vm_compute. reflexivity. Qed.

End BoardIOFacts.

(** ** Search tree *)

Section MCTSFacts.
Import MCTS.

Lemma on_path_le t i k : tree_wf t -> on_path t i k -> (k <= i)%nat.
Proof.
  intros Hwf. induction 1 as [i|i n p k Hi Hp Hpk IH]; [lia|].
  specialize (Hwf i n p Hi Hp). lia.
Qed.

Lemma update_parent result n : parent (update result n) = parent n.
Proof. reflexivity. Qed.

(** Updating a node leaves all parent links, hence all paths, as they are. *)
Lemma lookup_parent_update (t : Tree) i n result j :
  t !! i = Some n ->
  parent <$> (<[i := update result n]> t !! j) = parent <$> (t !! j).
Proof.
  intros Hi. destruct (decide (i = j)) as [->|Hne].
  - rewrite list_lookup_insert_eq by (eapply lookup_lt_Some; exact Hi). rewrite Hi. reflexivity.
  - rewrite list_lookup_insert_ne by exact Hne. reflexivity.
Qed.

Lemma on_path_parents (t t' : Tree) i k :
  (forall j, parent <$> (t' !! j) = parent <$> (t !! j)) -> on_path t i k -> on_path t' i k.
Proof.
  intros Hpar. induction 1 as [i|i n p k Hi Hp Hpk IH]; [constructor|].
  specialize (Hpar i). rewrite Hi in Hpar. simpl in Hpar.
  destruct (t' !! i) as [n'|] eqn:Hi'; [|discriminate]. simpl in Hpar.
  eapply path_up; [exact Hi'| |exact IH]. congruence.
Qed.

Lemma tree_wf_update (t : Tree) i n result :
  t !! i = Some n -> tree_wf t -> tree_wf (<[i := update result n]> t).
Proof.
  intros Hi Hwf j m p Hj Hp. pose proof (lookup_parent_update t i n result j Hi) as Hpar.
  rewrite Hj in Hpar. simpl in Hpar. destruct (t !! j) as [m'|] eqn:Hj'; [|discriminate].
  simpl in Hpar. apply (Hwf j m' p Hj'). congruence.
Qed.

Lemma bumped_update result n : bumped result n (update result n).
Proof.
  unfold bumped, update, oriented. simpl. repeat split; try reflexivity.
  destruct (decide (playerMoved n = BLACK)); reflexivity.
Qed.

(** The walk from node [i]: every node on the path to the root is bumped
    once, every other node is left as it is. *)
Lemma backpropagate_loop_spec result fuel : forall (t : Tree) i,
  tree_wf t -> (i < length t)%nat -> (i < fuel)%nat ->
  exists t', backpropagate_loop fuel result (Some i) t = Some t' /\
    length t' = length t /\
    forall k n, t !! k = Some n ->
      exists n', t' !! k = Some n' /\
        (on_path t i k -> bumped result n n') /\
        (~ on_path t i k -> n' = n).
Proof.
  induction fuel as [|fuel IH]; intros t i Hwf Hi Hfuel; [lia|].
  destruct (lookup_lt_is_Some_2 t i Hi) as [n Hn]. simpl. rewrite Hn.
  set (t1 := <[i := update result n]> t).
  assert (Hpar : forall j, parent <$> (t1 !! j) = parent <$> (t !! j))
    by (intros j; apply lookup_parent_update; exact Hn).
  assert (Hlen1 : length t1 = length t) by apply length_insert.
  destruct (parent n) as [p|] eqn:Hp.
  - assert (Hpi : (p < i)%nat) by (eapply Hwf; eassumption).
    destruct (IH t1 p (tree_wf_update t i n result Hn Hwf) ltac:(lia) ltac:(lia))
      as (t' & E & Hlen & Hnodes).
    exists t'. split; [exact E|]. split; [lia|].
    intros k m Hk. destruct (decide (k = i)) as [->|Hne].
    + assert (m = n) as -> by congruence.
      destruct (Hnodes i (update result n)) as (n' & Hn' & _ & Hsame).
      { unfold t1. apply list_lookup_insert_eq. exact Hi. }
      exists n'. split; [exact Hn'|].
      assert (Hnot : ~ on_path t1 p i).
      { intros Hpath. apply on_path_le in Hpath; [lia|].
        apply tree_wf_update; assumption. }
      rewrite (Hsame Hnot). split; [intros _; apply bumped_update|].
      intros Hno. exfalso. apply Hno. constructor.
    + destruct (Hnodes k m) as (n' & Hn' & Hon & Hoff).
      { unfold t1. rewrite list_lookup_insert_ne by congruence. exact Hk. }
      exists n'. split; [exact Hn'|]. split.
      * intros Hpath. apply Hon. inversion Hpath as [|? n0 p0 ? Hi0 Hp0 Hrest]; subst; [congruence|].
        assert (p0 = p) as -> by congruence.
        apply (on_path_parents t t1); [exact Hpar|exact Hrest].
      * intros Hno. apply Hoff. intros Hpath. apply Hno.
        eapply path_up; [exact Hn|exact Hp|].
        apply (on_path_parents t1 t); [intros j; symmetry; apply Hpar|exact Hpath].
  - exists t1. split; [destruct fuel; reflexivity|]. split; [exact Hlen1|].
    intros k m Hk. destruct (decide (k = i)) as [->|Hne].
    + assert (m = n) as -> by congruence. exists (update result n).
      split; [apply list_lookup_insert_eq; exact Hi|].
      split; [intros _; apply bumped_update|]. intros Hno. exfalso. apply Hno. constructor.
    + exists m. split; [unfold t1; rewrite list_lookup_insert_ne by congruence; exact Hk|].
      split; [|reflexivity]. intros Hpath.
      inversion Hpath as [|? n0 p0 ? Hi0 Hp0 Hrest]; subst; congruence.
Qed.

(** The path from any node ends at a node without parent, the root. *)
Lemma on_path_root t : tree_wf t -> forall i, (i < length t)%nat ->
  exists k n, on_path t i k /\ t !! k = Some n /\ parent n = None.
Proof.
  intros Hwf i. induction i as [i IH] using lt_wf_ind. intros Hi.
  destruct (lookup_lt_is_Some_2 t i Hi) as [n Hn].
  destruct (parent n) as [p|] eqn:Hp.
  - assert (Hpi : (p < i)%nat) by (eapply Hwf; eassumption).
    destruct (IH p Hpi ltac:(lia)) as (k & m & Hpath & Hk & Hm).
    exists k, m. split; [eapply path_up; eassumption|]. auto.
  - exists i, n. split; [constructor|]. auto.
Qed.

(** C7.  The outcome is worth 1 for a Black win, 0 for a White win and one
    half for a draw; backpropagation from a node reaches the root, adds one
    visit to each node of the path, adds to its reward sum the outcome when
    the node's move was Black's and one minus the outcome otherwise, and
    leaves every other node and every other field as they were. *)
Theorem backpropagate_walk (t : Tree) (node : nat) (status : GameStatus) :
  tree_wf t -> (node < length t)%nat ->
  (result_of BLACK_WIN == 1 /\ result_of WHITE_WIN == 0 /\ result_of DRAW == 1 # 2)%Q /\
  (exists root n, on_path t node root /\ t !! root = Some n /\ parent n = None) /\
  exists t',
    backpropagate status node t = Some t' /\ length t' = length t /\
    forall k n, t !! k = Some n ->
      exists n', t' !! k = Some n' /\
        (on_path t node k ->
         parent n' = parent n /\ children n' = children n /\ move n' = move n /\
         playerMoved n' = playerMoved n /\ untriedMoves n' = untriedMoves n /\
         visits n' = visits n + 1 /\
         (wins n' == wins n + oriented (result_of status) (playerMoved n))%Q) /\
        (~ on_path t node k -> n' = n).
Proof.
  intros Hwf Hnode. split; [repeat split; reflexivity|].
  split; [apply on_path_root; assumption|].
  unfold backpropagate.
  apply (backpropagate_loop_spec (result_of status) (length t) t node Hwf Hnode Hnode).
Qed.

(** What the loop over the children of the root computes. *)
Lemma most_visited_loop (cs : list MCTSNode) : forall (best : Point) (maxV : Z),
  let r := fold_left (fun (acc : Point * Z) child =>
                let '(bestMove, maxVisits) := acc in
                if visits child >? maxVisits then (move child, visits child)
                else (bestMove, maxVisits)) cs (best, maxV) in
  maxV <= r.2 /\ (forall c, c ∈ cs -> visits c <= r.2) /\
  ((r = (best, maxV) /\ forall c, c ∈ cs -> visits c <= maxV) \/
   exists c, c ∈ cs /\ r = (move c, visits c) /\ maxV < visits c).
Proof.
  induction cs as [|c cs IH]; intros best maxV; simpl.
  - split; [lia|]. split; [intros c Hc; inversion Hc|]. left. split; [reflexivity|].
    intros c Hc; inversion Hc.
  - destruct (visits c >? maxV) eqn:E.
    + apply Z.gtb_lt in E. destruct (IH (move c) (visits c)) as (Hle & Hall & Hcase).
      split; [lia|]. split.
      * intros c' [->|Hc']%elem_of_cons; [exact Hle|apply Hall, Hc'].
      * right. destruct Hcase as [[-> _]|(c' & Hc' & -> & Hlt)].
        -- exists c. split; [left|]. split; [reflexivity|lia].
        -- exists c'. split; [right; exact Hc'|]. split; [reflexivity|lia].
    + assert (visits c <= maxV) by (destruct (Z.gtb_spec (visits c) maxV); [discriminate|lia]).
      destruct (IH best maxV) as (Hle & Hall & Hcase).
      split; [exact Hle|]. split.
      * intros c' [->|Hc']%elem_of_cons; [lia|apply Hall, Hc'].
      * destruct Hcase as [[-> Hall']|(c' & Hc' & -> & Hlt)].
        -- left. split; [reflexivity|]. intros c' [->|Hc']%elem_of_cons; [lia|apply Hall', Hc'].
        -- right. exists c'. split; [right; exact Hc'|]. split; [reflexivity|lia].
Qed.

(** C8.  The decision is the move of a child of the root whose visit count
    is the highest, and the pass sentinel (-1, -1) when the root has no
    child. *)
Theorem decision_most_visited (t : Tree) (root : nat) (n : MCTSNode) (cs : list MCTSNode) :
  t !! root = Some n -> mapM (fun c => t !! c) (children n) = Some cs ->
  (forall c, c ∈ cs -> 0 <= visits c) ->
  exists m, decision t root = Some m /\
    (children n = [] -> m = (-1, -1)) /\
    (children n <> [] ->
     exists c, c ∈ cs /\ m = move c /\ forall c', c' ∈ cs -> visits c' <= visits c).
Proof.
  intros Hroot Hcs Hpos. unfold decision. rewrite Hroot, Hcs.
  exists (most_visited cs). split; [reflexivity|]. split.
  - intros Hnil. rewrite Hnil in Hcs. simpl in Hcs. injection Hcs as <-. reflexivity.
  - intros Hne. unfold most_visited.
    destruct (most_visited_loop cs (-1, -1) (-1)) as (_ & Hall & [[Hr Hall']|(c & Hc & Hr & _)]).
    + exfalso. destruct cs as [|c cs].
      * destruct (children n); [contradiction|]. simpl in Hcs.
        destruct (t !! n0); simpl in Hcs; [|discriminate].
        destruct (mapM _ _); discriminate.
      * specialize (Hall' c ltac:(left)). specialize (Hpos c ltac:(left)). lia.
    + exists c. split; [exact Hc|]. rewrite Hr in *. simpl. split; [reflexivity|exact Hall].
Qed.

End MCTSFacts.

(** ** Concrete instances *)

Section GoInstances.
Import Go.

Example corner_eye_suicide :
  fst <$> Go.isValidMove (mkGoRule corner_eye ∅) 0 0 WHITE = Some false.
Proof. vm_compute. reflexivity. Qed.

Example corner_capture_legal :
  fst <$> Go.isValidMove (mkGoRule corner_capture ∅) 0 0 BLACK = Some true.
Proof. vm_compute. reflexivity. Qed.

Example corner_capture_result :
  grid <$> (board <$> Go.makeMove (mkGoRule corner_capture ∅) 0 0 BLACK)
  = Some [[BLACK; EMPTY; BLACK]; [EMPTY; BLACK; EMPTY]; [BLACK; EMPTY; EMPTY]].
Proof. vm_compute. reflexivity. Qed.

Example bent_three_tally :
  (fun r => r.1) <$> Go.getLiberties (mkGoRule bent_three ∅) 0 0 BLACK []
  = Some (3, [(0, 0); (0, 1); (1, 0)]).
Proof. vm_compute. reflexivity. Qed.

Example empty_board_score : Go.calculateScore (newBoard 9) = Some (0%Q, komi).
Proof. vm_compute. reflexivity. Qed.

Example five_row_wins : Gomoku.checkWin five_row 7 11 = BLACK_WIN.
Proof. vm_compute. reflexivity. Qed.

Example four_row_plays_on : Gomoku.checkWin four_row 7 10 = PLAYING.
Proof. vm_compute. reflexivity. Qed.

Example decision_prefers_visits : MCTS.decision sample_tree 0 = Some (0, 0).
Proof. vm_compute. reflexivity. Qed.

Lemma isValidMove_capture_or_suicide_witness :
  exists legal r',
    Go.isValidMove (mkGoRule corner_eye ∅) 0 0 WHITE = Some (legal, r') /\
    (captures (setPiece corner_eye 0 0 WHITE) 0 0 (getOpponent WHITE) -> legal = true) /\
    (legal = false <->
     ~ captures (setPiece corner_eye 0 0 WHITE) 0 0 (getOpponent WHITE) /\
     no_liberty (setPiece corner_eye 0 0 WHITE) WHITE (0, 0)).
Proof.
  apply (isValidMove_capture_or_suicide (mkGoRule corner_eye ∅) 0 0 WHITE);
    [reflexivity | discriminate | reflexivity | reflexivity].
Defined.

Lemma makeMove_captures_groups_witness :
  exists r',
    Go.makeMove (mkGoRule corner_capture ∅) 0 0 BLACK = Some r' /\
    getPiece (board r') 0 0 = BLACK /\
    forall q,
      (captured (setPiece corner_capture 0 0 BLACK) 0 0 (getOpponent BLACK) q ->
       getPiece (board r') q.1 q.2 = EMPTY) /\
      (~ captured (setPiece corner_capture 0 0 BLACK) 0 0 (getOpponent BLACK) q ->
       getPiece (board r') q.1 q.2 = getPiece (setPiece corner_capture 0 0 BLACK) q.1 q.2).
Proof.
  apply (makeMove_captures_groups (mkGoRule corner_capture ∅) 0 0 BLACK);
    [reflexivity | discriminate | reflexivity].
Defined.

Lemma getLiberties_counts_each_liberty_once_witness :
  exists n G r' L,
    Go.getLiberties (mkGoRule bent_three ∅) 0 0 BLACK [] = Some (n, G, r') /\
    liberties_of bent_three BLACK (0, 0) L /\
    forall L', liberties_of bent_three BLACK (0, 0) L' -> n = Z.of_nat (length L').
Proof.
  apply (getLiberties_counts_each_liberty_once (mkGoRule bent_three ∅) 0 0 BLACK);
    [split; reflexivity | discriminate].
Defined.
End GoInstances.

Lemma gomoku_checkWin_five_witness :
  (Gomoku.checkWin five_row 7 11 = Gomoku.win_of BLACK <-> Gomoku.five_in_row five_row 7 11 BLACK) /\
  (~ Gomoku.five_in_row five_row 7 11 BLACK ->
   Gomoku.checkWin five_row 7 11 = PLAYING \/ Gomoku.checkWin five_row 7 11 = DRAW).
Proof.
  apply (gomoku_checkWin_five five_row 7 11 BLACK); [reflexivity | discriminate].
Defined.

Lemma sample_tree_wf : MCTS.tree_wf sample_tree.
Proof.
  intros i n p Hi Hp.
  destruct i as [|[|[|[|i]]]]; simpl in Hi; inversion Hi; subst; simpl in Hp;
    inversion Hp; subst; lia.
Defined.

Lemma backpropagate_walk_witness :
  (MCTS.result_of BLACK_WIN == 1 /\ MCTS.result_of WHITE_WIN == 0 /\
   MCTS.result_of DRAW == 1 # 2)%Q /\
  (exists root n, MCTS.on_path sample_tree 3 root /\ sample_tree !! root = Some n /\
                  MCTS.parent n = None) /\
  exists t',
    MCTS.backpropagate BLACK_WIN 3 sample_tree = Some t' /\ length t' = length sample_tree /\
    forall k n, sample_tree !! k = Some n ->
      exists n', t' !! k = Some n' /\
        (MCTS.on_path sample_tree 3 k ->
         MCTS.parent n' = MCTS.parent n /\ MCTS.children n' = MCTS.children n /\
         MCTS.move n' = MCTS.move n /\ MCTS.playerMoved n' = MCTS.playerMoved n /\
         MCTS.untriedMoves n' = MCTS.untriedMoves n /\
         MCTS.visits n' = MCTS.visits n + 1 /\
         (MCTS.wins n' == MCTS.wins n + MCTS.oriented (MCTS.result_of BLACK_WIN) (MCTS.playerMoved n))%Q) /\
        (~ MCTS.on_path sample_tree 3 k -> n' = n).
Proof.
  apply (backpropagate_walk sample_tree 3 BLACK_WIN); [exact sample_tree_wf | simpl; lia].
Defined.

Lemma decision_most_visited_witness :
  exists m, MCTS.decision sample_tree 0 = Some m /\
    (MCTS.children (MCTS.mkNode None [1; 2]%nat (-1, -1) WHITE 5 2 []) = [] -> m = (-1, -1)) /\
    (MCTS.children (MCTS.mkNode None [1; 2]%nat (-1, -1) WHITE 5 2 []) <> [] ->
     exists c, c ∈ [MCTS.mkNode (Some 0%nat) [3%nat] (0, 0) BLACK 3 1 [];
                    MCTS.mkNode (Some 0%nat) [] (0, 1) BLACK 2 (3 # 2) []] /\
               m = MCTS.move c /\
               forall c', c' ∈ [MCTS.mkNode (Some 0%nat) [3%nat] (0, 0) BLACK 3 1 [];
                                MCTS.mkNode (Some 0%nat) [] (0, 1) BLACK 2 (3 # 2) []] ->
                          MCTS.visits c' <= MCTS.visits c).
Proof.
  apply (decision_most_visited sample_tree 0); [reflexivity | reflexivity |].
  intros c Hc. apply elem_of_cons in Hc as [->|Hc]; [simpl; lia|].
  apply elem_of_cons in Hc as [->|Hc]; [simpl; lia|]. inversion Hc.
Defined.

Lemma deserialize_serialize_witness :
  exists b',
    BoardIO.deserialize (newBoard 0) (BoardIO.serialize small_position) = Some b' /\
    getSize b' = getSize small_position /\
    (forall x y, getPiece b' x y = getPiece small_position x y) /\
    (size (newBoard 0) = 0 \/ size (newBoard 0) = size small_position -> b' = small_position).
Proof.
  apply (deserialize_serialize small_position (newBoard 0));
    [reflexivity | reflexivity | left; reflexivity].
Defined.

(** * Further properties *)

(** ** Board: counting *)

Section BoardCounting.


Lemma row_fold t row : forall count,
  fold_left (fun count p => if decide (p = t) then count + 1 else count) row count
  = count + row_count t row.
Proof.
  unfold row_count. induction row as [|p row IH]; intros count; simpl; [lia|].
  rewrite IH. destruct (decide (p = t)) as [E|E].
  - rewrite filter_cons_True by exact E. simpl length. lia.
  - rewrite filter_cons_False by exact E. lia.
Qed.

Lemma rows_fold t rows : forall count,
  fold_left (fun count row =>
               fold_left (fun count p => if decide (p = t) then count + 1 else count)
                         row count) rows count
  = count + row_count t (concat rows).
Proof.
  induction rows as [|row rows IH]; intros count; simpl.
  - unfold row_count. simpl. lia.
  - rewrite IH, row_fold. unfold row_count. rewrite filter_app, length_app. lia.
Qed.

Lemma countPieces_concat b t : countPieces b t = row_count t (concat (grid b)).
Proof. unfold countPieces. rewrite rows_fold. lia. Qed.

Lemma map_seqZ_lookup {A : Type} (d : A) (l : list A) :
  map (fun j => default d (l !! Z.to_nat j)) (seqZ 0 (Z.of_nat (length l))) = l.
Proof.
  apply list_eq. intros k. rewrite list_lookup_fmap.
  destruct (decide (k < length l)%nat) as [Hk|Hk].
  - rewrite lookup_seqZ_lt by lia. simpl. rewrite Z.add_0_l, Nat2Z.id.
    destruct (lookup_lt_is_Some_2 l k Hk) as [a Ha]. rewrite Ha. reflexivity.
  - rewrite lookup_seqZ_ge by lia. simpl. symmetry. apply lookup_ge_None. lia.
Qed.

Lemma bind_map_concat {A B : Type} (f : A -> list B) (l : list A) :
  l ≫= f = concat (map f l).
Proof. induction l as [|a l IH]; [reflexivity|]. simpl. rewrite <- IH. reflexivity. Qed.

Lemma bind_ext_in {A B : Type} (f g : A -> list B) (l : list A) :
  (forall a, a ∈ l -> f a = g a) -> l ≫= f = l ≫= g.
Proof.
  induction l as [|a l IH]; intros H; [reflexivity|].
  change ((a :: l) ≫= f) with (f a ++ (l ≫= f)). change ((a :: l) ≫= g) with (g a ++ (l ≫= g)).
  rewrite H by left. rewrite IH; [reflexivity|]. intros a' Ha'. apply H. right. exact Ha'.
Qed.

Lemma map_bind {A B C : Type} (g : B -> C) (f : A -> list B) (l : list A) :
  map g (l ≫= f) = l ≫= (fun a => map g (f a)).
Proof.
  induction l as [|a l IH]; [reflexivity|].
  change ((a :: l) ≫= f) with (f a ++ (l ≫= f)). rewrite map_app, IH. reflexivity.
Qed.

(** On a well-formed board the cells, read in row-major order, are the rows
    of the grid one after the other. *)
Lemma map_getPiece_cells b :
  wf_board b -> map (fun p => getPiece b p.1 p.2) (cells b) = concat (grid b).
Proof.
  intros Hwf. pose proof Hwf as (Hs & Hl & Hrows)%wf_board_spec.
  rewrite <- (map_seqZ_lookup [] (grid b)) at 1. rewrite <- bind_map_concat, Hl.
  unfold cells. rewrite map_bind. apply bind_ext_in. intros i Hi%elem_of_seqZ.
  rewrite map_bind.
  destruct (lookup_lt_is_Some_2 (grid b) (Z.to_nat i)) as [row Hrow]; [lia|].
  rewrite Hrow. simpl.
  assert (Hrl : Z.of_nat (length row) = size b)
    by (apply Hrows; eapply list_elem_of_lookup_2; exact Hrow).
  rewrite <- (map_seqZ_lookup EMPTY row) at 1. rewrite Hrl, bind_map_concat.
  transitivity (concat (map (fun j => [default EMPTY (row !! Z.to_nat j)]) (seqZ 0 (size b)))).
  - f_equal. apply map_ext_in. intros j Hj%list_elem_of_In%elem_of_seqZ. simpl.
    unfold getPiece. rewrite (proj2 (isValidBounds_spec b i j)) by lia.
    unfold grid_at. rewrite Hrow. reflexivity.
  - induction (seqZ 0 (size b)) as [|j l IH]; [reflexivity|]. simpl. rewrite IH. reflexivity.
Qed.

(** [countPieces] counts the cells of the board that hold [t]. *)
Lemma countPieces_cells b t :
  wf_board b ->
  countPieces b t = Z.of_nat (length (filter (fun p => getPiece b p.1 p.2 = t) (cells b))).
Proof.
  intros Hwf. rewrite countPieces_concat, <- (map_getPiece_cells b Hwf). unfold row_count.
  f_equal. induction (cells b) as [|p l IH]; [reflexivity|]. simpl map.
  destruct (decide (getPiece b p.1 p.2 = t)) as [E|E].
  - rewrite !filter_cons_True by exact E. simpl. f_equal. exact IH.
  - rewrite !filter_cons_False by exact E. exact IH.
Qed.

Lemma length_cells_wf b : wf_board b -> Z.of_nat (length (cells b)) = size b * size b.
Proof.
  intros (Hs & _)%wf_board_spec. unfold cells.
  rewrite (length_bind_const _ (Z.to_nat (size b))).
  - rewrite length_seqZ. lia.
  - intros i. rewrite (length_bind_const _ 1%nat) by reflexivity. rewrite length_seqZ. lia.
Qed.

(** Every cell of a board is empty, black or white. *)
Lemma countPieces_total (b : Board) :
  wf_board b ->
  countPieces b EMPTY + countPieces b BLACK + countPieces b WHITE = size b * size b.
Proof.
  intros Hwf. rewrite !countPieces_cells by exact Hwf. rewrite <- (length_cells_wf b Hwf).
  induction (cells b) as [|p l IH]; [reflexivity|].
  destruct (getPiece b p.1 p.2) eqn:E;
    repeat first [rewrite (filter_cons_True _ _ _) by (rewrite E; reflexivity)
                 |rewrite (filter_cons_False _ _ _) by (rewrite E; discriminate)];
    simpl length; lia.
Qed.

(** *** Counting under a change of the predicate *)

Lemma filter_length_ext {A : Type} (P Q : A -> Prop)
      {DP : forall a, Decision (P a)} {DQ : forall a, Decision (Q a)} (l : list A) :
  (forall q, q ∈ l -> P q <-> Q q) -> length (filter P l) = length (filter Q l).
Proof.
  induction l as [|q l IH]; intros H; [reflexivity|].
  assert (IH' : length (filter P l) = length (filter Q l))
    by (apply IH; intros q' Hq'; apply H; right; exact Hq').
  destruct (decide (P q)) as [Hp|Hp].
  - rewrite filter_cons_True by exact Hp.
    rewrite filter_cons_True by (apply (H q); [left|exact Hp]). simpl. lia.
  - rewrite filter_cons_False by exact Hp.
    rewrite filter_cons_False by (intros Hq; apply Hp, (H q); [left|exact Hq]). exact IH'.
Qed.

(** The predicates [P] and [Q] agree on [l] except perhaps at [a]. *)
Lemma filter_length_change {A : Type} `{!EqDecision A} (P Q : A -> Prop)
      {DP : forall a, Decision (P a)} {DQ : forall a, Decision (Q a)} (l : list A) (a : A) :
  NoDup l -> a ∈ l -> (forall q, q ∈ l -> q <> a -> P q <-> Q q) ->
  (length (filter P l) + (if decide (Q a) then 1 else 0)
   = length (filter Q l) + (if decide (P a) then 1 else 0))%nat.
Proof.
  induction l as [|q l IH]; intros Hnd Ha H; [inversion Ha|].
  apply NoDup_cons in Hnd as [Hq Hnd].
  destruct (decide (q = a)) as [->|Hne].
  - assert (E : length (filter P l) = length (filter Q l)).
    { apply filter_length_ext. intros q' Hq'. apply H; [right; exact Hq'|]. congruence. }
    destruct (decide (P a)) as [Hp|Hp]; destruct (decide (Q a)) as [Hq'|Hq'];
      repeat first [rewrite (filter_cons_True P) by assumption
                   |rewrite (filter_cons_True Q) by assumption
                   |rewrite (filter_cons_False P) by assumption
                   |rewrite (filter_cons_False Q) by assumption]; simpl; lia.
  - apply elem_of_cons in Ha as [Ha|Ha]; [congruence|].
    assert (IH' := IH Hnd Ha (fun q' Hq' => H q' (list_elem_of_further _ _ _ Hq'))).
    destruct (decide (P q)) as [Hp|Hp].
    + rewrite (filter_cons_True P) by assumption.
      rewrite (filter_cons_True Q) by (apply (H q); [left|assumption|assumption]).
      simpl. lia.
    + rewrite (filter_cons_False P) by assumption.
      rewrite (filter_cons_False Q) by (intros Hq'; apply Hp, (H q); [left|assumption|assumption]).
      lia.
Qed.

Lemma filter_length_le {A : Type} (P Q : A -> Prop)
      {DP : forall a, Decision (P a)} {DQ : forall a, Decision (Q a)} (l : list A) :
  (forall q, q ∈ l -> Q q -> P q) -> (length (filter Q l) <= length (filter P l))%nat.
Proof.
  induction l as [|q l IH]; intros H; [reflexivity|].
  assert (IH' := IH (fun q' Hq' => H q' (list_elem_of_further _ _ _ Hq'))).
  destruct (decide (Q q)) as [Hq|Hq].
  - rewrite (filter_cons_True Q) by assumption.
    rewrite (filter_cons_True P) by (apply (H q); [left|assumption]). simpl. lia.
  - rewrite (filter_cons_False Q) by assumption.
    destruct (decide (P q)) as [Hp|Hp].
    + rewrite (filter_cons_True P) by assumption. simpl. lia.
    + rewrite (filter_cons_False P) by assumption. lia.
Qed.

(** [Q] implies [P] on [l], and [a] of [l] satisfies [P] only. *)
Lemma filter_length_lt {A : Type} (P Q : A -> Prop)
      {DP : forall a, Decision (P a)} {DQ : forall a, Decision (Q a)} (l : list A) (a : A) :
  a ∈ l -> P a -> ~ Q a -> (forall q, q ∈ l -> Q q -> P q) ->
  (length (filter Q l) < length (filter P l))%nat.
Proof.
  induction l as [|q l IH]; intros Ha Hp Hq H; [inversion Ha|].
  assert (Hl : forall q', q' ∈ l -> Q q' -> P q')
    by (intros q' Hq'; apply H; right; exact Hq').
  apply elem_of_cons in Ha as [<-|Ha].
  - rewrite (filter_cons_True P) by assumption. rewrite (filter_cons_False Q) by assumption.
    pose proof (filter_length_le P Q l Hl). simpl. lia.
  - specialize (IH Ha Hp Hq Hl).
    destruct (decide (Q q)) as [Hq'|Hq'].
    + rewrite (filter_cons_True Q) by assumption.
      rewrite (filter_cons_True P) by (apply (H q); [left|assumption]). simpl. lia.
    + rewrite (filter_cons_False Q) by assumption.
      destruct (decide (P q)) as [Hp'|Hp'].
      * rewrite (filter_cons_True P) by assumption. simpl. lia.
      * rewrite (filter_cons_False P) by assumption. lia.
Qed.

Lemma cells_size b b' : size b' = size b -> cells b' = cells b.
Proof. unfold cells. intros ->. reflexivity. Qed.

(** X1.  The three counts are the numbers of cells holding each value and
    add up to the number of cells. *)
Theorem countPieces_partition (b : Board) (t : PieceType) :
  wf_board b ->
  countPieces b t = Z.of_nat (length (filter (fun p => getPiece b p.1 p.2 = t) (cells b))) /\
  0 <= countPieces b t <= size b * size b /\
  countPieces b EMPTY + countPieces b BLACK + countPieces b WHITE = size b * size b.
Proof.
  intros Hwf. split; [apply countPieces_cells; exact Hwf|].
  split; [|apply countPieces_total; exact Hwf].
  rewrite countPieces_cells by exact Hwf. rewrite <- (length_cells_wf b Hwf).
  pose proof (length_filter (fun p => getPiece b p.1 p.2 = t) (cells b)). lia.
Qed.

Lemma countPieces_store (b : Board) (x y : Z) (p t : PieceType) :
  wf_board b -> isValidBounds b x y = true ->
  countPieces (setPiece b x y p) t + (if decide (getPiece b x y = t) then 1 else 0)
  = countPieces b t + (if decide (p = t) then 1 else 0).
Proof.
  intros Hwf Hxy. rewrite !countPieces_cells by (try apply wf_setPiece; exact Hwf).
  rewrite (cells_size b (setPiece b x y p)) by apply size_setPiece.
  pose proof (filter_length_change
                (fun q => getPiece (setPiece b x y p) q.1 q.2 = t)
                (fun q => getPiece b q.1 q.2 = t) (cells b) (x, y) (NoDup_cells b)) as H.
  cbn [fst snd] in H. rewrite getPiece_setPiece_eq in H by assumption.
  destruct (decide (getPiece b x y = t)); destruct (decide (p = t));
    (lapply H; [clear H; intros H|apply elem_of_cells; exact Hxy]);
    (lapply H; [clear H; intros H; lia|]);
    intros q _ Hq; rewrite getPiece_setPiece_ne by (destruct q; exact Hq); reflexivity.
Qed.

(** X2.  Storing [p] in a cell of the board moves one unit from the count of
    the value the cell held to the count of [p]; outside the board nothing is
    stored. *)
Theorem countPieces_setPiece (b : Board) (x y : Z) (p t : PieceType) :
  wf_board b ->
  countPieces (setPiece b x y p) t =
    if isValidBounds b x y
    then countPieces b t + (if decide (p = t) then 1 else 0)
         - (if decide (getPiece b x y = t) then 1 else 0)
    else countPieces b t.
Proof.
  intros Hwf. destruct (isValidBounds b x y) eqn:Hxy.
  - pose proof (countPieces_store b x y p t Hwf Hxy). lia.
  - unfold setPiece. rewrite Hxy. reflexivity.
Qed.
Lemma two_colors p c : p <> EMPTY -> c <> EMPTY -> c <> getOpponent p -> c = p.
Proof. unfold getOpponent. destruct p, c; simpl; congruence. Qed.
End BoardCounting.

(** ** Flip-Capture: legal moves and flips *)

Section ReversiMoves.
Import Reversi.

(** The table of the program lists the eight directions, all of them and
    nothing else. *)
Lemma direction_dirs8 d : direction d <-> d ∈ dirs8.
Proof.
  destruct d as [dx dy]. unfold direction, dirs8. cbn [fst snd]. split.
  - intros (Hx & Hy & Hne).
    assert (Hc : (dx = 0 /\ dy = 1) \/ (dx = 0 /\ dy = -1) \/ (dx = 1 /\ dy = 0) \/
                 (dx = -1 /\ dy = 0) \/ (dx = 1 /\ dy = 1) \/ (dx = 1 /\ dy = -1) \/
                 (dx = -1 /\ dy = 1) \/ (dx = -1 /\ dy = -1)).
    { destruct (decide (dx = 0)) as [->|]; [|lia].
      destruct (decide (dy = 0)) as [->|]; [contradiction|lia]. }
    destruct Hc as [[-> ->]|[[-> ->]|[[-> ->]|[[-> ->]|[[-> ->]|[[-> ->]|[[-> ->]|[-> ->]]]]]]]];
      set_solver.
  - intros Hd.
    repeat (apply elem_of_cons in Hd as [E|Hd];
            [injection E as -> ->; repeat split; try lia; discriminate|]).
    inversion Hd.
Qed.

(** Bracketing in one of the eight directions is bracketing along an entry
    of the table. *)
Lemma brackets_dirs8 b x y player :
  (exists d k, direction d /\ brackets b x y d player k) <->
  (exists d k, d ∈ dirs8 /\ brackets b x y d player k).
Proof.
  split; intros (d & k & Hd & Hk); exists d, k; (split; [apply direction_dirs8; exact Hd|exact Hk]).
Qed.

(** Storing [c] in the cells [f k], for [k] in [ks]. *)
Lemma getPiece_fold_setPiece (f : Z -> Point) (c : PieceType) (ks : list Z) : forall b q,
  wf_board b -> (forall k, k ∈ ks -> isValidBounds b (f k).1 (f k).2 = true) ->
  let b' := fold_left (fun b k => setPiece b (f k).1 (f k).2 c) ks b in
  size b' = size b /\ wf_board b' /\
  getPiece b' q.1 q.2 = if decide (q ∈ map f ks) then c else getPiece b q.1 q.2.
Proof.
  induction ks as [|k ks IH]; intros b q Hwf Hks; simpl.
  - split; [reflexivity|]. split; [assumption|].
    destruct (decide (q ∈ [])) as [H|_]; [inversion H|reflexivity].
  - destruct (IH (setPiece b (f k).1 (f k).2 c) q) as (Hs & Hwf' & Hq).
    + apply wf_setPiece; assumption.
    + intros k' Hk'. rewrite isValidBounds_setPiece. apply Hks. right. assumption.
    + split; [rewrite Hs; apply size_setPiece|]. split; [assumption|]. rewrite Hq.
      destruct (decide (q ∈ map f ks)) as [Hin|Hin].
      * rewrite decide_True; [reflexivity|right; assumption].
      * destruct (decide (q = f k)) as [->|Hne].
        -- rewrite decide_True by left. apply getPiece_setPiece_eq; [assumption|]. apply Hks. left.
        -- rewrite decide_False by (intros [?|?]%elem_of_cons; contradiction).
           apply getPiece_setPiece_ne. destruct (f k), q; simpl. congruence.
Qed.

Lemma ray_in_bounds b x y d j :
  d ∈ dirs8 -> isValidBounds b x y = true -> 1 <= j ->
  isValidBounds b (ray x y d j).1 (ray x y d j).2 = true -> j < size b.
Proof.
  intros Hd Hxy Hj Hr. apply isValidBounds_spec in Hxy, Hr. unfold ray in Hr. simpl in Hr.
  unfold dirs8 in Hd. repeat (apply elem_of_cons in Hd as [->|Hd]; [simpl in Hr; lia|]).
  inversion Hd.
Qed.

(** Two rays from the same cell meet only if they have the same direction. *)
Lemma ray_disjoint x y d d' i j :
  d ∈ dirs8 -> d' ∈ dirs8 -> 1 <= i -> 1 <= j -> ray x y d i = ray x y d' j -> d = d'.
Proof.
  intros Hd Hd' Hi Hj E. unfold ray in E. injection E as E1 E2.
  unfold dirs8 in Hd, Hd'.
  repeat (apply elem_of_cons in Hd as [->|Hd]);
    repeat (apply elem_of_cons in Hd' as [->|Hd']);
    simpl in *; try reflexivity; try lia; try (inversion Hd); try (inversion Hd').
Qed.

Lemma ray_not_origin x y d i : d ∈ dirs8 -> 1 <= i -> ray x y d i <> (x, y).
Proof.
  intros Hd Hi E. unfold ray in E. injection E as E1 E2. unfold dirs8 in Hd.
  repeat (apply elem_of_cons in Hd as [->|Hd]; [simpl in *; lia|]). inversion Hd.
Qed.

(** [seqZ 1 (k - 1)] holds the steps strictly between 0 and [k]. *)
Lemma elem_of_run_steps x y d k q :
  q ∈ map (ray x y d) (seqZ 1 (k - 1)) <-> exists i, 1 <= i < k /\ q = ray x y d i.
Proof.
  rewrite list_elem_of_In, in_map_iff. split.
  - intros (i & <- & Hi). apply list_elem_of_In, elem_of_seqZ in Hi.
    exists i. split; [lia|reflexivity].
  - intros (i & Hi & ->). exists i. split; [reflexivity|].
    apply list_elem_of_In, elem_of_seqZ. lia.
Qed.

Section Direction.
Variable b : Board.
Variables x y : Z.
Variable d : Z * Z.
Variable player : PieceType.
Variable flip : bool.
Hypothesis Hd : d ∈ dirs8.
Hypothesis Hxy : isValidBounds b x y = true.
Hypothesis Hplayer : player <> EMPTY.


Lemma checkDirection_loop_spec fuel : forall i h,
  1 <= i -> size b + 2 - i <= Z.of_nat fuel ->
  (forall j, 1 <= j < i -> on_board b (getOpponent player) (ray x y d j)) ->
  h = (1 <? i) ->
  (exists k, brackets b x y d player k /\
             checkDirection_loop fuel b x y d.1 d.2 player flip i h = Some (true, after_flip b x y d player flip k))
  \/ ((forall k, ~ brackets b x y d player k) /\
      checkDirection_loop fuel b x y d.1 d.2 player flip i h = Some (false, b)).
Proof.
  assert (Hopp : getOpponent player <> EMPTY) by apply getOpponent_stone.
  assert (Hne : getOpponent player <> player) by (apply getOpponent_ne; exact Hplayer).
  induction fuel as [|fuel IH]; intros i h Hi Hfuel Hrun Hh.
  { exfalso. apply isValidBounds_spec in Hxy as Hsz.
    destruct (decide (i = 1)) as [->|Hi1]; [lia|].
    destruct (Hrun (i - 1) ltac:(lia)) as [Hb _].
    pose proof (ray_in_bounds b x y d (i - 1) Hd Hxy ltac:(lia) Hb). lia. }
  cbn [checkDirection_loop].
  change (x + i * d.1) with (ray x y d i).1. change (y + i * d.2) with (ray x y d i).2.
  assert (Hnone : ~ on_board b player (ray x y d i) ->
                  ~ on_board b (getOpponent player) (ray x y d i) ->
                  forall k, ~ brackets b x y d player k).
  { intros Hnp Hno k (Hk & Hrun' & Hend).
    destruct (Z.lt_trichotomy k i) as [Hlt|[->|Hgt]].
    - destruct (Hrun k ltac:(lia)) as [_ E1]. destruct Hend as [_ E2]. congruence.
    - contradiction.
    - apply Hno, Hrun'. lia. }
  destruct (isValidBounds b (ray x y d i).1 (ray x y d i).2) eqn:Hb; cbn [negb].
  2:{ right. split; [|reflexivity]. apply Hnone; intros [Hb' _]; congruence. }
  destruct (decide (getPiece b (ray x y d i).1 (ray x y d i).2 = EMPTY)) as [He|He].
  { right. split; [|reflexivity]. apply Hnone; intros [_ E]; congruence. }
  destruct (decide (getPiece b (ray x y d i).1 (ray x y d i).2 = getOpponent player)) as [Ho|Ho].
  { apply IH; [lia|lia| |symmetry; apply Z.ltb_lt; lia].
    intros j Hj. destruct (decide (j = i)) as [->|Hji]; [split; assumption|]. apply Hrun. lia. }
  destruct (decide (getPiece b (ray x y d i).1 (ray x y d i).2 = player)) as [Hp|Hp].
  2:{ exfalso. apply Hp. apply two_colors; assumption. }
  subst h. destruct (1 <? i) eqn:Hi1.
  - apply Z.ltb_lt in Hi1. left. exists i. split.
    + split; [lia|]. split; [exact Hrun|]. split; assumption.
    + unfold after_flip. destruct flip; reflexivity.
  - apply Z.ltb_ge in Hi1. assert (i = 1) as -> by lia. right. split; [|reflexivity].
    intros k (Hk & Hrun' & _). destruct (Hrun' 1 ltac:(lia)) as [_ E]. congruence.
Qed.

Lemma checkDirection_spec :
  (exists k, brackets b x y d player k /\
             checkDirection b x y d.1 d.2 player flip = Some (true, after_flip b x y d player flip k))
  \/ ((forall k, ~ brackets b x y d player k) /\
      checkDirection b x y d.1 d.2 player flip = Some (false, b)).
Proof.
  unfold checkDirection. apply checkDirection_loop_spec; try reflexivity; lia.
Qed.
End Direction.

Lemma brackets_unique b x y d player k k' :
  player <> EMPTY -> brackets b x y d player k -> brackets b x y d player k' -> k = k'.
Proof.
  intros Hp (Hk & Hrun & Hend) (Hk' & Hrun' & Hend').
  pose proof (getOpponent_ne player Hp) as Hne.
  destruct (Z.lt_trichotomy k k') as [Hlt|[->|Hgt]]; [exfalso|reflexivity|exfalso].
  - destruct (Hrun' k ltac:(lia)) as [_ E1]. destruct Hend as [_ E2]. congruence.
  - destruct (Hrun k' ltac:(lia)) as [_ E1]. destruct Hend' as [_ E2]. congruence.
Qed.

Lemma isValidMove_loop_spec b x y player ds :
  player <> EMPTY -> isValidBounds b x y = true -> (forall d, d ∈ ds -> d ∈ dirs8) ->
  exists r, isValidMove_loop b x y player ds = Some r /\
            (r = true <-> exists d k, d ∈ ds /\ brackets b x y d player k).
Proof.
  intros Hp Hxy. induction ds as [|d ds IH]; intros Hds; simpl.
  - exists false. split; [reflexivity|]. split; [discriminate|].
    intros (d & k & Hd & _). inversion Hd.
  - destruct (checkDirection_spec b x y d player false (Hds d ltac:(left)) Hxy Hp)
      as [(k & Hk & ->)|(Hno & ->)].
    + exists true. split; [reflexivity|]. split; [|reflexivity].
      intros _. exists d, k. split; [left|assumption].
    + destruct IH as (r & -> & Hr); [intros d' Hd'; apply Hds; right; assumption|].
      exists r. split; [reflexivity|]. rewrite Hr. split.
      * intros (d' & k & Hd' & Hk). exists d', k. split; [right|]; assumption.
      * intros (d' & k & Hd' & Hk). apply elem_of_cons in Hd' as [->|Hd'].
        -- exfalso. exact (Hno k Hk).
        -- exists d', k. split; assumption.
Qed.

Lemma isValidMove_true_intro b x y player :
  player <> EMPTY -> isValidBounds b x y = true -> getPiece b x y = EMPTY ->
  (exists d k, d ∈ dirs8 /\ brackets b x y d player k) ->
  isValidMove b x y player = Some true.
Proof.
  intros Hp Hxy He Hex. unfold isValidMove. rewrite Hxy. cbn [negb orb].
  rewrite bool_decide_eq_true_2 by exact He. cbn [negb].
  destruct (isValidMove_loop_spec b x y player dirs8 Hp Hxy ltac:(auto)) as (r & -> & Hr).
  f_equal. apply Hr. destruct Hex as (d & k & Hd & Hk). exists d, k. auto.
Qed.

Lemma reversi_isValidMove_total b x y player :
  player <> EMPTY -> exists r, isValidMove b x y player = Some r.
Proof.
  intros Hp. unfold isValidMove.
  destruct (isValidBounds b x y) eqn:Hxy; cbn [negb orb]; [|eauto].
  destruct (negb _); [eauto|].
  destruct (isValidMove_loop_spec b x y player dirs8 Hp Hxy ltac:(auto)) as (r & -> & _). eauto.
Qed.

(** X3.  A move is legal exactly on an empty cell of the board from which
    some direction holds a run of opponent stones closed by an own stone. *)
Theorem reversi_isValidMove_brackets b x y player :
  player <> EMPTY ->
  exists r, isValidMove b x y player = Some r /\
            (r = true <->
             isValidBounds b x y = true /\ getPiece b x y = EMPTY /\
             exists d k, direction d /\ brackets b x y d player k).
Proof.
  intros Hp. unfold isValidMove.
  destruct (isValidBounds b x y) eqn:Hxy; cbn [negb orb].
  2:{ exists false. split; [reflexivity|]. split; [discriminate|]. intros [? _]. discriminate. }
  destruct (bool_decide_reflect (getPiece b x y = EMPTY)) as [He|He]; cbn [negb].
  2:{ exists false. split; [reflexivity|]. split; [discriminate|]. intros (_ & ? & _). contradiction. }
  destruct (isValidMove_loop_spec b x y player dirs8 Hp Hxy ltac:(auto)) as (r & -> & Hr).
  exists r. split; [reflexivity|]. rewrite Hr, brackets_dirs8. tauto.
Qed.

Section Move.
Variable b : Board.
Variables x y : Z.
Variable player : PieceType.
Hypothesis Hxy : isValidBounds b x y = true.
Hypothesis Hplayer : player <> EMPTY.

Lemma on_board_other bi ds d c j :
  move_inv b x y player ds bi -> d ∈ dirs8 -> d ∉ ds -> (forall d', d' ∈ ds -> d' ∈ dirs8) -> 1 <= j ->
  on_board bi c (ray x y d j) <-> on_board b c (ray x y d j).
Proof.
  intros (_ & Hs & _ & _ & Hq) Hd Hnd Hds Hj.
  assert (E : getPiece bi (ray x y d j).1 (ray x y d j).2 = getPiece b (ray x y d j).1 (ray x y d j).2).
  { destruct (Hq (ray x y d j)) as [E|[(d' & k & i & Hd' & _ & Hi & E)|E]].
    - exfalso. exact (ray_not_origin x y d j Hd Hj E).
    - exfalso. apply Hnd. rewrite (ray_disjoint x y d d' j i); auto. lia.
    - exact E. }
  unfold on_board. rewrite E. unfold isValidBounds. rewrite Hs. reflexivity.
Qed.

Lemma brackets_other bi ds d k :
  move_inv b x y player ds bi -> d ∈ dirs8 -> d ∉ ds -> (forall d', d' ∈ ds -> d' ∈ dirs8) ->
  brackets bi x y d player k <-> brackets b x y d player k.
Proof.
  intros Hinv Hd Hnd Hds.
  assert (Hob : forall c j, 1 <= j -> on_board bi c (ray x y d j) <-> on_board b c (ray x y d j)).
  { intros c j Hj. apply (on_board_other bi ds); assumption. }
  unfold brackets. split.
  - intros (Hk & Hrun & Hend). split; [assumption|]. split.
    + intros i Hi. apply Hob; [lia|]. apply Hrun; assumption.
    + apply Hob; [lia|assumption].
  - intros (Hk & Hrun & Hend). split; [assumption|]. split.
    + intros i Hi. apply Hob; [lia|]. apply Hrun; assumption.
    + apply Hob; [lia|assumption].
Qed.

Lemma move_inv_step bi ds d :
  move_inv b x y player ds bi -> d ∈ dirs8 -> d ∉ ds -> (forall d', d' ∈ ds -> d' ∈ dirs8) ->
  exists r b', checkDirection bi x y d.1 d.2 player true = Some (r, b') /\
               move_inv b x y player (ds ++ [d]) b'.
Proof.
  intros Hinv Hd Hnd Hds.
  pose proof Hinv as (Hwfi & Hs & Ho & Hdone & Hq).
  assert (Hxyi : isValidBounds bi x y = true).
  { unfold isValidBounds. rewrite Hs. exact Hxy. }
  destruct (checkDirection_spec bi x y d player true Hd Hxyi Hplayer)
    as [(k & Hk & E)|(Hno & E)]; rewrite E.
  - exists true, (after_flip bi x y d player true k). split; [reflexivity|].
    pose proof Hk as (Hk2 & Hrun & Hend).
    assert (Hfold : forall q,
      size (after_flip bi x y d player true k) = size bi /\
      wf_board (after_flip bi x y d player true k) /\
      getPiece (after_flip bi x y d player true k) q.1 q.2 =
        if decide (q ∈ map (ray x y d) (seqZ 1 (k - 1))) then player else getPiece bi q.1 q.2).
    { intros q. apply (getPiece_fold_setPiece (ray x y d) player (seqZ 1 (k - 1)) bi q Hwfi).
      intros j Hj%elem_of_seqZ. apply (Hrun j). lia. }
    apply (brackets_other bi ds) in Hk; auto.
    split; [apply (Hfold (x, y))|]. split; [rewrite <- Hs; apply (Hfold (x, y))|].
    split; [|split].
    + destruct (Hfold (x, y)) as (_ & _ & E1). cbn [fst snd] in E1. rewrite E1.
      destruct (decide _); [reflexivity|exact Ho].
    + intros d' k' i Hd' Hk' Hi. destruct (Hfold (ray x y d' i)) as (_ & _ & ->).
      destruct (decide _) as [Hin|Hin]; [reflexivity|].
      apply elem_of_app in Hd' as [Hd'|Hd']; [apply (Hdone d' k' i); assumption|].
      apply list_elem_of_singleton in Hd'. subst d'.
      exfalso. apply Hin. apply elem_of_run_steps. exists i. split; [|reflexivity].
      rewrite (brackets_unique b x y d player k k' Hplayer Hk Hk'). assumption.
    + intros q. destruct (Hfold q) as (_ & _ & ->).
      destruct (decide _) as [Hin|Hin].
      * right. left. apply elem_of_run_steps in Hin as (i & Hi & ->).
        exists d, k, i. split; [apply elem_of_app; right; left|]. auto.
      * destruct (Hq q) as [E1|[(d' & k' & i & Hd' & Hk' & Hi & E1)|E1]]; auto.
        right. left. exists d', k', i. split; [apply elem_of_app; left; assumption|]. auto.
  - exists false, bi. split; [reflexivity|].
    split; [assumption|]. split; [assumption|]. split; [assumption|]. split.
    + intros d' k' i Hd' Hk' Hi.
      apply elem_of_app in Hd' as [Hd'|Hd']; [apply (Hdone d' k' i); assumption|].
      apply list_elem_of_singleton in Hd'. subst d'.
      exfalso. apply (Hno k'). apply (brackets_other bi ds); assumption.
    + intros q. destruct (Hq q) as [E1|[(d' & k' & i & Hd' & Hk' & Hi & E1)|E1]]; auto.
      right. left. exists d', k', i. split; [apply elem_of_app; left; assumption|]. auto.
Qed.

Lemma move_inv_loop ds2 : forall ds1 bi,
  NoDup (ds1 ++ ds2) -> (forall d, d ∈ ds1 ++ ds2 -> d ∈ dirs8) -> move_inv b x y player ds1 bi ->
  exists b', for_each (fun d b => match checkDirection b x y d.1 d.2 player true with
                                  | Some (_, b') => Some b'
                                  | None => None
                                  end) ds2 bi = Some b' /\
             move_inv b x y player (ds1 ++ ds2) b'.
Proof.
  induction ds2 as [|d ds2 IH]; intros ds1 bi Hnd Hds Hinv; simpl.
  - exists bi. rewrite app_nil_r. auto.
  - destruct (move_inv_step bi ds1 d Hinv) as (r & b' & -> & Hinv').
    + apply Hds. apply elem_of_app. right. left.
    + apply NoDup_app in Hnd as (_ & Hnd & _). intros Hin. apply (Hnd d Hin). left.
    + intros d' Hd'. apply Hds. apply elem_of_app. left. assumption.
    + replace (ds1 ++ d :: ds2) with ((ds1 ++ [d]) ++ ds2) in * by (rewrite <- app_assoc; reflexivity).
      apply IH; assumption.
Qed.
End Move.

Lemma NoDup_dirs8 : NoDup dirs8.
Proof. apply NoDup_ListNoDup. unfold dirs8. repeat constructor; simpl; intuition congruence. Qed.

Lemma makeMove_inv b x y player :
  wf_board b -> isValidBounds b x y = true -> player <> EMPTY ->
  exists b', makeMove b x y player = Some b' /\ move_inv b x y player dirs8 b'.
Proof.
  intros Hwf Hxy Hp. unfold makeMove.
  assert (Hnp : (x =? -1) && (y =? -1) = false).
  { apply isValidBounds_spec in Hxy. apply andb_false_iff. left. apply Z.eqb_neq. lia. }
  rewrite Hnp.
  apply (move_inv_loop b x y player Hxy Hp dirs8 [] (setPiece b x y player)).
  - apply NoDup_dirs8.
  - auto.
  - split; [apply wf_setPiece; assumption|]. split; [apply size_setPiece|].
    split; [apply getPiece_setPiece_eq; assumption|]. split.
    + intros d k i Hd. inversion Hd.
    + intros q. destruct (decide (q = (x, y))) as [E|E]; [left; assumption|].
      right. right. apply getPiece_setPiece_ne. destruct q. assumption.
Qed.

(** X4.  A move turns exactly the bracketed runs. *)
Theorem reversi_makeMove_flips b x y player :
  wf_board b -> isValidBounds b x y = true -> player <> EMPTY ->
  exists b', makeMove b x y player = Some b' /\
    wf_board b' /\ size b' = size b /\
    forall q,
      (q = (x, y) \/ flipped b x y player q -> getPiece b' q.1 q.2 = player) /\
      (q <> (x, y) -> ~ flipped b x y player q -> getPiece b' q.1 q.2 = getPiece b q.1 q.2).
Proof.
  intros Hwf Hxy Hp.
  destruct (makeMove_inv b x y player Hwf Hxy Hp) as (b' & E & Hwf' & Hs & Ho & Hdone & Hq).
  exists b'. split; [assumption|]. split; [assumption|]. split; [assumption|].
  intros q. split.
  - intros [->|(d & k & i & Hd%direction_dirs8 & Hk & Hi & ->)]; [exact Ho|].
    apply (Hdone d k i); assumption.
  - intros Hne Hnf. destruct (Hq q) as [E1|[(d & k & i & Hd & Hk & Hi & E1)|E1]].
    + contradiction.
    + exfalso. apply Hnf. exists d, k, i. split; [apply direction_dirs8; exact Hd|]. auto.
    + exact E1.
Qed.

Lemma isValidMove_true_inv b x y player :
  player <> EMPTY -> isValidMove b x y player = Some true ->
  isValidBounds b x y = true /\ getPiece b x y = EMPTY /\
  exists d k, d ∈ dirs8 /\ brackets b x y d player k.
Proof.
  intros Hp. unfold isValidMove.
  destruct (isValidBounds b x y) eqn:Hxy; cbn [negb orb]; [|discriminate].
  destruct (bool_decide_reflect (getPiece b x y = EMPTY)) as [He|He]; cbn [negb]; [|discriminate].
  destruct (isValidMove_loop_spec b x y player dirs8 Hp Hxy ltac:(auto)) as (r & -> & Hr).
  intros [= ->]. split; [reflexivity|]. split; [assumption|]. apply Hr. reflexivity.
Qed.

(** X5.  A legal move fills one empty cell and takes at least one stone from
    the opponent. *)
Theorem reversi_makeMove_counts b x y player :
  wf_board b -> player <> EMPTY -> isValidMove b x y player = Some true ->
  exists b', makeMove b x y player = Some b' /\
    countPieces b' EMPTY = countPieces b EMPTY - 1 /\
    countPieces b' (getOpponent player) < countPieces b (getOpponent player) /\
    countPieces b' player + countPieces b' (getOpponent player)
    = countPieces b player + countPieces b (getOpponent player) + 1.
Proof.
  intros Hwf Hp Hv.
  destruct (isValidMove_true_inv b x y player Hp Hv) as (Hxy & He & d & k & Hd & Hk).
  destruct (makeMove_inv b x y player Hwf Hxy Hp) as (b' & E & Hwf' & Hs & Ho & Hdone & Hq).
  exists b'. split; [assumption|].
  pose proof (getOpponent_stone player) as Hos.
  pose proof (getOpponent_ne player Hp) as Hon.
  assert (Hflip : forall d k i, d ∈ dirs8 -> brackets b x y d player k -> 1 <= i < k ->
                  getPiece b (ray x y d i).1 (ray x y d i).2 = getOpponent player).
  { intros d' k' i _ (_ & Hrun & _) Hi. apply (Hrun i Hi). }
  assert (Hempty : countPieces b' EMPTY = countPieces b EMPTY - 1).
  { rewrite !countPieces_cells by assumption. rewrite (cells_size b b' Hs).
    pose proof (filter_length_change
                  (fun q => getPiece b' q.1 q.2 = EMPTY)
                  (fun q => getPiece b q.1 q.2 = EMPTY) (cells b) (x, y) (NoDup_cells b)) as H.
    cbn [fst snd] in H. rewrite decide_True in H by exact He.
    rewrite decide_False in H by congruence.
    lapply H; [clear H; intros H|apply elem_of_cells; exact Hxy].
    lapply H; [clear H; intros H; lia|].
    intros q _ Hne. destruct (Hq q) as [E1|[(d' & k' & i & Hd' & Hk' & Hi & ->)|E1]].
    - contradiction.
    - rewrite (Hdone d' k' i), (Hflip d' k' i) by assumption. split; congruence.
    - rewrite E1. reflexivity. }
  assert (Hopp : countPieces b' (getOpponent player) < countPieces b (getOpponent player)).
  { rewrite !countPieces_cells by assumption. rewrite (cells_size b b' Hs).
    apply inj_lt.
    apply (filter_length_lt (fun q => getPiece b q.1 q.2 = getOpponent player)
                            (fun q => getPiece b' q.1 q.2 = getOpponent player)
                            (cells b) (ray x y d 1)).
    - apply elem_of_cells. destruct Hk as (Hk2 & Hrun & _). apply (Hrun 1). lia.
    - apply (Hflip d k 1); [assumption|assumption|]. destruct Hk. lia.
    - rewrite (Hdone d k 1); [congruence|assumption|assumption|]. destruct Hk. lia.
    - intros q _. destruct (Hq q) as [->|[(d' & k' & i & Hd' & Hk' & Hi & ->)|E1]].
      + cbn [fst snd]. rewrite Ho. congruence.
      + rewrite (Hdone d' k' i) by assumption. congruence.
      + rewrite E1. auto. }
  split; [exact Hempty|]. split; [exact Hopp|].
  pose proof (countPieces_total b Hwf) as T. pose proof (countPieces_total b' Hwf') as T'.
  rewrite Hs in T'. unfold getOpponent in *. destruct player; simpl in *; try congruence; lia.
Qed.

Lemma hasValidMove_loop_spec (b : Board) player cs :
  player <> EMPTY ->
  exists r, hasValidMove_loop b player cs = Some r /\
            (r = true <-> exists p, p ∈ cs /\ isValidMove b p.1 p.2 player = Some true).
Proof.
  intros Hp. induction cs as [|p cs IH]; simpl.
  - exists false. split; [reflexivity|]. split; [discriminate|]. intros (p & Hin & _). inversion Hin.
  - destruct (reversi_isValidMove_total b p.1 p.2 player Hp) as ([|] & E); rewrite E.
    + exists true. split; [reflexivity|]. split; [|reflexivity]. intros _. exists p. split; [left|assumption].
    + destruct IH as (r & -> & Hr). exists r. split; [reflexivity|]. rewrite Hr. split.
      * intros (p' & Hin & Hv). exists p'. split; [right|]; assumption.
      * intros (p' & Hin & Hv). apply elem_of_cons in Hin as [->|Hin]; [congruence|].
        exists p'. split; assumption.
Qed.

(** X6.  A player can move exactly when some empty cell of the board is
    followed, in some direction, by a run of opponent stones closed by an own
    stone. *)
Theorem reversi_hasValidMove_brackets (b : Board) player :
  player <> EMPTY ->
  exists r, hasValidMove b player = Some r /\
            (r = true <->
             exists x y d k, isValidBounds b x y = true /\ getPiece b x y = EMPTY /\
                             direction d /\ brackets b x y d player k).
Proof.
  intros Hp. unfold hasValidMove.
  destruct (hasValidMove_loop_spec b player (cells b) Hp) as (r & -> & Hr).
  exists r. split; [reflexivity|]. rewrite Hr. split.
  - intros ([x y] & _ & Hv). apply isValidMove_true_inv in Hv as (Hxy & He & d & k & Hd & Hk); [|exact Hp].
    exists x, y, d, k. apply direction_dirs8 in Hd. auto.
  - intros (x & y & d & k & Hxy & He & Hd%direction_dirs8 & Hk). exists (x, y).
    split; [apply elem_of_cells; exact Hxy|].
    apply isValidMove_true_intro; [assumption..|]. exists d, k. auto.
Qed.

End ReversiMoves.

(** ** Placement-Five: draws, the two versions, the effect of a move *)

Section GomokuOutcomes.
Import Gomoku.

Lemma has_empty_spec b :
  has_empty b = true <->
  exists p, isValidBounds b p.1 p.2 = true /\ getPiece b p.1 p.2 = EMPTY.
Proof.
  unfold has_empty. rewrite existsb_exists. split.
  - intros (p & Hin & Hp). exists p. split.
    + apply elem_of_cells, list_elem_of_In. exact Hin.
    + apply bool_decide_eq_true in Hp. exact Hp.
  - intros (p & Hb & Hp). exists p. split.
    + apply list_elem_of_In, elem_of_cells. exact Hb.
    + apply bool_decide_eq_true. exact Hp.
Qed.

Lemma board_full_fold b l : forall full,
  fold_left (fun full p => if decide (getPiece b p.1 p.2 = EMPTY) then false else full) l full
  = full && negb (existsb (fun p => bool_decide (getPiece b p.1 p.2 = EMPTY)) l).
Proof.
  induction l as [|p l IH]; intros full; simpl.
  - rewrite andb_true_r. reflexivity.
  - rewrite IH. destruct (decide (getPiece b p.1 p.2 = EMPTY)) as [E|E].
    + rewrite (bool_decide_eq_true_2 _ E). simpl. rewrite andb_false_r. reflexivity.
    + rewrite (bool_decide_eq_false_2 _ E). reflexivity.
Qed.

Lemma board_full_has_empty b : board_full b = negb (has_empty b).
Proof. unfold board_full, has_empty. rewrite board_full_fold. reflexivity. Qed.

(** X8.  The two versions of the win test agree. *)
Theorem gomoku_checkWin_versions_agree (b : Board) (x y : Z) :
  checkWin_HW1 b x y = Gomoku.checkWin b x y.
Proof.
  unfold checkWin_HW1, checkWin. rewrite board_full_has_empty.
  destruct ((x =? -1) && (y =? -1)); [reflexivity|].
  destruct (decide (getPiece b x y = EMPTY)); [reflexivity|].
  destruct (axes_loop b x y (getPiece b x y) directions); [reflexivity|].
  destruct (has_empty b); reflexivity.
Qed.

Lemma stone_not_pass (b : Board) x y :
  getPiece b x y <> EMPTY -> (x =? -1) && (y =? -1) = false.
Proof.
  intros Hc. destruct (isValidBounds b x y) eqn:Hb.
  - apply isValidBounds_spec in Hb. apply andb_false_iff. left. apply Z.eqb_neq. lia.
  - unfold getPiece in Hc. rewrite Hb in Hc. congruence.
Qed.

Lemma win_of_neither c : win_of c <> PLAYING /\ win_of c <> DRAW.
Proof. unfold win_of. destruct (decide (c = BLACK)); split; discriminate. Qed.

(** X7.  Without five in a row through the last stone, the game is drawn
    exactly when no cell of the board is empty, and goes on otherwise. *)
Theorem gomoku_checkWin_draw (b : Board) (x y : Z) (c : PieceType) :
  getPiece b x y = c -> c <> EMPTY ->
  (Gomoku.checkWin b x y = DRAW <->
   ~ five_in_row b x y c /\
   forall p, isValidBounds b p.1 p.2 = true -> getPiece b p.1 p.2 <> EMPTY) /\
  (Gomoku.checkWin b x y = PLAYING <->
   ~ five_in_row b x y c /\
   exists p, isValidBounds b p.1 p.2 = true /\ getPiece b p.1 p.2 = EMPTY).
Proof.
  intros Hc Hne. unfold checkWin.
  rewrite (stone_not_pass b x y) by congruence. rewrite Hc.
  destruct (decide (c = EMPTY)) as [|_]; [contradiction|].
  pose proof (axes_loop_spec b x y c directions Hc) as Hloop.
  destruct (win_of_neither c) as [Hw1 Hw2].
  destruct (axes_loop b x y c directions) as [s|].
  - destruct Hloop as (-> & Hfive%five_in_row_directions).
    split; (split; [intros E; congruence|intros [Hn _]; exfalso; apply Hn; exact Hfive]).
  - assert (Hno : ~ five_in_row b x y c).
    { intros (dir & lo & hi & Hd & Hr & H5)%five_in_row_directions.
      specialize (Hloop dir lo hi Hd Hr). lia. }
    destruct (has_empty b) eqn:He.
    + apply has_empty_spec in He as (p & Hb & Hp). split.
      * split; [discriminate|]. intros [_ Hall]. exfalso. exact (Hall p Hb Hp).
      * split; [|reflexivity]. intros _. split; [exact Hno|]. exists p. auto.
    + split.
      * split; [|reflexivity]. intros _. split; [exact Hno|]. intros p Hb Hp.
        assert (has_empty b = true) by (apply has_empty_spec; exists p; auto). congruence.
      * split; [discriminate|]. intros (_ & p & Hb & Hp).
        assert (has_empty b = true) by (apply has_empty_spec; exists p; auto). congruence.
Qed.

Lemma gomoku_checkWin_cases (b : Board) x y c :
  getPiece b x y = c -> c <> EMPTY ->
  Gomoku.checkWin b x y = win_of c \/ Gomoku.checkWin b x y = PLAYING \/
  Gomoku.checkWin b x y = DRAW.
Proof.
  intros Hc Hne. unfold checkWin.
  rewrite (stone_not_pass b x y) by congruence. rewrite Hc.
  destruct (decide (c = EMPTY)) as [|_]; [contradiction|].
  pose proof (axes_loop_spec b x y c directions Hc) as Hloop.
  destruct (axes_loop b x y c directions) as [s|].
  - left. apply Hloop.
  - destruct (has_empty b); auto.
Qed.

(** X9.  A legal move puts one stone of the player on an empty cell; the win
    test on that cell then never announces the opponent, and the cell is no
    longer playable. *)
Theorem gomoku_move_outcome (b : Board) (x y : Z) (player : PieceType) :
  wf_board b -> player <> EMPTY -> Gomoku.isValidMove b x y player = true ->
  let b' := Gomoku.makeMove b x y player in
  getPiece b' x y = player /\
  (forall q, q <> (x, y) -> getPiece b' q.1 q.2 = getPiece b q.1 q.2) /\
  countPieces b' player = countPieces b player + 1 /\
  countPieces b' EMPTY = countPieces b EMPTY - 1 /\
  Gomoku.checkWin b' x y <> win_of (getOpponent player) /\
  forall c, Gomoku.isValidMove b' x y c = false.
Proof.
  intros Hwf Hp Hv. unfold isValidMove in Hv. apply andb_true_iff in Hv as [Hxy He].
  apply bool_decide_eq_true in He. unfold makeMove. cbn zeta.
  assert (Hget : getPiece (setPiece b x y player) x y = player)
    by (apply getPiece_setPiece_eq; assumption).
  split; [exact Hget|]. split.
  { intros [qx qy] Hq. apply getPiece_setPiece_ne. exact Hq. }
  pose proof (countPieces_store b x y player player Hwf Hxy) as C1.
  pose proof (countPieces_store b x y player EMPTY Hwf Hxy) as C2.
  rewrite He in C1, C2.
  split; [revert C1; repeat case_decide; try congruence; lia|].
  split; [revert C2; repeat case_decide; try congruence; lia|]. split.
  - destruct (gomoku_checkWin_cases (setPiece b x y player) x y player Hget Hp) as [E|[E|E]];
      rewrite E; unfold win_of, getOpponent; destruct player; simpl; congruence.
  - intros c. unfold isValidMove. rewrite Hget, isValidBounds_setPiece, Hxy.
    rewrite bool_decide_eq_false_2 by exact Hp. reflexivity.
Qed.
End GomokuOutcomes.

(** ** Territory-Capture: liberties after a move *)

Section GoLiveness.
Import Go.


(** After the removal, the stones of [player] stand where they stood. *)
Lemma removal_keeps_own b0 x y player done b p :
  player <> EMPTY ->
  removal_inv b0 x y (getOpponent player) done b ->
  stone b0 player p -> stone b player p.
Proof.
  intros Hpl (Hs & _ & _ & Hc) [Hb Hp]. split.
  - unfold isValidBounds. rewrite Hs. exact Hb.
  - destruct (Hc p) as [E|[_ (d & _ & _ & Hconn)]]; [congruence|].
    apply connected_stone_r in Hconn as [_ Hconn].
    exfalso. apply (getOpponent_ne player Hpl). congruence.
Qed.

Lemma removal_keeps_group b0 x y player done b p q :
  player <> EMPTY ->
  removal_inv b0 x y (getOpponent player) done b ->
  connected b0 player p q -> connected b player p q.
Proof.
  intros Hpl Hinv Hconn. induction Hconn as [Hp|q r' Hconn IH Hadj Hr].
  - apply conn_refl. eapply removal_keeps_own; eassumption.
  - eapply conn_step; [exact IH|exact Hadj|]. eapply removal_keeps_own; eassumption.
Qed.

Lemma removal_keeps_empty b0 x y opp done b l :
  removal_inv b0 x y opp done b -> stone b0 EMPTY l -> stone b EMPTY l.
Proof.
  intros (Hs & _ & _ & Hc) [Hb Hl]. split.
  - unfold isValidBounds. rewrite Hs. exact Hb.
  - destruct (Hc l) as [E|[E _]]; congruence.
Qed.

(** What a positive answer of [isValidMove] says about the position after
    the placement. *)
Lemma go_isValidMove_true_inv (r : GoRule) x y player r1 :
  wf_board (board r) -> player <> EMPTY ->
  Go.isValidMove r x y player = Some (true, r1) ->
  isValidBounds (board r) x y = true /\ getPiece (board r) x y = EMPTY /\
  let placed := setPiece (board r) x y player in
  (captures placed x y (getOpponent player) \/ exists l, liberty placed player (x, y) l).
Proof.
  intros Hwf Hpl. unfold isValidMove.
  destruct (isValidBounds (board r) x y) eqn:Hb; cbn [negb orb]; [|discriminate].
  destruct (bool_decide_reflect (getPiece (board r) x y = EMPTY)) as [He|He]; cbn [negb];
    [|discriminate].
  set (placed := setPiece (board r) x y player).
  destruct (captures_loop x y (getOpponent player) dirs4 (getOpponent_stone player) false
              (with_board r placed)) as (cap & r2 & -> & Hb2 & Hcap).
  cbn [board with_board] in Hb2, Hcap.
  intros H. split; [reflexivity|]. split; [exact He|]. cbn zeta.
  destruct cap; cbn [negb] in H.
  - left. destruct (proj1 Hcap eq_refl) as [?|(d & Hd & Hst & Hno)]; [discriminate|].
    apply captures_dirs4. exists d. auto.
  - right.
    assert (Hst : stone (board r2) player (x, y)).
    { rewrite Hb2. split; simpl.
      - unfold placed. rewrite isValidBounds_setPiece. exact Hb.
      - apply getPiece_setPiece_eq; assumption. }
    destruct (getLiberties_correct r2 x y player [] Hst Hpl)
      as (n & G & L & r3 & E & Hb3 & _ & HL & Hn).
    rewrite E in H. injection H as Hneg _.
    apply negb_true_iff, bool_decide_eq_false in Hneg.
    destruct L as [|l L]; [simpl in Hn; lia|].
    exists l. rewrite <- Hb2. apply HL. left.
Qed.

(** A legal move is carried out; the removal invariant holds for all four
    directions and the placed stone has a liberty. *)
Lemma go_makeMove_inv (r : GoRule) (x y : Z) (player : PieceType) (r1 : GoRule) :
  wf_board (board r) -> player <> EMPTY ->
  Go.isValidMove r x y player = Some (true, r1) ->
  let placed := setPiece (board r) x y player in
  exists r', Go.makeMove r x y player = Some r' /\
             removal_inv placed x y (getOpponent player) dirs4 (board r') /\
             stone (board r') player (x, y) /\
             exists l, liberty (board r') player (x, y) l.
Proof.
  intros Hwf Hpl Hv.
  destruct (go_isValidMove_true_inv r x y player r1 Hwf Hpl Hv) as (Hb & He & Hcases).
  cbn zeta in *. set (placed := setPiece (board r) x y player) in *.
  unfold makeMove.
  assert (Hxy : (x =? -1) && (y =? -1) = false).
  { apply isValidBounds_spec in Hb. apply andb_false_iff. left. apply Z.eqb_neq. lia. }
  rewrite Hxy. unfold removeDeadStones. fold placed.
  assert (Hinv0 : removal_inv placed x y (getOpponent player) [] (board (with_board r placed))).
  { simpl. split; [reflexivity|]. split; [apply wf_setPiece; exact Hwf|].
    split; [|left; reflexivity]. intros q (d & Hd & _). inversion Hd. }
  destruct (removeDead_loop_inv placed x y (getOpponent player) (getOpponent_stone player)
              dirs4 [] (with_board r placed) Hinv0) as (r' & E & Hinv).
  simpl in Hinv. exists r'. split; [exact E|]. split; [exact Hinv|].
  assert (Hme : stone placed player (x, y)).
  { split; simpl.
    - unfold placed. rewrite isValidBounds_setPiece. exact Hb.
    - apply getPiece_setPiece_eq; assumption. }
  assert (Hme' : stone (board r') player (x, y))
    by (eapply removal_keeps_own; eassumption).
  split; [exact Hme'|].
  destruct Hcases as [(d & Hd & Hst & Hno)%captures_dirs4|(l & Hl & q & Hq & Hadj)].
  - exists (x + d.1, y + d.2). split.
    + split.
      * destruct Hinv as (Hs & _). destruct Hst as [Hbd _]. unfold isValidBounds.
        rewrite Hs. exact Hbd.
      * destruct Hinv as (_ & _ & Hcap & _). apply (Hcap (x + d.1, y + d.2)).
        exists d. split; [exact Hd|]. split; [exact Hno|]. apply conn_refl. exact Hst.
    + exists (x, y). split; [apply conn_refl; exact Hme'|]. apply (adj_dir (x, y)). exact Hd.
  - exists l. split; [eapply removal_keeps_empty; eassumption|].
    exists q. split; [|exact Hadj]. eapply removal_keeps_group; eassumption.
Qed.

(** X10.  After a legal move, the stone just placed has a liberty. *)
Theorem go_legal_move_has_liberty (r : GoRule) (x y : Z) (player : PieceType) :
  wf_board (board r) -> player <> EMPTY ->
  fst <$> Go.isValidMove r x y player = Some true ->
  exists r', Go.makeMove r x y player = Some r' /\
             stone (board r') player (x, y) /\
             exists l, liberty (board r') player (x, y) l.
Proof.
  intros Hwf Hpl Hlegal.
  destruct (Go.isValidMove r x y player) as [[legal r1]|] eqn:Hv; [|discriminate].
  simpl in Hlegal. injection Hlegal as ->.
  destruct (go_makeMove_inv r x y player r1 Hwf Hpl Hv) as (r' & E & _ & Hst & Hl).
  exists r'. auto.
Qed.

(** Membership in a group and the existence of a liberty are decided by
    the discovery. *)
Lemma connected_dec_stone (b : Board) c p q :
  stone b c p -> c <> EMPTY -> connected b c p q \/ ~ connected b c p q.
Proof.
  intros Hst Hc. destruct p as [px py].
  destruct (getLiberties_correct (mkGoRule b ∅) px py c [] Hst Hc)
    as (n & G & L & r' & _ & _ & (_ & HG) & _).
  simpl in HG. destruct (decide (q ∈ G)) as [Hin|Hin].
  - left. apply HG. exact Hin.
  - right. intros Hconn. apply Hin, HG. exact Hconn.
Qed.

Lemma liberty_dec_stone (b : Board) c p :
  stone b c p -> c <> EMPTY -> (exists l, liberty b c p l) \/ no_liberty b c p.
Proof.
  intros Hst Hc. destruct p as [px py].
  destruct (getLiberties_correct (mkGoRule b ∅) px py c [] Hst Hc)
    as (n & G & L & r' & _ & _ & _ & (_ & HL) & _).
  simpl in HL. destruct L as [|l L].
  - right. intros l Hl. apply HL in Hl. inversion Hl.
  - left. exists l. apply HL. left.
Qed.

Lemma liberty_conn (b : Board) c p q l :
  connected b c p q -> liberty b c q l -> liberty b c p l.
Proof.
  intros Hpq (Hl & q' & Hq' & Hadj). split; [exact Hl|].
  exists q'. split; [|exact Hadj]. eapply connected_trans; eassumption.
Qed.

(** The placement on an empty cell keeps the stones and the groups. *)
Lemma placed_stone (b : Board) x y player c p :
  getPiece b x y = EMPTY -> c <> EMPTY ->
  stone b c p -> stone (setPiece b x y player) c p.
Proof.
  intros He Hc [Hb Hp]. split; [rewrite isValidBounds_setPiece; exact Hb|].
  rewrite getPiece_setPiece_ne; [exact Hp|].
  destruct p as [px py]. simpl in *. intros [= -> ->]. congruence.
Qed.

Lemma placed_connected (b : Board) x y player c p q :
  getPiece b x y = EMPTY -> c <> EMPTY ->
  connected b c p q -> connected (setPiece b x y player) c p q.
Proof.
  intros He Hc Hconn. induction Hconn as [Hp|q r' Hconn IH Hadj Hr].
  - apply conn_refl. apply placed_stone; assumption.
  - eapply conn_step; [exact IH|exact Hadj|]. apply placed_stone; assumption.
Qed.

Lemma placed_other (b : Board) x y player c p :
  p <> (x, y) -> stone (setPiece b x y player) c p -> stone b c p.
Proof.
  intros Hne [Hb Hp]. rewrite isValidBounds_setPiece in Hb. split; [exact Hb|].
  rewrite getPiece_setPiece_ne in Hp; [exact Hp|]. destruct p. exact Hne.
Qed.

Lemma alive_check_sound (b : Board) : alive_check b = true -> all_alive b.
Proof.
  unfold alive_check. rewrite forallb_forall. intros Hall c p Hc [Hb Hp].
  specialize (Hall p (proj1 (list_elem_of_In _ _) (proj2 (elem_of_cells b p) Hb))).
  destruct p as [px py]. cbn [fst snd] in *. rewrite Hp in Hall.
  destruct (getLiberties_correct (mkGoRule b ∅) px py c [] (conj Hb Hp) Hc)
    as (n & G & L & r' & E & _ & _ & (_ & HL) & Hn).
  simpl in E, HL.
  assert (Hpos : 0 < n).
  { destruct c; [contradiction| |]; rewrite E in Hall; apply Z.ltb_lt; exact Hall. }
  destruct L as [|l L]; [simpl in Hn; lia|]. exists l. apply HL. left.
Qed.

(** X11.  If every group has a liberty before a legal move, every group has
    one after it. *)
Theorem go_makeMove_keeps_groups_alive (r : GoRule) (x y : Z) (player : PieceType) :
  wf_board (board r) -> player <> EMPTY ->
  fst <$> Go.isValidMove r x y player = Some true ->
  all_alive (board r) ->
  exists r', Go.makeMove r x y player = Some r' /\ all_alive (board r').
Proof.
  intros Hwf Hpl Hlegal Halive.
  destruct (Go.isValidMove r x y player) as [[legal r1]|] eqn:Hv; [|discriminate].
  simpl in Hlegal. injection Hlegal as ->.
  destruct (go_isValidMove_true_inv r x y player r1 Hwf Hpl Hv) as (Hb & He & _).
  destruct (go_makeMove_inv r x y player r1 Hwf Hpl Hv) as (r' & E & Hinv & Hme & l0 & Hl0).
  cbn zeta in Hinv. set (placed := setPiece (board r) x y player) in *.
  exists r'. split; [exact E|].
  pose proof (getOpponent_stone player) as Hos.
  pose proof (getOpponent_ne player Hpl) as Hon.
  assert (Hplaced_me : getPiece placed x y = player)
    by (apply getPiece_setPiece_eq; assumption).
  pose proof Hinv as (Hs & Hwf' & Hcap & Hc).
  intros c p Hcne Hst.
  destruct (decide (c = getOpponent player)) as [->|Hco].
  - (* a stone of the opponent *)
    assert (Hst0 : stone placed (getOpponent player) p)
      by (eapply inv_stone; eassumption).
    assert (Hpne : p <> (x, y)).
    { intros ->. destruct Hst0 as [_ Hp0]. simpl in Hp0. congruence. }
    assert (Hstb : stone (board r) (getOpponent player) p)
      by (eapply placed_other; eassumption).
    destruct (Halive _ p Hos Hstb) as (l & Hl & q & Hq & Hadj).
    assert (Hq0 : connected placed (getOpponent player) p q)
      by (apply placed_connected; assumption).
    assert (Hq' : connected (board r') (getOpponent player) p q)
      by (eapply inv_connected_rev; eassumption).
    destruct (decide (l = (x, y))) as [->|Hlne].
    + apply adj_sym in Hadj as Hadj'. apply adj_dirs4 in Hadj' as (d & Hd & Eq). simpl in Eq.
      assert (Hstq : stone placed (getOpponent player) q)
        by (eapply connected_stone_r; exact Hq0).
      destruct (liberty_dec_stone placed (getOpponent player) q Hstq Hos) as [(l' & Hl')|Hno].
      * exists l'. apply (liberty_conn _ _ p q); [exact Hq'|].
        eapply inv_liberty_rev; [exact Hos|exact Hinv| |exact Hl'].
        eapply connected_stone_r. exact Hq'.
      * exfalso. destruct Hst as [_ Hp]. apply Hos. rewrite <- Hp. apply Hcap.
        exists d. split; [exact Hd|]. split; rewrite <- Eq; [exact Hno|].
        apply connected_sym. exact Hq0.
    + exists l. split; [|exists q; auto].
      eapply removal_keeps_empty; [exact Hinv|].
      destruct Hl as [Hlb Hle]. split; [unfold placed; rewrite isValidBounds_setPiece; exact Hlb|].
      unfold placed. rewrite getPiece_setPiece_ne; [exact Hle|]. destruct l. exact Hlne.
  - (* a stone of the player *)
    assert (c = player) as -> by (apply two_colors; assumption).
    destruct (connected_dec_stone (board r') player (x, y) p Hme Hpl) as [Hyes|Hno].
    + exists l0. apply (liberty_conn _ _ p (x, y)); [apply connected_sym; exact Hyes|exact Hl0].
    + assert (Hpne : p <> (x, y)).
      { intros ->. apply Hno. apply conn_refl. exact Hme. }
      assert (Hst0 : stone placed player p).
      { destruct Hst as [Hpb Hp]. split; [unfold isValidBounds in *; rewrite <- Hs; exact Hpb|].
        destruct (Hc p) as [E1|[E1 _]]; congruence. }
      assert (Hstb : stone (board r) player p) by (eapply placed_other; eassumption).
      destruct (Halive _ p Hpl Hstb) as (l & Hl & q & Hq & Hadj).
      assert (Hq' : connected (board r') player p q).
      { eapply removal_keeps_group; [exact Hpl|exact Hinv|].
        apply placed_connected; assumption. }
      destruct (decide (l = (x, y))) as [->|Hlne].
      * exfalso. apply Hno. apply connected_sym.
        eapply conn_step; [exact Hq'|exact Hadj|exact Hme].
      * exists l. split; [|exists q; auto].
        eapply removal_keeps_empty; [exact Hinv|].
        destruct Hl as [Hlb Hle].
        split; [unfold placed; rewrite isValidBounds_setPiece; exact Hlb|].
        unfold placed. rewrite getPiece_setPiece_ne; [exact Hle|]. destruct l. exact Hlne.
Qed.
End GoLiveness.

(** ** Territory-Capture: area scoring *)

Section AreaScoring.
Import Go.

Lemma adj_step q d : d ∈ dirs4 -> adj q (step q d).
Proof. intros Hd. apply adj_dirs4. exists d. split; [exact Hd|reflexivity]. Qed.

Lemma flood_gen_ext b p0 C0 pre (sn sn' : Point -> Z * Z -> Prop) f :
  (forall q d, sn q d <-> sn' q d) -> flood_gen b p0 C0 pre sn f -> flood_gen b p0 C0 pre sn' f.
Proof.
  intros Hext (Ht & Hnd & H0 & Hchk & Hconn & Hcl & Hb & Hw).
  split; [exact Ht|]. split; [exact Hnd|]. split; [exact H0|]. split; [exact Hchk|]. split; [exact Hconn|].
  split; [|split].
  - intros q d Hs. apply Hcl, Hext, Hs.
  - rewrite Hb. split; intros (q & d & Hs & H); exists q, d; (split; [apply Hext, Hs|exact H]).
  - rewrite Hw. split; intros (q & d & Hs & H); exists q, d; (split; [apply Hext, Hs|exact H]).
Qed.

Section Flood.
Variable b : Board.
Variable p0 : Point.
Variable C0 : gset Point.
Hypothesis Hsep : forall q, connected b EMPTY p0 q -> q ∉ C0.

Lemma flood_neighbor_gen pre sn cur f d :
  flood_gen b p0 C0 pre sn f -> connected b EMPTY p0 cur -> d ∈ dirs4 ->
  flood_gen b p0 C0 pre (fun q d' => sn q d' \/ (q = cur /\ d' = d)) (flood_neighbor b cur f d).
Proof.
  intros (Ht & Hnd & H0 & Hchk & Hconn & Hcl & Hb & Hw) Hcur Hd.
  unfold flood_neighbor. change (cur.1 + d.1, cur.2 + d.2) with (step cur d).
  change (cur.1 + d.1) with (step cur d).1. change (cur.2 + d.2) with (step cur d).2.
  set (n := step cur d).
  assert (Hold : forall (c : PieceType), getPiece b n.1 n.2 <> c \/ isValidBounds b n.1 n.2 = false ->
            (exists q d', sn q d' /\ stone b c (step q d')) <->
            (exists q d', (sn q d' \/ (q = cur /\ d' = d)) /\ stone b c (step q d'))).
  { intros c Hn. split.
    - intros (q & d' & Hs & H). exists q, d'. auto.
    - intros (q & d' & [Hs|[-> ->]] & H); [exists q, d'; auto|].
      exfalso. destruct H as [H1 H2]. fold n in H1, H2. destruct Hn; congruence. }
  destruct (isValidBounds b n.1 n.2) eqn:Hbn.
  2:{ split; [exact Ht|]. split; [exact Hnd|]. split; [exact H0|]. split; [exact Hchk|]. split; [exact Hconn|].
      split; [|split].
      - intros q d' [Hs|[-> ->]] Hst; [apply Hcl; assumption|].
        destruct Hst as [H1 _]. fold n in H1. congruence.
      - rewrite Hb. apply Hold. right. reflexivity.
      - rewrite Hw. apply Hold. right. reflexivity. }
  destruct (decide (getPiece b n.1 n.2 = EMPTY)) as [He|He].
  - assert (Hn : connected b EMPTY p0 n).
    { eapply conn_step; [exact Hcur|apply adj_step; exact Hd|]. split; assumption. }
    case_bool_decide as Hin; cbn [negb].
    + (* already checked *)
      assert (Hnt : n ∈ territory f).
      { apply Hchk in Hin as [Hin|Hin]; [|exact Hin]. exfalso. exact (Hsep n Hn Hin). }
      split; [exact Ht|]. split; [exact Hnd|]. split; [exact H0|]. split; [exact Hchk|]. split; [exact Hconn|].
      split; [|split].
      * intros q d' [Hs|[-> ->]] Hst; [apply Hcl; assumption|exact Hnt].
      * rewrite Hb. apply Hold. left. congruence.
      * rewrite Hw. apply Hold. left. congruence.
    + (* a new cell of the region *)
      assert (Hnt : n ∉ territory f).
      { intros H. apply Hin, Hchk. right. exact H. }
      split; [simpl; rewrite Ht, app_assoc; reflexivity|].
      split; [simpl; apply NoDup_app; split; [exact Hnd|]; split;
              [intros q Hq ->%list_elem_of_singleton; contradiction|apply NoDup_singleton]|].
      split; [simpl; apply elem_of_app; left; exact H0|].
      split; [|split; [|split; [|split]]]; simpl.
      * intros q. rewrite elem_of_union, elem_of_singleton, elem_of_app, list_elem_of_singleton, Hchk.
        tauto.
      * intros q [Hq| ->%list_elem_of_singleton]%elem_of_app; [apply Hconn; exact Hq|exact Hn].
      * intros q d' [Hs|[-> ->]] Hst; apply elem_of_app; [left; apply Hcl; assumption|].
        right. left.
      * rewrite Hb. apply Hold. left. congruence.
      * rewrite Hw. apply Hold. left. congruence.
  - destruct (decide (getPiece b n.1 n.2 = BLACK)) as [Hbl|Hbl].
    + split; [exact Ht|]. split; [exact Hnd|]. split; [exact H0|]. split; [exact Hchk|]. split; [exact Hconn|].
      split; [|split]; simpl.
      * intros q d' [Hs|[-> ->]] Hst; [apply Hcl; assumption|].
        destruct Hst as [_ H2]. fold n in H2. congruence.
      * split; [|reflexivity]. intros _. exists cur, d. split; [right; auto|]. split; assumption.
      * rewrite Hw. apply Hold. left. congruence.
    + destruct (decide (getPiece b n.1 n.2 = WHITE)) as [Hwh|Hwh].
      * split; [exact Ht|]. split; [exact Hnd|]. split; [exact H0|]. split; [exact Hchk|]. split; [exact Hconn|].
        split; [|split]; simpl.
        -- intros q d' [Hs|[-> ->]] Hst; [apply Hcl; assumption|].
           destruct Hst as [_ H2]. fold n in H2. congruence.
        -- rewrite Hb. apply Hold. left. congruence.
        -- split; [|reflexivity]. intros _. exists cur, d. split; [right; auto|]. split; assumption.
      * exfalso. destruct (getPiece b n.1 n.2); congruence.
Qed.

Lemma flood_neighbors_gen pre cur ds : forall sn f,
  flood_gen b p0 C0 pre sn f -> connected b EMPTY p0 cur -> (forall d, d ∈ ds -> d ∈ dirs4) ->
  flood_gen b p0 C0 pre (fun q d' => sn q d' \/ (q = cur /\ d' ∈ ds))
            (fold_left (flood_neighbor b cur) ds f).
Proof.
  induction ds as [|d ds IH]; intros sn f Hf Hcur Hds; simpl.
  - eapply flood_gen_ext; [|exact Hf]. intros q d'. split; [auto|].
    intros [H|[_ H]]; [exact H|inversion H].
  - eapply flood_gen_ext; [|apply IH; [apply flood_neighbor_gen; [exact Hf|exact Hcur|]|exact Hcur|]].
    + intros q d'. cbn beta. rewrite elem_of_cons. tauto.
    + apply Hds. left.
    + intros d' Hd'. apply Hds. right. exact Hd'.
Qed.

Lemma flood_loop_head fuel : forall f,
  (flood_measure b f < fuel)%nat -> flood_head b p0 C0 f ->
  exists f', flood_loop fuel b f = Some f' /\ flood_head b p0 C0 f' /\ queue f' = [].
Proof.
  induction fuel as [|fuel IH]; intros f Hm Hf; [lia|].
  rewrite flood_loop_step. destruct (queue f) as [|cur rest] eqn:Hq.
  { exists f. auto. }
  apply IH.
  - rewrite flood_neighbors_measure. unfold flood_measure in *. simpl.
    rewrite Hq in Hm. simpl in Hm. lia.
  - destruct Hf as (done & Ht & Hnd & H0 & Hchk & Hconn & Hcl & Hb & Hw).
    rewrite Hq in Ht. exists (done ++ [cur]).
    eapply flood_gen_ext; [|apply (flood_neighbors_gen (done ++ [cur]) cur dirs4 (all_dirs done))].
    + intros q d. unfold all_dirs. rewrite elem_of_app, list_elem_of_singleton. tauto.
    + split; [simpl; rewrite Ht, <- app_assoc; reflexivity|]. simpl. auto 10.
    + apply Hconn. rewrite Ht. apply elem_of_app. right. left.
    + auto.
Qed.

Lemma region_closed (T : list Point) :
  p0 ∈ T ->
  (forall q r, q ∈ T -> adj q r -> stone b EMPTY r -> r ∈ T) ->
  forall q, connected b EMPTY p0 q -> q ∈ T.
Proof.
  intros H0 Hcl q Hq. induction Hq as [|q r Hq IH Hadj Hr]; [exact H0|].
  eapply Hcl; eassumption.
Qed.

(** The flood fill from an unchecked empty cell returns the region of the
    cell and the colors that the region touches. *)
Lemma flood_correct :
  stone b EMPTY p0 -> p0 ∉ C0 ->
  exists f, flood_loop (flood_fuel b) b (mkFlood ({[ p0 ]} ∪ C0) [p0] [p0] false false) = Some f /\
    NoDup (territory f) /\
    (forall q, q ∈ territory f <-> connected b EMPTY p0 q) /\
    (forall q, q ∈ checked f <-> q ∈ C0 \/ connected b EMPTY p0 q) /\
    (touchesBlack f = true <-> touches b p0 BLACK) /\
    (touchesWhite f = true <-> touches b p0 WHITE).
Proof.
  intros Hst Hin.
  destruct (flood_loop_head (flood_fuel b) (mkFlood ({[ p0 ]} ∪ C0) [p0] [p0] false false))
    as (f & E & (done & Ht & Hnd & H0 & Hchk & Hconn & Hcl & Hb & Hw) & Hq).
  { unfold flood_measure, flood_fuel. simpl. destruct Hst as [Hb0 _].
    pose proof (unmarked_mark b C0 p0 Hb0 Hin). pose proof (unmarked_le_fuel b C0).
    unfold dfs_fuel in *. lia. }
  { exists []. split; [reflexivity|]. simpl. split; [apply NoDup_singleton|].
    split; [left|].
    split; [intros q; rewrite elem_of_union, elem_of_singleton, list_elem_of_singleton; tauto|].
    split; [intros q ->%list_elem_of_singleton; apply conn_refl; exact Hst|].
    split; [intros q d [H _]; inversion H|].
    split; (split; [discriminate|intros (q & d & [H _] & _); inversion H]). }
  rewrite Hq, app_nil_r in Ht. subst done.
  exists f. split; [exact E|]. split; [exact Hnd|].
  assert (Hterr : forall q, q ∈ territory f <-> connected b EMPTY p0 q).
  { intros q. split; [apply Hconn|]. apply region_closed; [exact H0|].
    intros q' r Hq' (d & Hd & ->)%adj_dirs4 Hr. apply (Hcl q' d); [split; assumption|exact Hr]. }
  split; [exact Hterr|].
  split; [intros q; rewrite Hchk, Hterr; reflexivity|].
  split.
  - rewrite Hb. unfold touches, all_dirs. split.
    + intros (q & d & [Hq' Hd] & H). exists q, (step q d). split; [apply Hterr; exact Hq'|].
      split; [apply adj_step; exact Hd|exact H].
    + intros (q & r & Hq' & (d & Hd & ->)%adj_dirs4 & H). exists q, d. split; [|exact H].
      split; [apply Hterr; exact Hq'|exact Hd].
  - rewrite Hw. unfold touches, all_dirs. split.
    + intros (q & d & [Hq' Hd] & H). exists q, (step q d). split; [apply Hterr; exact Hq'|].
      split; [apply adj_step; exact Hd|exact H].
    + intros (q & r & Hq' & (d & Hd & ->)%adj_dirs4 & H). exists q, d. split; [|exact H].
      split; [apply Hterr; exact Hq'|exact Hd].
Qed.
End Flood.

Lemma touches_conn b p q c : connected b EMPTY p q -> touches b p c <-> touches b q c.
Proof.
  intros Hpq. split; intros (q' & r & Hq' & Hadj & Hr); exists q', r; (split; [|auto]).
  - eapply connected_trans; [apply connected_sym; exact Hpq|exact Hq'].
  - eapply connected_trans; eassumption.
Qed.

Lemma touches_empty b p c : touches b p c -> stone b EMPTY p.
Proof. intros (q & r & Hq & _). eapply connected_stone_l. exact Hq. Qed.

Lemma for_each_prefix {S A : Type} (body : A -> S -> option S) (I : list A -> S -> Prop)
      (l : list A) :
  (forall pre a rest s, l = pre ++ a :: rest -> I pre s ->
     exists s', body a s = Some s' /\ I (pre ++ [a]) s') ->
  forall s, I [] s -> exists s', for_each body l s = Some s' /\ I l s'.
Proof.
  intros Hbody.
  assert (H : forall l2 l1 s, l = l1 ++ l2 -> I l1 s ->
                exists s', for_each body l2 s = Some s' /\ I l s').
  { induction l2 as [|a l2 IH]; intros l1 s El Hs; simpl.
    - rewrite app_nil_r in El. subst l1. eauto.
    - destruct (Hbody l1 a l2 s El Hs) as (s1 & -> & Hs1).
      apply (IH (l1 ++ [a])); [rewrite <- app_assoc; exact El|exact Hs1]. }
  intros s Hs. apply (H l []); [reflexivity|exact Hs].
Qed.

Lemma count_snoc (b : Board) c pre p :
  Z.of_nat (length (filter (fun p => getPiece b p.1 p.2 = c) (pre ++ [p])))
  = Z.of_nat (length (filter (fun p => getPiece b p.1 p.2 = c) pre))
    + (if decide (getPiece b p.1 p.2 = c) then 1 else 0).
Proof.
  rewrite filter_app, length_app. destruct (decide (getPiece b p.1 p.2 = c)) as [E|E].
  - rewrite filter_cons_True by exact E. simpl. lia.
  - rewrite filter_cons_False by exact E. simpl. lia.
Qed.

(** Checking a stone leaves the territory lists as they are. *)
Lemma terr_upto_stone b chk c T p :
  getPiece b p.1 p.2 <> EMPTY -> terr_upto b chk c T -> terr_upto b ({[ p ]} ∪ chk) c T.
Proof.
  intros Hp [Hnd HT]. split; [exact Hnd|]. intros q. rewrite HT, elem_of_union, elem_of_singleton.
  split; [tauto|]. intros ([->|Hq] & Ht & Hn); [|tauto].
  exfalso. apply touches_empty in Ht as [_ Ht]. contradiction.
Qed.

(** Checking the region of [p] adds it to the territory of [c] exactly when
    it touches [c] and not the other color. *)
Lemma terr_upto_region b chk chk' c T Tf p (fc fo : bool) :
  (forall q, connected b EMPTY p q -> q ∉ chk) ->
  NoDup Tf -> (forall q, q ∈ Tf <-> connected b EMPTY p q) ->
  (forall q, q ∈ chk' <-> q ∈ chk \/ connected b EMPTY p q) ->
  (fc = true <-> touches b p c) -> (fo = true <-> touches b p (getOpponent c)) ->
  terr_upto b chk c T ->
  terr_upto b chk' c (if fc && negb fo then T ++ Tf else T).
Proof.
  intros Hsep HndF HTf Hchk' Hfc Hfo [Hnd HT].
  destruct (fc && negb fo) eqn:Hflags.
  - apply andb_true_iff in Hflags as [H1 H2]. apply negb_true_iff in H2.
    assert (Hc : touches b p c) by (apply Hfc; exact H1).
    assert (Ho : ~ touches b p (getOpponent c)) by (rewrite <- Hfo; congruence).
    split.
    + apply NoDup_app. split; [exact Hnd|]. split; [|exact HndF].
      intros q Hq HqF. apply HT in Hq as [Hq _]. apply HTf in HqF. exact (Hsep q HqF Hq).
    + intros q. rewrite elem_of_app, HT, HTf, Hchk'. split.
      * intros [(Hq & Ht & Hn)|Hq]; [tauto|].
        split; [right; exact Hq|]. rewrite <- !(touches_conn b p q) by exact Hq. auto.
      * intros ([Hq|Hq] & Ht & Hn); [left; auto|right; exact Hq].
  - split; [exact Hnd|]. intros q. rewrite HT, Hchk'. split; [tauto|].
    intros ([Hq|Hq] & Ht & Hn); [tauto|]. exfalso.
    rewrite <- (touches_conn b p q) in Ht, Hn by exact Hq.
    apply Hfc in Ht. rewrite Ht in Hflags. cbn [andb] in Hflags.
    apply negb_false_iff in Hflags. apply Hn, Hfo. exact Hflags.
Qed.

(** One round of the scoring loop. *)
Lemma score_cell_inv b pre p s :
  NoDup (pre ++ [p]) -> isValidBounds b p.1 p.2 = true -> score_inv b pre s ->
  exists s', score_cell b p s = Some s' /\ score_inv b (pre ++ [p]) s'.
Proof.
  intros Hnd Hb (Hchk & Tb & Tw & HTb & HTw & Ebs & Ews).
  destruct s as [[bs ws] chk]. cbn [fst snd] in *.
  assert (Hp : p ∉ pre).
  { apply NoDup_app in Hnd as (_ & Hnd & _). intros H. apply (Hnd p H). left. }
  unfold score_cell. case_bool_decide as Hin.
  { (* the cell belongs to a region filled before *)
    assert (Hreg : exists p', p' ∈ pre /\ connected b EMPTY p' p).
    { apply Hchk in Hin as [Hin|Hin]; [contradiction|exact Hin]. }
    destruct Hreg as (p' & Hp' & Hconn).
    assert (He : getPiece b p.1 p.2 = EMPTY) by (apply connected_stone_r in Hconn as [_ H]; exact H).
    eexists. split; [reflexivity|]. split; cbn [fst snd].
    - intros q. rewrite Hchk. split.
      + intros [Hq|(p1 & Hp1 & Hq)]; [left; apply elem_of_app; auto|].
        right. exists p1. split; [apply elem_of_app; auto|exact Hq].
      + intros [[Hq| ->%list_elem_of_singleton]%elem_of_app|(p1 & [Hp1| ->%list_elem_of_singleton]%elem_of_app & Hq)];
          eauto using connected_trans.
    - exists Tb, Tw. split; [exact HTb|]. split; [exact HTw|].
      rewrite !count_snoc, He. cbn. rewrite !Z.add_0_r. auto. }
  assert (Hsep : forall q, connected b EMPTY p q -> q ∉ chk).
  { intros q Hq Hqc. apply Hin, Hchk. right.
    apply Hchk in Hqc as [Hqc|(p' & Hp' & Hqc)].
    - exists q. split; [exact Hqc|]. apply connected_sym. exact Hq.
    - exists p'. split; [exact Hp'|]. eapply connected_trans; [exact Hqc|].
      apply connected_sym. exact Hq. }
  assert (Hchk_stone : getPiece b p.1 p.2 <> EMPTY ->
            forall q, q ∈ ({[ p ]} ∪ chk : gset Point) <->
                      q ∈ pre ++ [p] \/ exists p', p' ∈ pre ++ [p] /\ connected b EMPTY p' q).
  { intros Hne q. rewrite elem_of_union, elem_of_singleton, Hchk, elem_of_app, list_elem_of_singleton.
    split.
    - intros [->|[Hq|(p' & Hp' & Hq)]]; [auto|auto|].
      right. exists p'. split; [apply elem_of_app; auto|exact Hq].
    - intros [[Hq| ->]|(p' & [Hp'| ->%list_elem_of_singleton]%elem_of_app & Hq)]; [auto|auto|eauto|].
      exfalso. apply connected_stone_l in Hq as [_ Hq]. contradiction. }
  destruct (getPiece b p.1 p.2) eqn:Ep.
  - (* an empty cell: the region is filled *)
    destruct (flood_correct b p chk Hsep) as (f & -> & HndF & HTf & Hchk' & Hfb & Hfw);
      [split; assumption|exact Hin|].
    pose proof (terr_upto_region b chk (checked f) BLACK Tb (territory f) p
                  (touchesBlack f) (touchesWhite f) Hsep HndF HTf Hchk' Hfb Hfw HTb) as HTb'.
    pose proof (terr_upto_region b chk (checked f) WHITE Tw (territory f) p
                  (touchesWhite f) (touchesBlack f) Hsep HndF HTf Hchk' Hfw Hfb HTw) as HTw'.
    assert (Hchk2 : forall q, q ∈ checked f <->
                      q ∈ pre ++ [p] \/ exists p', p' ∈ pre ++ [p] /\ connected b EMPTY p' q).
    { intros q. rewrite Hchk', Hchk, elem_of_app, list_elem_of_singleton. split.
      - intros [[Hq|(p' & Hp' & Hq)]|Hq]; [auto| |].
        + right. exists p'. split; [apply elem_of_app; auto|exact Hq].
        + right. exists p. split; [apply elem_of_app; right; left|exact Hq].
      - intros [[Hq| ->]|(p' & [Hp'| ->%list_elem_of_singleton]%elem_of_app & Hq)]; eauto.
        right. apply conn_refl. split; assumption. }
    set (n := Z.of_nat (length (territory f))).
    destruct (touchesBlack f) eqn:Fb; destruct (touchesWhite f) eqn:Fw; cbn [andb negb] in *;
      (eexists; split; [reflexivity|]; split; [exact Hchk2|]; cbn [fst snd]).
    + exists Tb, Tw. split; [exact HTb'|]. split; [exact HTw'|].
      rewrite !count_snoc, Ep. cbn. rewrite !Z.add_0_r. auto.
    + exists (Tb ++ territory f), Tw. split; [exact HTb'|]. split; [exact HTw'|].
      rewrite !count_snoc, Ep. cbn. rewrite !Z.add_0_r. split; [|exact Ews].
      rewrite length_app, Nat2Z.inj_add, Z.add_assoc, inject_Z_plus, Ebs. reflexivity.
    + exists Tb, (Tw ++ territory f). split; [exact HTb'|]. split; [exact HTw'|].
      rewrite !count_snoc, Ep. cbn. rewrite !Z.add_0_r. split; [exact Ebs|].
      rewrite length_app, Nat2Z.inj_add, Z.add_assoc, inject_Z_plus, Ews. reflexivity.
    + exists Tb, Tw. split; [exact HTb'|]. split; [exact HTw'|].
      rewrite !count_snoc, Ep. cbn. rewrite !Z.add_0_r. auto.
  - eexists. split; [reflexivity|]. split; [apply Hchk_stone; discriminate|]. cbn [fst snd].
    exists Tb, Tw. split; [apply terr_upto_stone; [congruence|exact HTb]|].
    split; [apply terr_upto_stone; [congruence|exact HTw]|].
    rewrite !count_snoc, Ep. cbn. rewrite !Z.add_0_r. split; [|exact Ews].
    rewrite (Z.add_comm _ 1), <- Z.add_assoc, (Z.add_comm 1), inject_Z_plus, Ebs. reflexivity.
  - eexists. split; [reflexivity|]. split; [apply Hchk_stone; discriminate|]. cbn [fst snd].
    exists Tb, Tw. split; [apply terr_upto_stone; [congruence|exact HTb]|].
    split; [apply terr_upto_stone; [congruence|exact HTw]|].
    rewrite !count_snoc, Ep. cbn. rewrite !Z.add_0_r. split; [exact Ebs|].
    rewrite (Z.add_comm _ 1), <- Z.add_assoc, (Z.add_comm 1), inject_Z_plus, Ews. reflexivity.
Qed.

(** X12.  Area scoring. Each side scores its stones plus the empty cells of
    the regions that touch its stones only; White receives 3.75 on top. *)
Theorem calculateScore_area (b : Board) :
  wf_board b ->
  exists blackScore whiteScore Tb Tw,
    Go.calculateScore b = Some (blackScore, whiteScore) /\
    territory_of b BLACK Tb /\ territory_of b WHITE Tw /\
    (blackScore == inject_Z (countPieces b BLACK + Z.of_nat (length Tb)))%Q /\
    (whiteScore == inject_Z (countPieces b WHITE + Z.of_nat (length Tw)) + komi)%Q.
Proof.
  intros Hwf. unfold calculateScore.
  destruct (for_each_prefix (score_cell b) (score_inv b) (cells b)) with (s := (0%Q, 0%Q, (∅ : gset Point)))
    as ([[bs ws] chk] & -> & Hchk & Tb & Tw & [HndB HTb] & [HndW HTw] & Ebs & Ews).
  { intros pre a rest s El Hs. apply score_cell_inv; [| |exact Hs].
    - pose proof (NoDup_cells b) as Hnd. rewrite El in Hnd.
      replace (pre ++ a :: rest) with ((pre ++ [a]) ++ rest) in Hnd by (rewrite <- app_assoc; reflexivity).
      apply NoDup_app in Hnd as [Hnd _]. exact Hnd.
    - apply elem_of_cells. rewrite El. apply elem_of_app. right. left. }
  { split; cbn [fst snd].
    - intros q. split; [intros H; inversion H|].
      intros [H|(p & H & _)]; inversion H.
    - exists [], []. split; [|split; [|split; reflexivity]];
        (split; [constructor|]; intros q; split; [intros H; inversion H|intros [H _]; inversion H]). }
  cbn [fst snd] in *. exists bs, (ws + komi)%Q, Tb, Tw. split; [reflexivity|].
  assert (Hall : forall q c, touches b q c -> q ∈ chk).
  { intros q c Ht. apply Hchk. left. apply elem_of_cells. apply touches_empty in Ht as [H _]. exact H. }
  split; [|split; [|split]].
  - split; [exact HndB|]. intros q. rewrite HTb. split; [tauto|]. intros [Ht Hn]. eauto.
  - split; [exact HndW|]. intros q. rewrite HTw. split; [tauto|]. intros [Ht Hn]. eauto.
  - rewrite (countPieces_cells b BLACK Hwf). exact Ebs.
  - rewrite (countPieces_cells b WHITE Hwf), Ews. reflexivity.
Qed.
End AreaScoring.

(** ** Search tree: statistics and ties *)

Section MCTSStatistics.
Import MCTS.

Lemma on_path_dec (t : Tree) : tree_wf t -> forall i k, on_path t i k \/ ~ on_path t i k.
Proof.
  intros Hwf i. induction i as [i IH] using lt_wf_ind. intros k.
  destruct (decide (i = k)) as [->|Hne]; [left; constructor|].
  destruct (t !! i) as [n|] eqn:Hi.
  - destruct (parent n) as [p|] eqn:Hp.
    + destruct (IH p (Hwf i n p Hi Hp) k) as [H|H].
      * left. eapply path_up; eassumption.
      * right. intros Hpath. inversion Hpath; subst; [contradiction|]. congruence.
    + right. intros Hpath. inversion Hpath; subst; [contradiction|]. congruence.
  - right. intros Hpath. inversion Hpath; subst; [contradiction|]. congruence.
Qed.

Lemma on_path_snoc (t : Tree) i k n p :
  on_path t i k -> t !! k = Some n -> parent n = Some p -> on_path t i p.
Proof.
  intros Hpath. induction Hpath as [i|i n' p' k Hi Hp Hpath IH]; intros Hk Hpk.
  - eapply path_up; [exact Hk|exact Hpk|constructor].
  - eapply path_up; [exact Hi|exact Hp|]. apply IH; assumption.
Qed.

Lemma result_of_range status : (0 <= result_of status <= 1)%Q.
Proof. destruct status; unfold result_of; split; unfold Qle; simpl; lia. Qed.

Lemma oriented_range status c : (0 <= oriented (result_of status) c <= 1)%Q.
Proof.
  pose proof (result_of_range status) as [H0 H1]. unfold oriented.
  destruct (decide (c = BLACK)); split; lra.
Qed.

(** What the walk does to each node, read from the new tree. *)
Lemma backpropagate_cases (t : Tree) (node : nat) (status : GameStatus) :
  tree_wf t -> (node < length t)%nat ->
  exists t', backpropagate status node t = Some t' /\ length t' = length t /\
    forall k n', t' !! k = Some n' ->
      exists n, t !! k = Some n /\ parent n' = parent n /\ children n' = children n /\
        ((on_path t node k /\ bumped (result_of status) n n') \/
         (~ on_path t node k /\ n' = n)).
Proof.
  intros Hwf Hnode. unfold backpropagate.
  destruct (backpropagate_loop_spec (result_of status) (length t) t node Hwf Hnode Hnode)
    as (t' & E & Hlen & Hspec).
  exists t'. split; [exact E|]. split; [exact Hlen|].
  intros k n' Hk'.
  destruct (lookup_lt_is_Some_2 t k) as [n Hk].
  { rewrite <- Hlen. eapply lookup_lt_Some. exact Hk'. }
  destruct (Hspec k n Hk) as (n1 & Hk1 & Hon & Hoff).
  assert (n1 = n') by congruence. subst n1.
  exists n. split; [exact Hk|].
  destruct (on_path_dec t Hwf node k) as [Hp|Hp].
  - destruct (Hon Hp) as (H1 & H2 & H3). split; [exact H1|]. split; [exact H2|].
    left. split; [exact Hp|apply Hon; exact Hp].
  - rewrite (Hoff Hp). split; [reflexivity|]. split; [reflexivity|]. right. auto.
Qed.

(** The statistics of the bumped nodes stay coherent. *)
Lemma bumped_stats (t t' : Tree) (node : nat) (status : GameStatus) :
  (forall k n', t' !! k = Some n' ->
     exists n, t !! k = Some n /\ parent n' = parent n /\ children n' = children n /\
       ((on_path t node k /\ bumped (result_of status) n n') \/
        (~ on_path t node k /\ n' = n))) ->
  stats_ok t -> stats_ok t'.
Proof.
  intros Hback Hok k n' Hk'. destruct (Hback k n' Hk') as (n & Hk & Epar & _ & Hcase).
  destruct (Hok k n Hk) as (Hw0 & Hwv & Hpar).
  pose proof (oriented_range status (playerMoved n)) as [Ho0 Ho1].
  assert (Hstat : (0 <= wins n')%Q /\ (wins n' <= inject_Z (visits n'))%Q).
  { destruct Hcase as [[_ Hb]|[_ ->]]; [|auto].
    destruct Hb as (_ & _ & _ & _ & _ & Hv & Hw). rewrite Hw, Hv, inject_Z_plus.
    change (inject_Z 1) with 1%Q. split; lra. }
  split; [apply Hstat|]. split; [apply Hstat|].
  intros p np' Hp Hkp'. rewrite Epar in Hp.
  destruct (Hback p np' Hkp') as (np & Hkp & _ & _ & Hcasep).
  specialize (Hpar p np Hp Hkp).
  destruct Hcase as [[Hon Hb]|[Hoff ->]].
  - destruct Hb as (_ & _ & _ & _ & _ & Hv & _). rewrite Hv.
    destruct Hcasep as [[_ Hbp]|[Hoffp _]].
    + destruct Hbp as (_ & _ & _ & _ & _ & Hvp & _). lia.
    + exfalso. apply Hoffp. eapply on_path_snoc; eassumption.
  - destruct Hcasep as [[_ Hbp]|[_ ->]]; [|exact Hpar].
    destruct Hbp as (_ & _ & _ & _ & _ & Hvp & _). lia.
Qed.

(** X13.  Backpropagation keeps the statistics coherent, and it leaves the
    links of the tree as they are: the tree has the same nodes, and each node
    the same parent and the same children. *)
Theorem backpropagate_keeps_stats (t : Tree) (node : nat) (status : GameStatus) :
  tree_wf t -> (node < length t)%nat -> stats_ok t ->
  exists t', backpropagate status node t = Some t' /\ tree_wf t' /\ stats_ok t' /\
    length t' = length t /\
    forall k n, t !! k = Some n ->
      exists n', t' !! k = Some n' /\ parent n' = parent n /\ children n' = children n.
Proof.
  intros Hwf Hnode Hok.
  destruct (backpropagate_cases t node status Hwf Hnode) as (t' & E & Hlen & Hback).
  exists t'. split; [exact E|]. split; [|split; [|split]].
  - intros k n' p Hk' Hp. destruct (Hback k n' Hk') as (n & Hk & Epar & _).
    apply (Hwf k n p Hk). congruence.
  - eapply bumped_stats; eassumption.
  - exact Hlen.
  - intros k n Hk. destruct (lookup_lt_is_Some_2 t' k) as [n' Hk'].
    { rewrite Hlen. eapply lookup_lt_Some. exact Hk. }
    exists n'. split; [exact Hk'|].
    destruct (Hback k n' Hk') as (n0 & Hk0 & Epar & Echi & _).
    assert (n0 = n) by congruence. subst n0. auto.
Qed.

Lemma most_visited_first (cs : list MCTSNode) : forall (best : Point) (maxV : Z),
  let r := fold_left (fun (acc : Point * Z) child =>
                let '(bestMove, maxVisits) := acc in
                if visits child >? maxVisits then (move child, visits child)
                else (bestMove, maxVisits)) cs (best, maxV) in
  (r = (best, maxV) /\ forall c, c ∈ cs -> visits c <= maxV) \/
  exists cs1 c cs2, cs = cs1 ++ c :: cs2 /\ r = (move c, visits c) /\ maxV < visits c /\
    (forall c', c' ∈ cs1 -> visits c' < visits c) /\
    (forall c', c' ∈ cs2 -> visits c' <= visits c).
Proof.
  induction cs as [|a cs IH]; intros best maxV; simpl.
  - left. split; [reflexivity|]. intros c H. inversion H.
  - destruct (visits a >? maxV) eqn:E.
    + apply Z.gtb_lt in E. right.
      destruct (IH (move a) (visits a)) as [[-> Hall]|(cs1 & c & cs2 & -> & -> & Hlt & H1 & H2)].
      * exists [], a, cs. split; [reflexivity|]. split; [reflexivity|]. split; [exact E|].
        split; [intros c H; inversion H|exact Hall].
      * exists (a :: cs1), c, cs2. split; [reflexivity|]. split; [reflexivity|]. split; [lia|].
        split; [|exact H2]. intros c' [->|Hc']%elem_of_cons; [exact Hlt|apply H1; exact Hc'].
    + assert (visits a <= maxV) by (destruct (Z.gtb_spec (visits a) maxV); [discriminate|lia]).
      destruct (IH best maxV) as [[-> Hall]|(cs1 & c & cs2 & -> & -> & Hlt & H1 & H2)].
      * left. split; [reflexivity|]. intros c [->|Hc]%elem_of_cons; auto.
      * right. exists (a :: cs1), c, cs2. split; [reflexivity|]. split; [reflexivity|].
        split; [exact Hlt|]. split; [|exact H2].
        intros c' [->|Hc']%elem_of_cons; [lia|apply H1; exact Hc'].
Qed.

(** X14.  Among the children with the highest visit count, the decision takes
    the first one. *)
Theorem decision_first_most_visited (t : Tree) (root : nat) (n : MCTSNode)
        (cs : list MCTSNode) :
  t !! root = Some n -> mapM (fun c => t !! c) (children n) = Some cs ->
  (forall c, c ∈ cs -> 0 <= visits c) -> cs <> [] ->
  exists cs1 c cs2,
    cs = cs1 ++ c :: cs2 /\ decision t root = Some (move c) /\
    (forall c', c' ∈ cs1 -> visits c' < visits c) /\
    (forall c', c' ∈ cs2 -> visits c' <= visits c).
Proof.
  intros Hroot Hcs Hpos Hne. unfold decision. rewrite Hroot, Hcs. unfold most_visited.
  destruct (most_visited_first cs (-1, -1) (-1)) as [[_ Hall]|(cs1 & c & cs2 & E & -> & _ & H1 & H2)].
  - exfalso. destruct cs as [|c cs]; [contradiction|].
    specialize (Hall c ltac:(left)). specialize (Hpos c ltac:(left)). lia.
  - exists cs1, c, cs2. auto.
Qed.

(** *** Expansion *)

Lemma stats_ok_visits (t : Tree) k n : stats_ok t -> t !! k = Some n -> 0 <= visits n.
Proof.
  intros Hok Hk. destruct (Hok k n Hk) as (H0 & H1 & _).
  assert (H : (0 <= inject_Z (visits n))%Q) by lra.
  rewrite (Zle_Qle 0 (visits n)). exact H.
Qed.

(** The tree after an expansion: the invariants hold, and every node but
    the new one has been visited. *)
Lemma expand_spec (t : Tree) (node : nat) (r : Z) (simPlayer : PieceType)
      (childMoves : list Point) :
  tree_wf t -> links_ok t -> stats_ok t -> visited_ok t ->
  0 <= r -> (node < length t)%nat ->
  exists t' start,
    expand t node r simPlayer childMoves = Some (t', start) /\
    (start < length t')%nat /\
    tree_wf t' /\ links_ok t' /\ stats_ok t' /\
    (forall k n, t' !! k = Some n -> is_Some (parent n) -> k <> start -> 1 <= visits n).
Proof.
  intros Hwf Hlinks Hok Hvis Hr Hnode. unfold expand.
  destruct (lookup_lt_is_Some_2 t node Hnode) as [n Hn]. rewrite Hn.
  case_bool_decide as Hnil.
  { exists t, node. split; [reflexivity|]. split; [exact Hnode|].
    split; [exact Hwf|]. split; [exact Hlinks|]. split; [exact Hok|].
    intros k n0 Hk Hp _. eapply Hvis; eassumption. }
  assert (Hlen : 0 < Z.of_nat (length (untriedMoves n)))
    by (destruct (untriedMoves n); [contradiction|simpl; lia]).
  pose proof (Z.rem_bound_pos r _ Hr Hlen) as Hidx.
  destruct (lookup_lt_is_Some_2 (untriedMoves n)
              (Z.to_nat (Z.rem r (Z.of_nat (length (untriedMoves n)))))) as [mv Hmv]; [lia|].
  rewrite Hmv.
  set (n' := mkNode (parent n) (children n ++ [length t]) (move n) (playerMoved n)
                    (visits n) (wins n) _).
  set (child := mkNode (Some node) [] mv simPlayer 0 0 childMoves).
  assert (Hlook : forall k nk, (<[node := n']> t ++ [child]) !! k = Some nk ->
            (k = length t /\ nk = child) \/
            (k = node /\ nk = n') \/
            (k <> node /\ (k < length t)%nat /\ t !! k = Some nk)).
  { intros k nk Hk. destruct (decide (k < length t)%nat) as [Hlt|Hge].
    - rewrite lookup_app_l in Hk by (rewrite length_insert; exact Hlt).
      destruct (decide (k = node)) as [->|Hne].
      + rewrite list_lookup_insert_eq in Hk by exact Hlt. right. left. split; congruence.
      + rewrite list_lookup_insert_ne in Hk by congruence. right. right. auto.
    - rewrite lookup_app_r in Hk by (rewrite length_insert; lia).
      rewrite length_insert in Hk.
      destruct (k - length t)%nat as [|j] eqn:Ej; simpl in Hk; [|destruct j; discriminate].
      left. split; [lia|congruence]. }
  assert (Hold : forall k nk, t !! k = Some nk ->
            exists nk', (<[node := n']> t ++ [child]) !! k = Some nk' /\
                        parent nk' = parent nk /\ visits nk' = visits nk /\ wins nk' = wins nk).
  { intros k nk Hk. pose proof (lookup_lt_Some _ _ _ Hk) as Hlt.
    rewrite lookup_app_l by (rewrite length_insert; exact Hlt).
    destruct (decide (k = node)) as [->|Hne].
    - rewrite list_lookup_insert_eq by exact Hlt. exists n'.
      assert (nk = n) by congruence. subst nk. auto.
    - rewrite list_lookup_insert_ne by congruence. exists nk. auto. }
  exists (<[node := n']> t ++ [child]), (length t). split; [reflexivity|].
  split; [rewrite length_app, length_insert; simpl; lia|].
  split; [|split; [|split]].
  - (* parents come first *)
    intros k nk p Hk Hp. destruct (Hlook k nk Hk) as [[-> ->]|[[-> ->]|(Hne & Hlt & Hk0)]].
    + simpl in Hp. injection Hp as <-. exact Hnode.
    + simpl in Hp. eapply Hwf; eassumption.
    + eapply Hwf; eassumption.
  - (* links *)
    intros k nk c Hk Hc. destruct (Hlook k nk Hk) as [[-> ->]|[[-> ->]|(Hne & Hlt & Hk0)]].
    + simpl in Hc. inversion Hc.
    + simpl in Hc. apply elem_of_app in Hc as [Hc| ->%list_elem_of_singleton].
      * destruct (Hlinks node n c Hn Hc) as (nc & Hnc & Hpc).
        destruct (Hold c nc Hnc) as (nc' & Hnc' & Hp' & _). exists nc'. split; [exact Hnc'|congruence].
      * exists child. split; [|reflexivity].
        rewrite lookup_app_r by (rewrite length_insert; lia).
        rewrite length_insert, Nat.sub_diag. reflexivity.
    + destruct (Hlinks k nk c Hk0 Hc) as (nc & Hnc & Hpc).
      destruct (Hold c nc Hnc) as (nc' & Hnc' & Hp' & _). exists nc'. split; [exact Hnc'|congruence].
  - (* statistics *)
    assert (Hparent : forall k nk p np', t !! k = Some nk -> parent nk = Some p ->
              (<[node := n']> t ++ [child]) !! p = Some np' -> visits nk <= visits np').
    { intros k nk p np' Hk Hp Hp'.
      destruct (lookup_lt_is_Some_2 t p) as [np Hnp].
      { pose proof (Hwf k nk p Hk Hp). pose proof (lookup_lt_Some _ _ _ Hk). lia. }
      destruct (Hold p np Hnp) as (np1 & Hnp1 & _ & Hv & _).
      assert (np1 = np') by congruence. subst np1. rewrite Hv.
      destruct (Hok k nk Hk) as (_ & _ & Hpar). eapply Hpar; eassumption. }
    intros k nk Hk. destruct (Hlook k nk Hk) as [[-> ->]|[[-> ->]|(Hne & Hlt & Hk0)]].
    + simpl. split; [unfold Qle; simpl; lia|]. split; [unfold Qle; simpl; lia|].
      intros p np' [= <-] Hp'.
      destruct (Hold node n Hn) as (n1 & Hn1 & _ & Hv & _).
      assert (n1 = np') by congruence. subst n1. rewrite Hv.
      eapply stats_ok_visits; eassumption.
    + destruct (Hok node n Hn) as (H0 & H1 & _). simpl.
      split; [exact H0|]. split; [exact H1|].
      intros p np' Hp Hp'. eapply (Hparent node n); eassumption.
    + destruct (Hok k nk Hk0) as (H0 & H1 & _).
      split; [exact H0|]. split; [exact H1|].
      intros p np' Hp Hp'. eapply (Hparent k nk); eassumption.
  - (* visits *)
    intros k nk Hk Hp Hne. destruct (Hlook k nk Hk) as [[-> ->]|[[-> ->]|(Hne' & Hlt & Hk0)]].
    + contradiction.
    + simpl in *. eapply Hvis; eassumption.
    + eapply Hvis; eassumption.
Qed.

(** X15.  One round of the search, from whatever node the selection stopped
    at, keeps the tree coherent and leaves every node but the root visited,
    so that the quotient and the logarithm of the selection formula are
    defined at the next selection. *)
Theorem search_step_keeps_tree (t : Tree) (node : nat) (r : Z) (simPlayer : PieceType)
        (childMoves : list Point) (status : GameStatus) :
  tree_wf t -> links_ok t -> stats_ok t -> visited_ok t ->
  0 <= r -> (node < length t)%nat ->
  exists t',
    search_step t node r simPlayer childMoves status = Some t' /\
    tree_wf t' /\ links_ok t' /\ stats_ok t' /\ visited_ok t' /\ uct_defined t'.
Proof.
  intros Hwf Hlinks Hok Hvis Hr Hnode. unfold search_step.
  destruct (expand_spec t node r simPlayer childMoves Hwf Hlinks Hok Hvis Hr Hnode)
    as (t1 & start & -> & Hstart & Hwf1 & Hlinks1 & Hok1 & Hvis1).
  destruct (backpropagate_cases t1 start status Hwf1 Hstart) as (t' & E & Hlen & Hback).
  exists t'. split; [exact E|].
  assert (Hwf' : tree_wf t').
  { intros k n' p Hk' Hp. destruct (Hback k n' Hk') as (n & Hk & Epar & _).
    apply (Hwf1 k n p Hk). congruence. }
  assert (Hlinks' : links_ok t').
  { intros i n' c Hi Hc. destruct (Hback i n' Hi) as (n & Hn & _ & Echildren & _).
    rewrite Echildren in Hc. destruct (Hlinks1 i n c Hn Hc) as (nc & Hnc & Hpc).
    destruct (lookup_lt_is_Some_2 t' c) as [nc' Hnc'].
    { rewrite Hlen. eapply lookup_lt_Some. exact Hnc. }
    exists nc'. split; [exact Hnc'|].
    destruct (Hback c nc' Hnc') as (nc0 & Hnc0 & Epar & _). congruence. }
  assert (Hok' : stats_ok t') by (eapply bumped_stats; eassumption).
  assert (Hvis' : visited_ok t').
  { intros k n' Hk' Hp. destruct (Hback k n' Hk') as (n & Hk & Epar & _ & Hcase).
    destruct Hcase as [[_ Hb]|[Hoff ->]].
    - destruct Hb as (_ & _ & _ & _ & _ & Hv & _). rewrite Hv.
      pose proof (stats_ok_visits t1 k n Hok1 Hk). lia.
    - apply (Hvis1 k n Hk Hp). intros ->. apply Hoff. constructor. }
  split; [exact Hwf'|]. split; [exact Hlinks'|]. split; [exact Hok'|]. split; [exact Hvis'|].
  intros i n c nc Hi Hc Hnc. destruct (Hlinks' i n c Hi Hc) as (nc' & Hnc' & Hpc).
  assert (nc' = nc) by congruence. subst nc'.
  assert (H1 : 1 <= visits nc) by (apply (Hvis' c nc Hnc); rewrite Hpc; eauto).
  split; [exact H1|]. destruct (Hok' c nc Hnc) as (_ & _ & Hpar).
  specialize (Hpar i n Hpc Hi). lia.
Qed.
End MCTSStatistics.

(** ** Playout status and heuristic players *)

Section PlayoutStatus.

Lemma score_status_counts (nb nw : Z) :
  MCTS.score_status (inject_Z nb) (inject_Z nw) =
  if nw <? nb then BLACK_WIN else if nb <? nw then WHITE_WIN else DRAW.
Proof.
  unfold MCTS.score_status.
  destruct (Qlt_le_dec (inject_Z nw) (inject_Z nb)) as [H|H].
  - rewrite <- Zlt_Qlt in H. apply Z.ltb_lt in H. rewrite H. reflexivity.
  - rewrite <- Zle_Qle in H. rewrite (proj2 (Z.ltb_ge nw nb) H).
    destruct (Qlt_le_dec (inject_Z nb) (inject_Z nw)) as [H'|H'].
    + rewrite <- Zlt_Qlt in H'. apply Z.ltb_lt in H'. rewrite H'. reflexivity.
    + rewrite <- Zle_Qle in H'. rewrite (proj2 (Z.ltb_ge nb nw) H'). reflexivity.
Qed.

(** X16.  The status that a Flip-Capture playout is scored with is the
    comparison of the two stone counts, whether the board is full or not. *)
Theorem reversi_playout_status (b : Board) (x y : Z) :
  let '(bScore, wScore) := GameRule.calculateScore b in
  MCTS.final_status (Reversi.checkWin b x y) bScore wScore =
  if countPieces b WHITE <? countPieces b BLACK then BLACK_WIN
  else if countPieces b BLACK <? countPieces b WHITE then WHITE_WIN
  else DRAW.
Proof.
  unfold GameRule.calculateScore, Reversi.checkWin, MCTS.final_status.
  pose proof (score_status_counts (countPieces b BLACK) (countPieces b WHITE)) as Hs.
  destruct (countPieces b EMPTY =? 0); [|exact Hs].
  destruct (Z.gtb_spec (countPieces b BLACK) (countPieces b WHITE)) as [H|H].
  - apply Z.ltb_lt in H. rewrite H. reflexivity.
  - rewrite (proj2 (Z.ltb_ge _ _) H).
    destruct (Z.gtb_spec (countPieces b WHITE) (countPieces b BLACK)) as [H'|H'].
    + apply Z.ltb_lt in H'. rewrite H'. reflexivity.
    + rewrite Hs. rewrite (proj2 (Z.ltb_ge _ _) H), (proj2 (Z.ltb_ge _ _) H'). reflexivity.
Qed.

(** X17.  A Placement-Five playout is tested at the cell (0, 0) only: unless
    five in a row pass through that cell, the status it is scored with is the
    comparison of the two stone counts. *)
Theorem gomoku_playout_status (b : Board) :
  getPiece b 0 0 = EMPTY \/ ~ Gomoku.five_in_row b 0 0 (getPiece b 0 0) ->
  let '(bScore, wScore) := GameRule.calculateScore b in
  MCTS.final_status (Gomoku.checkWin b 0 0) bScore wScore =
  if countPieces b WHITE <? countPieces b BLACK then BLACK_WIN
  else if countPieces b BLACK <? countPieces b WHITE then WHITE_WIN
  else DRAW.
Proof.
  intros H. unfold GameRule.calculateScore.
  pose proof (score_status_counts (countPieces b BLACK) (countPieces b WHITE)) as Hs.
  assert (Hst : Gomoku.checkWin b 0 0 = PLAYING \/ Gomoku.checkWin b 0 0 = DRAW).
  { unfold Gomoku.checkWin. cbn [Z.eqb andb].
    destruct (decide (getPiece b 0 0 = EMPTY)) as [He|He]; [left; reflexivity|].
    destruct H as [H|H]; [contradiction|].
    pose proof (axes_loop_spec b 0 0 (getPiece b 0 0) Gomoku.directions eq_refl) as Hloop.
    destruct (Gomoku.axes_loop b 0 0 (getPiece b 0 0) Gomoku.directions) as [s|].
    - exfalso. apply H. destruct Hloop as (_ & Hfive). apply five_in_row_directions.
      exact Hfive.
    - destruct (Gomoku.has_empty b); auto. }
  destruct Hst as [-> | ->]; exact Hs.
Qed.
End PlayoutStatus.

Section HeuristicPlayers.
Import AI.
Variable isValidMove : Z -> Z -> bool.
Variable rand : nat -> Z.
Hypothesis rand_nonneg : forall k, 0 <= rand k.

Lemma elem_of_validMoves b p :
  p ∈ validMoves isValidMove b <-> isValidBounds b p.1 p.2 = true /\ isValidMove p.1 p.2 = true.
Proof. unfold validMoves. rewrite list_elem_of_filter, elem_of_cells. tauto. Qed.

Lemma random_move_spec (moves : list Point) k :
  moves <> [] -> exists m, random_move rand moves k = Some (m, S k) /\ m ∈ moves.
Proof.
  intros Hne. unfold random_move.
  assert (Hlen : 0 < Z.of_nat (length moves)) by (destruct moves; [contradiction|simpl; lia]).
  pose proof (Z.rem_bound_pos (rand k) _ (rand_nonneg k) Hlen) as Hidx.
  destruct (lookup_lt_is_Some_2 moves (Z.to_nat (Z.rem (rand k) (Z.of_nat (length moves)))))
    as [m Hm]; [lia|].
  rewrite Hm. exists m. split; [reflexivity|]. eapply list_elem_of_lookup_2. exact Hm.
Qed.

Lemma weight_bounds p : -50 <= weight p <= 100.
Proof.
  unfold weight. destruct ((p.1 <? 8) && (p.2 <? 8)) eqn:E; [|lia].
  destruct (weights !! Z.to_nat p.1) as [row|] eqn:Hrow; simpl; [|lia].
  destruct (row !! Z.to_nat p.2) as [w|] eqn:Hw; simpl; [|lia].
  assert (Hall : Forall (Forall (fun w => -50 <= w <= 100)) weights).
  { unfold weights. repeat (constructor; [repeat (constructor; [lia|]); constructor|]). constructor. }
  rewrite Forall_forall in Hall. specialize (Hall row (list_elem_of_lookup_2 _ _ _ Hrow)).
  rewrite Forall_forall in Hall. apply Hall. eapply list_elem_of_lookup_2. exact Hw.
Qed.

(** The loop of level 2 keeps the best score seen, and a move that has it. *)
Lemma greedy_loop_spec (moves : list Point) : forall bestScore bestMove k,
  let '(s', m', k') := fold_left (greedy_step rand) moves (bestScore, bestMove, k) in
  bestScore <= s' /\
  (forall p, p ∈ moves -> weight p <= s') /\
  ((s' = bestScore /\ m' = bestMove) \/ (m' ∈ moves /\ s' <= weight m' + 4)).
Proof.
  induction moves as [|p moves IH]; intros bestScore bestMove k; simpl.
  - split; [lia|]. split; [intros p H; inversion H|auto].
  - pose proof (Z.rem_bound_pos (rand k) 5 (rand_nonneg k) ltac:(lia)) as Hr.
    destruct (weight p + Z.rem (rand k) 5 >? bestScore) eqn:E.
    + apply Z.gtb_lt in E.
      specialize (IH (weight p + Z.rem (rand k) 5) p (S k)).
      destruct (fold_left _ _ _) as [[s' m'] k'].
      destruct IH as (Hle & Hall & Hcase). split; [lia|]. split.
      * intros q [->|Hq]%elem_of_cons; [lia|apply Hall; exact Hq].
      * right. destruct Hcase as [[-> ->]|[Hin Hs]]; [split; [left|lia]|split; [right|]; assumption].
    + assert (weight p + Z.rem (rand k) 5 <= bestScore)
        by (destruct (Z.gtb_spec (weight p + Z.rem (rand k) 5) bestScore); [discriminate|lia]).
      specialize (IH bestScore bestMove (S k)).
      destruct (fold_left _ _ _) as [[s' m'] k'].
      destruct IH as (Hle & Hall & Hcase). split; [lia|]. split.
      * intros q [->|Hq]%elem_of_cons; [lia|apply Hall; exact Hq].
      * destruct Hcase as [[-> ->]|[Hin Hs]]; [left; auto|right; split; [right|]; assumption].
Qed.

Lemma greedy_move_spec (moves : list Point) k :
  moves <> [] ->
  exists m k', greedy_move rand moves k = Some (m, k') /\ m ∈ moves /\
               forall p, p ∈ moves -> weight p <= weight m + 4.
Proof.
  intros Hne. unfold greedy_move. destruct moves as [|first rest]; [contradiction|].
  pose proof (greedy_loop_spec (first :: rest) (-99999) first k) as H.
  destruct (fold_left _ _ _) as [[s' m'] k'].
  destruct H as (Hle & Hall & Hcase). exists m', k'. split; [reflexivity|].
  destruct Hcase as [[-> ->]|[Hin Hs]].
  - exfalso. specialize (Hall first ltac:(left)). pose proof (weight_bounds first). lia.
  - split; [exact Hin|]. intros p Hp. specialize (Hall p Hp). lia.
Qed.

(** X18.  The players of levels 1 and 2 pass exactly when no cell is playable,
    and otherwise return a playable cell of the board. *)
Theorem ai_getMove_valid (level : Z) (b : Board) (k : nat) :
  exists m k', getMove isValidMove rand level b k = Some (m, k') /\
    ((m = (-1, -1) /\ forall p, isValidBounds b p.1 p.2 = true -> isValidMove p.1 p.2 = false) \/
     (isValidBounds b m.1 m.2 = true /\ isValidMove m.1 m.2 = true)).
Proof.
  unfold getMove. case_bool_decide as Hnil.
  - exists (-1, -1), k. split; [reflexivity|]. left. split; [reflexivity|].
    intros p Hb. destruct (isValidMove p.1 p.2) eqn:E; [|reflexivity].
    assert (Hin : p ∈ validMoves isValidMove b) by (apply elem_of_validMoves; auto).
    rewrite Hnil in Hin. inversion Hin.
  - destruct (level =? 1).
    + destruct (random_move_spec _ k Hnil) as (m & E & Hin).
      exists m, (S k). split; [exact E|]. right. apply elem_of_validMoves. exact Hin.
    + destruct (greedy_move_spec _ k Hnil) as (m & k' & E & Hin & _).
      exists m, k'. split; [exact E|]. right. apply elem_of_validMoves. exact Hin.
Qed.

Lemma weight_corner p :
  0 <= p.1 -> 0 <= p.2 -> 96 <= weight p ->
  p = (0, 0) \/ p = (0, 7) \/ p = (7, 0) \/ p = (7, 7).
Proof.
  destruct p as [x y]. unfold weight. cbn [fst snd]. intros Hx Hy.
  destruct (x <? 8) eqn:Ex; [|cbn; lia]. destruct (y <? 8) eqn:Ey; [|cbn; lia].
  apply Z.ltb_lt in Ex, Ey. cbn [andb].
  assert (Hx' : x = 0 \/ x = 1 \/ x = 2 \/ x = 3 \/ x = 4 \/ x = 5 \/ x = 6 \/ x = 7) by lia.
  assert (Hy' : y = 0 \/ y = 1 \/ y = 2 \/ y = 3 \/ y = 4 \/ y = 5 \/ y = 6 \/ y = 7) by lia.
  destruct Hx' as [->|[->|[->|[->|[->|[->|[->| ->]]]]]]];
    destruct Hy' as [->|[->|[->|[->|[->|[->|[->| ->]]]]]]]; intros H;
    first [solve [auto 6] | exfalso; vm_compute in H; apply H; reflexivity].
Qed.

(** X19.  The player of level 2 returns a playable cell whose table value is
    within 4 of the best one; in particular it takes a corner of the 8 by 8
    table whenever one is playable. *)
Theorem ai_greedy_near_best (level : Z) (b : Board) (k : nat) (p : Point) :
  level <> 1 -> isValidBounds b p.1 p.2 = true -> isValidMove p.1 p.2 = true ->
  exists m k', getMove isValidMove rand level b k = Some (m, k') /\
    isValidBounds b m.1 m.2 = true /\ isValidMove m.1 m.2 = true /\
    weight p <= weight m + 4 /\
    (p ∈ [(0, 0); (0, 7); (7, 0); (7, 7)] -> m ∈ [(0, 0); (0, 7); (7, 0); (7, 7)]).
Proof.
  intros Hlevel Hb Hv. unfold getMove.
  assert (Hp : p ∈ validMoves isValidMove b) by (apply elem_of_validMoves; auto).
  case_bool_decide as Hnil; [rewrite Hnil in Hp; inversion Hp|].
  rewrite (proj2 (Z.eqb_neq level 1) Hlevel).
  destruct (greedy_move_spec _ k Hnil) as (m & k' & E & Hin & Hbest).
  exists m, k'. split; [exact E|]. apply elem_of_validMoves in Hin as [Hmb Hmv].
  split; [exact Hmb|]. split; [exact Hmv|]. split; [apply Hbest; exact Hp|].
  intros Hcorner. specialize (Hbest p Hp).
  assert (Hw : weight p = 100).
  { repeat (apply elem_of_cons in Hcorner as [->|Hcorner]; [reflexivity|]). inversion Hcorner. }
  apply isValidBounds_spec in Hmb.
  destruct (weight_corner m) as [->|[->|[->| ->]]]; [lia|lia|lia| | | |];
    repeat constructor.
Qed.
End HeuristicPlayers.
(** ** Concrete instances of the further properties *)

Lemma countPieces_partition_witness :
  countPieces small_position BLACK
  = Z.of_nat (length (filter (fun p => getPiece small_position p.1 p.2 = BLACK)
                             (cells small_position))) /\
  0 <= countPieces small_position BLACK <= size small_position * size small_position /\
  countPieces small_position EMPTY + countPieces small_position BLACK
  + countPieces small_position WHITE = size small_position * size small_position.
Proof. apply (countPieces_partition small_position BLACK). reflexivity. Defined.

Lemma countPieces_setPiece_witness :
  countPieces (setPiece small_position 0 0 WHITE) WHITE =
    if isValidBounds small_position 0 0
    then countPieces small_position WHITE + (if decide (WHITE = WHITE) then 1 else 0)
         - (if decide (getPiece small_position 0 0 = WHITE) then 1 else 0)
    else countPieces small_position WHITE.
Proof. apply (countPieces_setPiece small_position 0 0 WHITE WHITE). reflexivity. Defined.

(** The initial position of Flip-Capture on the 8 by 8 board. *)
Lemma reversi_isValidMove_brackets_witness :
  exists r, Reversi.isValidMove (Reversi.initBoard (newBoard 8)) 2 3 BLACK = Some r /\
            (r = true <->
             isValidBounds (Reversi.initBoard (newBoard 8)) 2 3 = true /\
             getPiece (Reversi.initBoard (newBoard 8)) 2 3 = EMPTY /\
             exists d k, Reversi.direction d /\
                         Reversi.brackets (Reversi.initBoard (newBoard 8)) 2 3 d BLACK k).
Proof.
  apply (reversi_isValidMove_brackets (Reversi.initBoard (newBoard 8)) 2 3 BLACK). discriminate.
Defined.

Lemma reversi_makeMove_flips_witness :
  exists b', Reversi.makeMove (Reversi.initBoard (newBoard 8)) 2 3 BLACK = Some b' /\
    wf_board b' /\ size b' = size (Reversi.initBoard (newBoard 8)) /\
    forall q,
      (q = (2, 3) \/ Reversi.flipped (Reversi.initBoard (newBoard 8)) 2 3 BLACK q ->
       getPiece b' q.1 q.2 = BLACK) /\
      (q <> (2, 3) -> ~ Reversi.flipped (Reversi.initBoard (newBoard 8)) 2 3 BLACK q ->
       getPiece b' q.1 q.2 = getPiece (Reversi.initBoard (newBoard 8)) q.1 q.2).
Proof.
  apply (reversi_makeMove_flips (Reversi.initBoard (newBoard 8)) 2 3 BLACK);
    [reflexivity | reflexivity | discriminate].
Defined.

Lemma reversi_makeMove_counts_witness :
  exists b', Reversi.makeMove (Reversi.initBoard (newBoard 8)) 2 3 BLACK = Some b' /\
    countPieces b' EMPTY = countPieces (Reversi.initBoard (newBoard 8)) EMPTY - 1 /\
    countPieces b' (getOpponent BLACK)
    < countPieces (Reversi.initBoard (newBoard 8)) (getOpponent BLACK) /\
    countPieces b' BLACK + countPieces b' (getOpponent BLACK)
    = countPieces (Reversi.initBoard (newBoard 8)) BLACK
      + countPieces (Reversi.initBoard (newBoard 8)) (getOpponent BLACK) + 1.
Proof.
  apply (reversi_makeMove_counts (Reversi.initBoard (newBoard 8)) 2 3 BLACK);
    [reflexivity | discriminate | vm_compute; reflexivity].
Defined.

Lemma reversi_hasValidMove_brackets_witness :
  exists r, Reversi.hasValidMove wipeout_board WHITE = Some r /\
            (r = true <->
             exists x y d k, isValidBounds wipeout_board x y = true /\
                             getPiece wipeout_board x y = EMPTY /\
                             Reversi.direction d /\ Reversi.brackets wipeout_board x y d WHITE k).
Proof. apply (reversi_hasValidMove_brackets wipeout_board WHITE). discriminate. Defined.

Lemma gomoku_checkWin_draw_witness :
  (Gomoku.checkWin four_row 7 10 = DRAW <->
   ~ Gomoku.five_in_row four_row 7 10 BLACK /\
   forall p, isValidBounds four_row p.1 p.2 = true -> getPiece four_row p.1 p.2 <> EMPTY) /\
  (Gomoku.checkWin four_row 7 10 = PLAYING <->
   ~ Gomoku.five_in_row four_row 7 10 BLACK /\
   exists p, isValidBounds four_row p.1 p.2 = true /\ getPiece four_row p.1 p.2 = EMPTY).
Proof. apply (gomoku_checkWin_draw four_row 7 10 BLACK); [reflexivity | discriminate]. Defined.

Lemma gomoku_move_outcome_witness :
  getPiece (Gomoku.makeMove four_row 7 11 BLACK) 7 11 = BLACK /\
  (forall q, q <> (7, 11) ->
             getPiece (Gomoku.makeMove four_row 7 11 BLACK) q.1 q.2 = getPiece four_row q.1 q.2) /\
  countPieces (Gomoku.makeMove four_row 7 11 BLACK) BLACK = countPieces four_row BLACK + 1 /\
  countPieces (Gomoku.makeMove four_row 7 11 BLACK) EMPTY = countPieces four_row EMPTY - 1 /\
  Gomoku.checkWin (Gomoku.makeMove four_row 7 11 BLACK) 7 11
  <> Gomoku.win_of (getOpponent BLACK) /\
  forall c, Gomoku.isValidMove (Gomoku.makeMove four_row 7 11 BLACK) 7 11 c = false.
Proof.
  apply (gomoku_move_outcome four_row 7 11 BLACK); [reflexivity | discriminate | reflexivity].
Defined.

Lemma go_legal_move_has_liberty_witness :
  exists r', Go.makeMove (mkGoRule corner_capture ∅) 0 0 BLACK = Some r' /\
             Go.stone (board r') BLACK (0, 0) /\
             exists l, Go.liberty (board r') BLACK (0, 0) l.
Proof.
  apply (go_legal_move_has_liberty (mkGoRule corner_capture ∅) 0 0 BLACK);
    [reflexivity | discriminate | vm_compute; reflexivity].
Defined.

Lemma go_makeMove_keeps_groups_alive_witness :
  exists r', Go.makeMove (mkGoRule corner_capture ∅) 0 0 BLACK = Some r' /\
             Go.all_alive (board r').
Proof.
  apply (go_makeMove_keeps_groups_alive (mkGoRule corner_capture ∅) 0 0 BLACK);
    [reflexivity | discriminate | vm_compute; reflexivity |].
  apply alive_check_sound. vm_compute. reflexivity.
Defined.

Lemma calculateScore_area_witness :
  exists blackScore whiteScore Tb Tw,
    Go.calculateScore corner_eye = Some (blackScore, whiteScore) /\
    Go.territory_of corner_eye BLACK Tb /\ Go.territory_of corner_eye WHITE Tw /\
    (blackScore == inject_Z (countPieces corner_eye BLACK + Z.of_nat (length Tb)))%Q /\
    (whiteScore == inject_Z (countPieces corner_eye WHITE + Z.of_nat (length Tw)) + Go.komi)%Q.
Proof. apply (calculateScore_area corner_eye). reflexivity. Defined.

Lemma sample_tree_stats_ok : MCTS.stats_ok sample_tree.
Proof.
  intros k n Hk.
  destruct k as [|[|[|[|k]]]]; simpl in Hk; inversion Hk; subst; simpl;
    (split; [unfold Qle; simpl; lia|]); (split; [unfold Qle; simpl; lia|]);
    intros p np Hp Hnp; inversion Hp; subst; simpl in Hnp; inversion Hnp; subst; simpl; lia.
Defined.

Lemma backpropagate_keeps_stats_witness :
  exists t', MCTS.backpropagate DRAW 3 sample_tree = Some t' /\
    MCTS.tree_wf t' /\ MCTS.stats_ok t' /\
    length t' = length sample_tree /\
    forall k n, sample_tree !! k = Some n ->
      exists n', t' !! k = Some n' /\ MCTS.parent n' = MCTS.parent n /\
                 MCTS.children n' = MCTS.children n.
Proof.
  apply (backpropagate_keeps_stats sample_tree 3 DRAW);
    [exact sample_tree_wf | simpl; lia | exact sample_tree_stats_ok].
Defined.

Lemma decision_first_most_visited_witness :
  exists cs1 c cs2,
    [MCTS.mkNode (Some 0%nat) [3%nat] (0, 0) BLACK 3 1 [];
     MCTS.mkNode (Some 0%nat) [] (0, 1) BLACK 2 (3 # 2) []] = cs1 ++ c :: cs2 /\
    MCTS.decision sample_tree 0 = Some (MCTS.move c) /\
    (forall c', c' ∈ cs1 -> MCTS.visits c' < MCTS.visits c) /\
    (forall c', c' ∈ cs2 -> MCTS.visits c' <= MCTS.visits c).
Proof.
  apply (decision_first_most_visited sample_tree 0
           (MCTS.mkNode None [1; 2]%nat (-1, -1) WHITE 5 2 []));
    [reflexivity | reflexivity | | discriminate].
  intros c Hc. apply elem_of_cons in Hc as [->|Hc]; [simpl; lia|].
  apply elem_of_cons in Hc as [->|Hc]; [simpl; lia|]. inversion Hc.
Defined.

Lemma gomoku_playout_status_witness :
  let '(bScore, wScore) := GameRule.calculateScore five_row in
  MCTS.final_status (Gomoku.checkWin five_row 0 0) bScore wScore =
  if countPieces five_row WHITE <? countPieces five_row BLACK then BLACK_WIN
  else if countPieces five_row BLACK <? countPieces five_row WHITE then WHITE_WIN
  else DRAW.
Proof. apply (gomoku_playout_status five_row). left. reflexivity. Defined.

Lemma ai_getMove_valid_witness :
  exists m k',
    AI.getMove (fun x y => Gomoku.isValidMove four_row x y WHITE) (fun k => Z.of_nat k)
               1 four_row 0 = Some (m, k') /\
    ((m = (-1, -1) /\
      forall p, isValidBounds four_row p.1 p.2 = true ->
                Gomoku.isValidMove four_row p.1 p.2 WHITE = false) \/
     (isValidBounds four_row m.1 m.2 = true /\ Gomoku.isValidMove four_row m.1 m.2 WHITE = true)).
Proof.
  apply (ai_getMove_valid (fun x y => Gomoku.isValidMove four_row x y WHITE)
                          (fun k => Z.of_nat k)).
  intros k. lia.
Defined.

Lemma ai_greedy_near_best_witness :
  exists m k',
    AI.getMove (fun x y => Gomoku.isValidMove (newBoard 8) x y BLACK) (fun k => Z.of_nat k)
               2 (newBoard 8) 0 = Some (m, k') /\
    isValidBounds (newBoard 8) m.1 m.2 = true /\
    Gomoku.isValidMove (newBoard 8) m.1 m.2 BLACK = true /\
    AI.weight (7, 7) <= AI.weight m + 4 /\
    ((7, 7) ∈ [(0, 0); (0, 7); (7, 0); (7, 7)] -> m ∈ [(0, 0); (0, 7); (7, 0); (7, 7)]).
Proof.
  apply (ai_greedy_near_best (fun x y => Gomoku.isValidMove (newBoard 8) x y BLACK)
                             (fun k => Z.of_nat k));
    [intros k; lia | discriminate | reflexivity | reflexivity].
Defined.

Lemma searched_tree_ok :
  MCTS.tree_wf searched_tree /\ MCTS.links_ok searched_tree /\
  MCTS.stats_ok searched_tree /\ MCTS.visited_ok searched_tree.
Proof.
  split; [|split; [|split]].
  - intros i n p Hi Hp.
    destruct i as [|[|[|i]]]; simpl in Hi; inversion Hi; subst; simpl in Hp;
      inversion Hp; subst; lia.
  - intros i n c Hi Hc.
    destruct i as [|[|[|i]]]; simpl in Hi; inversion Hi; subst; simpl in Hc.
    + apply elem_of_cons in Hc as [->|Hc]; [eexists; split; reflexivity|].
      apply elem_of_cons in Hc as [->|Hc]; [eexists; split; reflexivity|]. inversion Hc.
    + inversion Hc.
    + inversion Hc.
  - intros k n Hk.
    destruct k as [|[|[|k]]]; simpl in Hk; inversion Hk; subst; simpl;
      (split; [unfold Qle; simpl; lia|]); (split; [unfold Qle; simpl; lia|]);
      intros p np Hp Hnp; inversion Hp; subst; simpl in Hnp; inversion Hnp; subst; simpl; lia.
  - intros k n Hk Hp.
    destruct k as [|[|[|k]]]; simpl in Hk; inversion Hk; subst; simpl in *;
      [destruct Hp as [? Hp]; discriminate|lia|lia].
Defined.

Lemma search_step_keeps_tree_witness :
  exists t',
    MCTS.search_step searched_tree 0 7 BLACK [] WHITE_WIN = Some t' /\
    MCTS.tree_wf t' /\ MCTS.links_ok t' /\ MCTS.stats_ok t' /\ MCTS.visited_ok t' /\
    MCTS.uct_defined t'.
Proof.
  apply (search_step_keeps_tree searched_tree 0 7 BLACK [] WHITE_WIN);
    [apply searched_tree_ok | apply searched_tree_ok | apply searched_tree_ok
    | apply searched_tree_ok | lia | simpl; lia].
Defined.

(** ** Accounts and recorded results *)

Section AccountFacts.
Import UserManager.


Lemma incr_inv n n' : incr n = Some n' -> n' = n + 1.
Proof. unfold incr. destruct (n <? BoardIO.INT_MAX); congruence. Qed.

Lemma continues_refl u : continues u u.
Proof. unfold continues. repeat split; lia. Qed.

Lemma apply_op_ok (m m' : UserManager) (o : Op) :
  accounts_ok m -> apply_op m o = Some m' ->
  accounts_ok m' /\
  (forall name u, users m !! name = Some u ->
     exists u', users m' !! name = Some u' /\ continues u u') /\
  (forall name, is_Some (users m' !! name) ->
     is_Some (users m !! name) \/ exists p, o = OpRegister name p).
Proof.
  intros [Hus Hcur] E. destruct o as [u p|u p| |v]; simpl in E.
  - (* registerUser *)
    injection E as <-. unfold registerUser.
    destruct (users m !! u) as [usr|] eqn:Hu; simpl.
    + split; [split; assumption|]. split; [|auto].
      intros name u0 H0. exists u0. split; [exact H0|apply continues_refl].
    + split; [split|split].
      * intros name u0. simpl. rewrite lookup_insert_Some.
        intros [[<- <-]|[Hne H0]]; [simpl; split; [reflexivity|lia]|apply Hus; exact H0].
      * simpl. destruct Hcur as [Hc|[usr Hc]]; [left; exact Hc|right].
        destruct (decide (u = currentUser m)) as [->|Hne]; [congruence|].
        rewrite lookup_insert_ne by exact Hne. eauto.
      * intros name u0 H0. exists u0. split; [|apply continues_refl].
        rewrite lookup_insert_ne; [exact H0|]. intros <-. congruence.
      * intros name. destruct (decide (u = name)) as [<-|Hne]; [right; eauto|].
        rewrite lookup_insert_ne by exact Hne. auto.
  - (* login *)
    injection E as <-. unfold login.
    destruct (users m !! u) as [usr|] eqn:Hu; simpl.
    + destruct (decide (password usr = p)); simpl.
      * split; [split; [exact Hus|right; simpl; rewrite Hu; eauto]|]. split; [|auto].
        intros name u0 H0. exists u0. split; [exact H0|apply continues_refl].
      * split; [split; assumption|]. split; [|auto].
        intros name u0 H0. exists u0. split; [exact H0|apply continues_refl].
    + split; [split; assumption|]. split; [|auto].
      intros name u0 H0. exists u0. split; [exact H0|apply continues_refl].
  - (* logout *)
    injection E as <-. unfold logout. simpl.
    split; [split; [exact Hus|left; reflexivity]|]. split; [|auto].
    intros name u0 H0. exists u0. split; [exact H0|apply continues_refl].
  - (* recordGameResult *)
    unfold recordGameResult in E. case_bool_decide as Hc.
    { injection E as <-. split; [split; assumption|]. split; [|auto].
      intros name u0 H0. exists u0. split; [exact H0|apply continues_refl]. }
    destruct Hcur as [Hc'|[usr Husr]]; [contradiction|].
    unfold entry in E. rewrite Husr in E. simpl in E.
    destruct (incr (totalGames usr)) as [t|] eqn:Et; [|discriminate].
    apply incr_inv in Et.
    assert (Ew : exists w, (if v then incr (wins usr) else Some (wins usr)) = Some w /\
                           wins usr <= w <= wins usr + 1).
    { destruct (if v then incr (wins usr) else Some (wins usr)) as [w|] eqn:Ew; [|discriminate].
      exists w. split; [reflexivity|]. destruct v; [apply incr_inv in Ew|injection Ew as <-]; lia. }
    destruct Ew as (w & Ew & Hw). rewrite Ew in E. injection E as <-.
    destruct (Hus _ _ Husr) as [Hname Hstat]. simpl.
    split; [split|split].
    + intros name u0. simpl. rewrite lookup_insert_Some.
      intros [[<- <-]|[Hne H0]]; [simpl; split; [exact Hname|lia]|apply Hus; exact H0].
    + right. simpl. rewrite lookup_insert_eq. eauto.
    + intros name u0 H0. destruct (decide (currentUser m = name)) as [<-|Hne].
      * rewrite lookup_insert_eq. eexists. split; [reflexivity|].
        assert (u0 = usr) by congruence. subst u0. unfold continues. simpl. repeat split; lia.
      * rewrite lookup_insert_ne by exact Hne. exists u0. split; [exact H0|apply continues_refl].
    + intros name. destruct (decide (currentUser m = name)) as [<-|Hne]; [left; eauto|].
      rewrite lookup_insert_ne by exact Hne. auto.
Qed.

Lemma continues_trans u1 u2 u3 : continues u1 u2 -> continues u2 u3 -> continues u1 u3.
Proof. unfold continues. intros (? & ? & ? & ?) (? & ? & ? & ?). repeat split; try congruence; lia. Qed.

(** X20.  Whatever calls are made on the account manager, no account is
    removed or has its name or password changed, no count of wins or games
    decreases, wins never exceed games, and an account appears only by
    registration: recording a result never creates one. *)
Theorem accounts_persist (ops : list Op) : forall (m m' : UserManager),
  accounts_ok m -> for_each (fun o m => apply_op m o) ops m = Some m' ->
  accounts_ok m' /\
  (forall name u, users m !! name = Some u ->
     exists u', users m' !! name = Some u' /\ continues u u') /\
  (forall name, is_Some (users m' !! name) ->
     is_Some (users m !! name) \/ exists p, OpRegister name p ∈ ops).
Proof.
  induction ops as [|o ops IH]; intros m m' Hok E; simpl in E.
  - injection E as <-. split; [exact Hok|]. split; [|auto].
    intros name u H. exists u. split; [exact H|apply continues_refl].
  - destruct (apply_op m o) as [m1|] eqn:E1; [|discriminate].
    destruct (apply_op_ok m m1 o Hok E1) as (Hok1 & Hkeep1 & Hnew1).
    destruct (IH m1 m' Hok1 E) as (Hok' & Hkeep & Hnew).
    split; [exact Hok'|]. split.
    + intros name u H. destruct (Hkeep1 name u H) as (u1 & H1 & Hc1).
      destruct (Hkeep name u1 H1) as (u' & H' & Hc'). exists u'. split; [exact H'|].
      eapply continues_trans; eassumption.
    + intros name H. destruct (Hnew name H) as [H1|(p & Hp)].
      * destruct (Hnew1 name H1) as [H0|(p & ->)]; [left; exact H0|right; exists p; left].
      * right. exists p. right. exact Hp.
Qed.

(** X21.  A name that is free can be registered, and then logging in under
    it succeeds with the registered password and with no other; with the
    empty name the login succeeds and still leaves nobody logged in. *)
Theorem register_then_login (m : UserManager) (u p : string) :
  users m !! u = None ->
  let m1 := (registerUser m u p).2 in
  (registerUser m u p).1 = true /\
  (registerUser m1 u p).1 = false /\
  (forall p', (login m1 u p').1 = bool_decide (p' = p)) /\
  currentUser (login m1 u p).2 = u /\
  isLoggedIn (login m1 u p).2 = negb (bool_decide (u = ""%string)).
Proof.
  intros Hfree. unfold registerUser. rewrite Hfree. cbn [fst snd users currentUser].
  rewrite lookup_insert_eq. cbn [fst].
  split; [reflexivity|]. split; [reflexivity|].
  assert (Hlogin : forall p', login (mkUserManager (<[u:=mkUser u p 0 0]> (users m)) (currentUser m)) u p'
                   = if decide (p = p') then (true, mkUserManager (<[u:=mkUser u p 0 0]> (users m)) u)
                     else (false, mkUserManager (<[u:=mkUser u p 0 0]> (users m)) (currentUser m))).
  { intros p'. unfold login. cbn [users currentUser]. rewrite lookup_insert_eq. reflexivity. }
  split; [|split].
  - intros p'. rewrite Hlogin. destruct (decide (p = p')) as [->|Hne]; simpl.
    + rewrite bool_decide_eq_true_2; reflexivity.
    + rewrite bool_decide_eq_false_2; [reflexivity|congruence].
  - rewrite Hlogin. rewrite decide_True by reflexivity. reflexivity.
  - rewrite Hlogin. rewrite decide_True by reflexivity. reflexivity.
Qed.
End AccountFacts.

Section ResultFacts.
Import UserManager GameManager.


End ResultFacts.

(** ** The game loop: undo and replay *)

Section RuleFacts.
Import GameManager.

Lemma go_isValidMove_board r x y c v r' :
  Go.isValidMove r x y c = Some (v, r') -> board r' = board r.
Proof.
  unfold Go.isValidMove.
  destruct (isValidBounds (board r) x y) eqn:Hb; cbn [negb orb]; [|intros [= _ <-]; reflexivity].
  case_bool_decide as He; cbn [negb]; [|intros [= _ <-]; reflexivity].
  destruct (captures_loop x y (getOpponent c) Go.dirs4 (getOpponent_stone c) false
              (Go.with_board r (setPiece (board r) x y c)))
    as (cap & r2 & E & Hb2 & _).
  rewrite E. simpl in Hb2. destruct cap; cbn [negb].
  - intros [= _ <-]. simpl. rewrite Hb2. apply setPiece_undo. exact He.
  - destruct (getLiberties_total r2 x y c []) as (n & G & r3 & E3 & Hb3).
    rewrite E3. intros [= _ <-]. simpl. rewrite Hb3, Hb2. apply setPiece_undo. exact He.
Qed.

Lemma rule_isValidMove_board g r x y c v r' :
  isValidMove g r x y c = Some (v, r') -> board r' = board r.
Proof.
  destruct g; simpl.
  - intros [= _ <-]. reflexivity.
  - apply go_isValidMove_board.
  - destruct (Reversi.isValidMove (board r) x y c); [|discriminate]. intros [= _ <-]. reflexivity.
Qed.

Lemma rule_isValidMove_bounds g r x y c r' :
  isValidMove g r x y c = Some (true, r') -> isValidBounds (board r) x y = true.
Proof.
  destruct (isValidBounds (board r) x y) eqn:Hb; [reflexivity|]. destruct g; simpl.
  - unfold Gomoku.isValidMove. rewrite Hb. discriminate.
  - unfold Go.isValidMove. rewrite Hb. discriminate.
  - unfold Reversi.isValidMove. rewrite Hb. discriminate.
Qed.

Lemma hasValidMove_loop_board g c cs : forall r v r',
  hasValidMove_loop g c cs r = Some (v, r') -> board r' = board r.
Proof.
  induction cs as [|p cs IH]; intros r v r'; simpl.
  - intros [= _ <-]. reflexivity.
  - destruct (isValidMove g r p.1 p.2 c) as [[[|] r1]|] eqn:E; [| |discriminate].
    + intros [= _ <-]. eapply rule_isValidMove_board. exact E.
    + intros H. rewrite (IH r1 v r' H). eapply rule_isValidMove_board. exact E.
Qed.

Lemma hasValidMove_board g r c v r' :
  hasValidMove g r c = Some (v, r') -> board r' = board r.
Proof. apply hasValidMove_loop_board. Qed.

(** *** The board after a move does not depend on the marker array *)

Lemma removeDead_step_marks x y opp d r1 r2 :
  board r1 = board r2 ->
  board <$> Go.removeDead_step x y opp d r1 = board <$> Go.removeDead_step x y opp d r2.
Proof.
  destruct r1 as [b V1], r2 as [b2 V2]. simpl. intros <-.
  unfold Go.removeDead_step. cbn [board].
  destruct (isValidBounds b (x + d.1) (y + d.2) && bool_decide (getPiece b (x + d.1) (y + d.2) = opp));
    [|reflexivity].
  pose proof (getLiberties_ignores_stale_marks b V1 V2 (x + d.1) (y + d.2) opp []) as H.
  destruct (getLiberties_total (mkGoRule b V1) (x + d.1) (y + d.2) opp []) as (n1 & G1 & r1 & E1 & Hb1).
  destruct (getLiberties_total (mkGoRule b V2) (x + d.1) (y + d.2) opp []) as (n2 & G2 & r2 & E2 & Hb2).
  rewrite E1, E2 in H |- *. simpl in H. injection H as -> ->. simpl in Hb1, Hb2.
  destruct (decide (n2 = 0)); simpl; congruence.
Qed.

Lemma removeDead_loop_marks x y opp ds : forall r1 r2,
  board r1 = board r2 ->
  board <$> for_each (Go.removeDead_step x y opp) ds r1
  = board <$> for_each (Go.removeDead_step x y opp) ds r2.
Proof.
  induction ds as [|d ds IH]; intros r1 r2 Hb; simpl; [congruence|].
  pose proof (removeDead_step_marks x y opp d r1 r2 Hb) as H.
  destruct (Go.removeDead_step x y opp d r1) as [r1'|],
           (Go.removeDead_step x y opp d r2) as [r2'|]; simpl in H; try discriminate;
    [|reflexivity].
  apply IH. congruence.
Qed.

Lemma rule_makeMove_marks g r1 r2 x y c :
  board r1 = board r2 -> board <$> makeMove g r1 x y c = board <$> makeMove g r2 x y c.
Proof.
  intros Hb. destruct g; simpl.
  - rewrite Hb. reflexivity.
  - unfold Go.makeMove. destruct ((x =? -1) && (y =? -1)); [simpl; congruence|].
    apply removeDead_loop_marks. simpl. rewrite Hb. reflexivity.
  - rewrite Hb. destruct (Reversi.makeMove (board r2) x y c); reflexivity.
Qed.

(** *** A move on a cell of the board keeps the board well formed *)

Lemma rule_makeMove_wf g r x y c r' :
  wf_board (board r) -> c <> EMPTY -> isValidBounds (board r) x y = true ->
  makeMove g r x y c = Some r' ->
  wf_board (board r') /\ size (board r') = size (board r).
Proof.
  intros Hwf Hc Hb. destruct g; simpl.
  - intros [= <-]. simpl. unfold Gomoku.makeMove.
    split; [apply wf_setPiece; exact Hwf|apply size_setPiece].
  - unfold Go.makeMove.
    assert (Hxy : (x =? -1) && (y =? -1) = false).
    { apply isValidBounds_spec in Hb. apply andb_false_iff. left. apply Z.eqb_neq. lia. }
    rewrite Hxy. unfold Go.removeDeadStones.
    set (placed := setPiece (board r) x y c).
    assert (Hinv0 : removal_inv placed x y (getOpponent c) [] (board (Go.with_board r placed))).
    { simpl. split; [reflexivity|]. split; [apply wf_setPiece; exact Hwf|].
      split; [|left; reflexivity]. intros q (d & Hd & _). inversion Hd. }
    destruct (removeDead_loop_inv placed x y (getOpponent c) (getOpponent_stone c)
                Go.dirs4 [] (Go.with_board r placed) Hinv0) as (r1 & E & (Hs & Hwf1 & _)).
    rewrite E. intros [= <-]. split; [exact Hwf1|]. rewrite Hs. apply size_setPiece.
  - destruct (makeMove_inv (board r) x y c Hwf Hb Hc) as (b' & E & Hwf' & Hs & _).
    rewrite E. intros [= <-]. simpl. auto.
Qed.
End RuleFacts.

Section ReplayFacts.
Import GameManager.

Lemma player_after_snoc p h mv : player_after p (h ++ [mv]) = getOpponent (player_after p h).
Proof. unfold player_after. rewrite fold_left_app. reflexivity. Qed.

Lemma player_after_stone h : player_after BLACK h <> EMPTY.
Proof.
  induction h as [|mv h IH] using rev_ind; [discriminate|].
  rewrite player_after_snoc. apply getOpponent_stone.
Qed.

Lemma player_after_cons p mv h : player_after p (mv :: h) = player_after (getOpponent p) h.
Proof. reflexivity. Qed.

Lemma replay_loop_snoc g h mv : forall r p,
  replay_loop g r p (h ++ [mv]) =
  match replay_loop g r p h with
  | Some r' =>
      if mv.1 =? -1 then Some r' else makeMove g r' mv.1 mv.2 (player_after p h)
  | None => None
  end.
Proof.
  induction h as [|m0 h IH]; intros r p; simpl.
  - destruct (mv.1 =? -1); [reflexivity|]. destruct (makeMove g r mv.1 mv.2 p); reflexivity.
  - destruct (m0.1 =? -1); [apply IH|].
    destruct (makeMove g r m0.1 m0.2 p); [apply IH|reflexivity].
Qed.

Lemma replay_loop_marks g h : forall r1 r2 p,
  board r1 = board r2 -> board <$> replay_loop g r1 p h = board <$> replay_loop g r2 p h.
Proof.
  induction h as [|m0 h IH]; intros r1 r2 p Hb; simpl; [congruence|].
  destruct (m0.1 =? -1); [apply IH; exact Hb|].
  pose proof (rule_makeMove_marks g r1 r2 m0.1 m0.2 p Hb) as H.
  destruct (makeMove g r1 m0.1 m0.2 p) as [r1'|], (makeMove g r2 m0.1 m0.2 p) as [r2'|];
    simpl in H; try discriminate; [|reflexivity].
  apply IH. congruence.
Qed.

Lemma replays_pass g b0 h b : replays g b0 h b -> replays g b0 (h ++ [(-1, -1)]) b.
Proof.
  intros (r & E & Hb). exists r. rewrite replay_loop_snoc, E. split; [reflexivity|exact Hb].
Qed.

Lemma replays_move g b0 h b r mv r' :
  replays g b0 h b -> board r = b -> (mv.1 =? -1) = false ->
  makeMove g r mv.1 mv.2 (player_after BLACK h) = Some r' ->
  replays g b0 (h ++ [mv]) (board r').
Proof.
  intros (rh & E & Hb) Hr Hmv Hmake. unfold replays. rewrite replay_loop_snoc, E, Hmv.
  pose proof (rule_makeMove_marks g rh r mv.1 mv.2 (player_after BLACK h) ltac:(congruence)) as H.
  rewrite Hmake in H. destruct (makeMove g rh mv.1 mv.2 (player_after BLACK h)) as [r1|];
    [|discriminate].
  simpl in H. exists r1. split; [reflexivity|congruence].
Qed.

Lemma clear_wf (b : Board) : wf_board b -> clear b = newBoard (size b).
Proof.
  intros (Hs & Hl & Hrows)%wf_board_spec. unfold clear, newBoard. f_equal.
  apply list_eq_same_length with (Z.to_nat (size b)).
  - rewrite length_replicate. reflexivity.
  - rewrite length_map. lia.
  - intros i row1 row2 Hi H1 H2. apply lookup_replicate in H2 as [-> _].
    rewrite list_lookup_fmap in H1. destruct (grid b !! i) as [row|] eqn:Hrow; [|discriminate].
    injection H1 as <-. specialize (Hrows row (list_elem_of_lookup_2 _ _ _ Hrow)).
    replace (Z.to_nat (size b)) with (length row) by lia.
    clear. induction row as [|c row IH]; [reflexivity|]. simpl. rewrite IH. reflexivity.
Qed.
End ReplayFacts.

Section LoopFacts.
Import GameManager.
Variable b0 : Board.

Ltac conjuncts :=
  repeat match goal with |- _ /\ _ => split; [first [reflexivity|assumption|congruence]|] end.

Lemma coherent_with_rule m r :
  board r = board (rule m) -> coherent b0 m -> coherent b0 (with_rule m r).
Proof. intros Hb [Hcur Hst]. split; [|exact Hst]. unfold snapshot. simpl. rewrite Hb. exact Hcur. Qed.

(** After a recorded pass. *)
Lemma record_pass_spec m m1 :
  record_pass m = Some m1 ->
  rule m1 = rule m /\ gameType m1 = gameType m /\ currentTurn m1 = currentTurn m /\
  passCount m1 = passCount m + 1 /\ undoStack m1 = snapshot m :: undoStack m /\
  moveHistory m1 = moveHistory m ++ [(-1, -1)].
Proof.
  unfold record_pass. destruct (UserManager.incr (passCount m)) as [n|] eqn:E; [|discriminate].
  intros [= <-]. simpl. unfold UserManager.incr in E.
  destruct (passCount m <? BoardIO.INT_MAX); [|discriminate]. injection E as <-. auto 10.
Qed.

Lemma coherent_pass m m1 :
  coherent b0 m -> record_pass m = Some m1 ->
  coherent b0 (with_turn m1 (getOpponent (currentTurn m1))) /\
  wf_board (board (rule m1)) /\ size (board (rule m1)) = size b0 /\
  replays (gameType m) b0 (moveHistory m1) (board (rule m1)).
Proof.
  intros [Hcur Hst] E. destruct (record_pass_spec m m1 E) as (Hr & Hg & Ht & Hp & Hs & Hh).
  pose proof Hcur as (Hwf & Hsz & Hrep & Hturn). simpl in Hwf, Hsz, Hrep, Hturn.
  rewrite Hr, Hh. split; [|split; [exact Hwf|split; [exact Hsz|apply replays_pass; exact Hrep]]].
  split.
  - unfold recorded, snapshot. simpl. rewrite Hr, Hg, Hh, Ht, Hturn, player_after_snoc.
    split; [exact Hwf|]. split; [exact Hsz|]. split; [apply replays_pass; exact Hrep|reflexivity].
  - simpl. rewrite Hs, Hg. constructor; [exact Hcur|exact Hst].
Qed.

Lemma game_over_spec m m' out :
  game_over m = Some (m', out) -> m' = m /\ out <> Continue.
Proof.
  unfold game_over. destruct (calculateScore (gameType m) (rule m)) as [[bs ws]|]; [|discriminate].
  intros [= <- <-]. split; [reflexivity|discriminate].
Qed.

Lemma reversi_recheck_spec m x y status status' m' :
  reversi_recheck m x y status = Some (status', m') ->
  exists r, m' = with_rule m r /\ board r = board (rule m).
Proof.
  unfold reversi_recheck. destruct (_ || _ || _).
  - intros [= _ <-]. exists (rule m). split; [destruct m; reflexivity|reflexivity].
  - destruct (hasValidMove (gameType m) (rule m) BLACK) as [[[|] r1]|] eqn:E1; [| |discriminate].
    + intros [= _ <-]. exists r1. split; [reflexivity|]. eapply hasValidMove_board. exact E1.
    + destruct (hasValidMove (gameType m) r1 WHITE) as [[[|] r2]|] eqn:E2; [| |discriminate];
        intros [= _ <-]; exists r2; (split; [reflexivity|]);
        rewrite (hasValidMove_board _ _ _ _ _ E2); eapply hasValidMove_board; exact E1.
Qed.

Lemma play_move_coherent m move m' out :
  coherent b0 m -> isValidBounds (board (rule m)) move.1 move.2 = true ->
  (move.1 =? -1) = false ->
  play_move m move = Some (m', out) ->
  gameType m' = gameType m /\
  wf_board (board (rule m')) /\ size (board (rule m')) = size b0 /\
  replays (gameType m) b0 (moveHistory m') (board (rule m')) /\
  undoStack m' = snapshot m :: undoStack m /\
  (out = Continue -> coherent b0 m').
Proof.
  intros [Hcur Hst] Hb Hmv. pose proof Hcur as (Hwf & Hsz & Hrep & Hturn).
  simpl in Hwf, Hsz, Hrep, Hturn.
  unfold play_move. cbn [saveState rule gameType currentTurn undoStack moveHistory].
  destruct (makeMove (gameType m) (rule m) move.1 move.2 (currentTurn m)) as [r|] eqn:Emake;
    [|discriminate].
  assert (Hstone : currentTurn m <> EMPTY) by (rewrite Hturn; apply player_after_stone).
  destruct (rule_makeMove_wf _ _ _ _ _ _ Hwf Hstone Hb Emake) as [Hwf' Hsz'].
  assert (Hrep' : replays (gameType m) b0 (moveHistory m ++ [move]) (board r)).
  { eapply replays_move; [exact Hrep|reflexivity|exact Hmv|]. rewrite <- Hturn. exact Emake. }
  set (m2 := mkManager r (gameType m) (currentTurn m) 0 (snapshot m :: undoStack m)
                       (moveHistory m ++ [move])).
  assert (Hchecked : forall status m3,
            (if decide (gameType m = REVERSI)
             then reversi_recheck m2 move.1 move.2 (checkWin (gameType m) r move.1 move.2)
             else Some (checkWin (gameType m) r move.1 move.2, m2)) = Some (status, m3) ->
            exists r3, m3 = with_rule m2 r3 /\ board r3 = board r).
  { intros status m3. destruct (decide (gameType m = REVERSI)).
    - intros H. apply reversi_recheck_spec in H. exact H.
    - intros [= _ <-]. exists r. split; reflexivity. }
  fold (snapshot m). fold m2.
  destruct (if decide (gameType m = REVERSI) then _ else _) as [[status m3]|] eqn:Echk; [|discriminate].
  destruct (Hchecked status m3 eq_refl) as (r3 & -> & Hb3).
  destruct (decide (status = PLAYING)); intros [= <- <-]; simpl; rewrite ?Hb3.
  - conjuncts.
    intros _. split.
    + unfold recorded, snapshot. simpl. rewrite Hb3, Hturn, player_after_snoc.
      split; [exact Hwf'|]. split; [congruence|]. split; [exact Hrep'|reflexivity].
    + simpl. constructor; [exact Hcur|exact Hst].
  - conjuncts. discriminate.
Qed.

Lemma handle_move_coherent m move m' out :
  coherent b0 m -> handle_move m move = Some (m', out) ->
  gameType m' = gameType m /\
  wf_board (board (rule m')) /\ size (board (rule m')) = size b0 /\
  replays (gameType m) b0 (moveHistory m') (board (rule m')) /\
  (out = Continue -> coherent b0 m').
Proof.
  intros Hco. pose proof Hco as [Hcur Hst]. pose proof Hcur as (Hwf & Hsz & Hrep & Hturn).
  simpl in Hwf, Hsz, Hrep, Hturn.
  assert (Hsame : gameType m = gameType m /\
                  wf_board (board (rule m)) /\ size (board (rule m)) = size b0 /\
                  replays (gameType m) b0 (moveHistory m) (board (rule m)) /\
                  (Continue = Continue -> coherent b0 m)) by auto.
  unfold handle_move.
  destruct (move.1 =? -2).
  { destruct (undoStack m) as [|prev rest] eqn:Hstack.
    - intros [= <- <-]. exact Hsame.
    - intros [= <- <-]. simpl. apply Forall_cons in Hst as [Hprev Hrest].
      pose proof Hprev as (Hwfp & Hszp & Hrepp & Hturnp).
      conjuncts. intros _.
      split; [exact Hprev|exact Hrest]. }
  destruct (move.1 =? -3); [intros [= <- <-]; exact Hsame|].
  destruct (move.1 =? -4).
  { intros [= <- <-]. conjuncts. discriminate. }
  destruct (move.1 =? -1) eqn:Hmv.
  { destruct (decide (gameType m = GO)); [|intros [= <- <-]; exact Hsame].
    destruct (record_pass m) as [m1|] eqn:Epass; [|discriminate].
    destruct (coherent_pass m m1 Hco Epass) as (Hco1 & Hwf1 & Hsz1 & Hrep1).
    destruct (record_pass_spec m m1 Epass) as (Hr & Hg & Ht & Hp & Hs & Hh).
    destruct (2 <=? passCount (with_turn m1 (getOpponent (currentTurn m1)))).
    - intros H. apply game_over_spec in H as [-> Hout]. simpl.
      conjuncts. intros ->. contradiction.
    - intros [= <- <-]. simpl. conjuncts.
      intros _. exact Hco1. }
  destruct (isValidMove (gameType m) (rule m) move.1 move.2 (currentTurn m))
    as [[[|] r]|] eqn:Ev; [| |discriminate].
  - intros H. pose proof (rule_isValidMove_board _ _ _ _ _ _ _ Ev) as Hb.
    pose proof (rule_isValidMove_bounds _ _ _ _ _ _ Ev) as Hbounds.
    destruct (play_move_coherent (with_rule m r) move m' out) as (H1 & H2 & H3 & H4 & _ & H5).
    + apply coherent_with_rule; assumption.
    + simpl. rewrite Hb. exact Hbounds.
    + exact Hmv.
    + exact H.
    + auto.
  - intros [= <- <-]. pose proof (rule_isValidMove_board _ _ _ _ _ _ _ Ev) as Hb.
    simpl. rewrite Hb. conjuncts.
    intros _. apply coherent_with_rule; assumption.
Qed.

Lemma iteration_coherent m move m' out :
  coherent b0 m -> iteration m move = Some (m', out) ->
  gameType m' = gameType m /\
  wf_board (board (rule m')) /\ size (board (rule m')) = size b0 /\
  replays (gameType m) b0 (moveHistory m') (board (rule m')) /\
  (out = Continue -> coherent b0 m').
Proof.
  intros Hco. unfold iteration. destruct (supportsPass (gameType m)).
  2:{ apply handle_move_coherent. exact Hco. }
  destruct (hasValidMove (gameType m) (rule m) (currentTurn m)) as [[[|] r]|] eqn:Ehv;
    [| |discriminate].
  - pose proof (hasValidMove_board _ _ _ _ _ Ehv) as Hb. intros H.
    apply (handle_move_coherent (with_rule m r) move m' out); [|exact H].
    apply coherent_with_rule; assumption.
  - pose proof (hasValidMove_board _ _ _ _ _ Ehv) as Hb.
    destruct (record_pass (with_rule m r)) as [m1|] eqn:Epass; [|discriminate].
    destruct (coherent_pass (with_rule m r) m1 (coherent_with_rule m r Hb Hco) Epass)
      as (Hco1 & Hwf1 & Hsz1 & Hrep1).
    destruct (record_pass_spec _ m1 Epass) as (Hr & Hg & Ht & Hp & Hs & Hh).
    simpl in Hg, Hrep1.
    destruct (_ || _).
    + intros H. apply game_over_spec in H as [-> Hout].
      conjuncts. intros ->. contradiction.
    + intros [= <- <-]. simpl. conjuncts.
      intros _. exact Hco1.
Qed.

Lemma gameLoop_coherent moves : forall m m' out,
  coherent b0 m -> wf_board (board (rule m)) ->
  gameLoop m moves = Some (m', out) ->
  gameType m' = gameType m /\
  wf_board (board (rule m')) /\ size (board (rule m')) = size b0 /\
  replays (gameType m) b0 (moveHistory m') (board (rule m')).
Proof.
  induction moves as [|move moves IH]; intros m m' out Hco Hwf; simpl.
  - intros [= <- <-]. destruct Hco as [(Hwf0 & Hsz & Hrep & _) _]. auto.
  - destruct (iteration m move) as [[m1 out1]|] eqn:E; [|discriminate].
    destruct (iteration_coherent m move m1 out1 Hco E) as (Hg & Hwf1 & Hsz1 & Hrep1 & Hco1).
    destruct out1; try (intros [= <- <-]; auto).
    intros H. destruct (IH m1 m' out (Hco1 eq_refl) Hwf1 H) as (Hg' & Hwf' & Hsz' & Hrep').
    rewrite Hg in Hg', Hrep'. auto.
Qed.
End LoopFacts.

Section LoopTheorems.
Import GameManager.

Lemma initBoard_wf g (b : Board) :
  wf_board b -> wf_board (initBoard g b) /\ size (initBoard g b) = size b.
Proof.
  intros Hwf. destruct g; simpl; auto. unfold Reversi.initBoard. cbn zeta.
  split; [repeat apply wf_setPiece; exact Hwf|]. rewrite !size_setPiece. reflexivity.
Qed.

Lemma new_game_coherent g marks :
  coherent (initBoard g (newBoard (standard_size g))) (new_game g marks).
Proof.
  assert (Hwf : wf_board (newBoard (standard_size g))) by (destruct g; reflexivity).
  split; [|constructor]. unfold recorded, snapshot. simpl.
  split; [apply initBoard_wf; exact Hwf|]. split; [reflexivity|]. split; [|reflexivity].
  eexists. split; reflexivity.
Qed.

Lemma snapshot_with_rule m r :
  board r = board (rule m) -> snapshot (with_rule m r) = snapshot m.
Proof. intros Hb. unfold snapshot. simpl. rewrite Hb. reflexivity. Qed.

(** What an iteration does to the stack of saved states: nothing, one
    state popped, or the current state pushed. *)
Lemma play_move_stack m move m' out :
  play_move m move = Some (m', out) ->
  gameType m' = gameType m /\ undoStack m' = snapshot m :: undoStack m.
Proof.
  unfold play_move. cbn [saveState rule gameType currentTurn undoStack moveHistory].
  destruct (makeMove (gameType m) (rule m) move.1 move.2 (currentTurn m)) as [r|]; [|discriminate].
  fold (snapshot m).
  set (m2 := mkManager r (gameType m) (currentTurn m) 0 (snapshot m :: undoStack m)
                       (moveHistory m ++ [move])).
  destruct (if decide (gameType m = REVERSI) then _ else _) as [[status m3]|] eqn:Echk;
    [|discriminate].
  assert (Hm3 : exists r3, m3 = with_rule m2 r3).
  { destruct (decide (gameType m = REVERSI)).
    - apply reversi_recheck_spec in Echk as (r3 & -> & _). eauto.
    - injection Echk as _ <-. exists r. reflexivity. }
  destruct Hm3 as (r3 & ->).
  destruct (decide (status = PLAYING)); intros [= <- <-]; split; reflexivity.
Qed.

Lemma handle_move_stack m move m' out :
  handle_move m move = Some (m', out) ->
  gameType m' = gameType m /\
  (undoStack m' = undoStack m \/ (exists prev, undoStack m = prev :: undoStack m') \/
   undoStack m' = snapshot m :: undoStack m).
Proof.
  unfold handle_move. destruct (move.1 =? -2).
  { destruct (undoStack m) as [|prev rest] eqn:Hstack; intros [= <- <-]; simpl.
    - auto.
    - split; [reflexivity|]. right. left. eauto. }
  destruct (move.1 =? -3); [intros [= <- <-]; auto|].
  destruct (move.1 =? -4); [intros [= <- <-]; auto|].
  destruct (move.1 =? -1).
  { destruct (decide (gameType m = GO)); [|intros [= <- <-]; auto].
    destruct (record_pass m) as [m1|] eqn:Epass; [|discriminate].
    destruct (record_pass_spec m m1 Epass) as (Hr & Hg & Ht & Hp & Hs & Hh).
    destruct (2 <=? _).
    - intros H. apply game_over_spec in H as [-> _]. simpl. auto.
    - intros [= <- <-]. simpl. auto. }
  destruct (isValidMove (gameType m) (rule m) move.1 move.2 (currentTurn m))
    as [[[|] r]|] eqn:Ev; [| |discriminate].
  - intros H. apply play_move_stack in H as [Hg Hs]. simpl in Hg.
    rewrite snapshot_with_rule in Hs by (eapply rule_isValidMove_board; exact Ev). auto.
  - intros [= <- <-]. simpl. auto.
Qed.

Lemma iteration_stack m move m' out :
  iteration m move = Some (m', out) ->
  gameType m' = gameType m /\
  (undoStack m' = undoStack m \/ (exists prev, undoStack m = prev :: undoStack m') \/
   undoStack m' = snapshot m :: undoStack m).
Proof.
  unfold iteration. destruct (supportsPass (gameType m)); [|apply handle_move_stack].
  destruct (hasValidMove (gameType m) (rule m) (currentTurn m)) as [[[|] r]|] eqn:Ehv;
    [| |discriminate].
  - intros H. apply handle_move_stack in H as [Hg Hs]. simpl in Hg, Hs.
    rewrite snapshot_with_rule in Hs by (eapply hasValidMove_board; exact Ehv). auto.
  - destruct (record_pass (with_rule m r)) as [m1|] eqn:Epass; [|discriminate].
    destruct (record_pass_spec _ m1 Epass) as (Hr & Hg & Ht & Hp & Hs & Hh).
    rewrite snapshot_with_rule in Hs by (eapply hasValidMove_board; exact Ehv).
    simpl in Hg, Hs. destruct (_ || _).
    + intros H. apply game_over_spec in H as [-> _]. auto.
    + intros [= <- <-]. simpl. auto.
Qed.

(** X23.  Undo takes back the last move. *)
Theorem undo_after_move (m m1 : Manager) (move : Point) (y : Z) :
  iteration m move = Some (m1, Continue) ->
  length (undoStack m1) = S (length (undoStack m)) ->
  (supportsPass (gameType m1) = true ->
   exists r, hasValidMove (gameType m1) (rule m1) (currentTurn m1) = Some (true, r)) ->
  exists m2,
    iteration m1 (-2, y) = Some (m2, Continue) /\
    gameType m2 = gameType m /\ board (rule m2) = board (rule m) /\
    currentTurn m2 = currentTurn m /\ passCount m2 = passCount m /\
    moveHistory m2 = moveHistory m /\ undoStack m2 = undoStack m.
Proof.
  intros E Hlen Hmove. destruct (iteration_stack m move m1 Continue E) as [Hg Hs].
  destruct Hs as [Hs|[(prev & Hs)|Hs]];
    [rewrite Hs in Hlen; lia|rewrite Hs in Hlen; simpl in Hlen; lia|].
  unfold iteration. destruct (supportsPass (gameType m1)).
  - destruct (Hmove eq_refl) as (r & ->). unfold handle_move. cbn [fst Z.eqb Pos.eqb].
    cbn [with_rule undoStack]. rewrite Hs. eexists. split; [reflexivity|]. simpl. auto 10.
  - unfold handle_move. cbn [fst Z.eqb Pos.eqb]. rewrite Hs.
    eexists. split; [reflexivity|]. simpl. auto 10.
Qed.

(** X24.  A Flip-Capture game that ends on the second forced pass with as
    many black as white stones is awarded to White. *)
Theorem game_over_tie_goes_to_white (m : Manager) (move : Point) (r : GoRule)
        (blackName whiteName : string) :
  gameType m = REVERSI -> passCount m = 1 ->
  hasValidMove REVERSI (rule m) (currentTurn m) = Some (false, r) ->
  countPieces (board (rule m)) BLACK = countPieces (board (rule m)) WHITE ->
  exists m' bScore wScore,
    iteration m move = Some (m', GameOver bScore wScore) /\
    (bScore == wScore)%Q /\
    results blackName whiteName (GameOver bScore wScore)
    = if isAI whiteName then [] else [true].
Proof.
  intros Hg Hp Hv Hcount. unfold iteration. rewrite Hg. cbn [supportsPass]. rewrite Hv.
  pose proof (hasValidMove_board _ _ _ _ _ Hv) as Hb.
  unfold record_pass. cbn [with_rule passCount]. rewrite Hp.
  change (UserManager.incr 1) with (Some 2). cbn [passCount Z.leb orb Z.compare Pos.compare
    Pos.compare_cont saveState rule gameType currentTurn undoStack moveHistory].
  unfold game_over. cbn [gameType rule with_rule]. rewrite Hg. cbn [calculateScore].
  unfold GameRule.calculateScore. rewrite Hb, Hcount.
  eexists _, _, _. split; [reflexivity|]. split; [reflexivity|].
  unfold results. destruct (Qlt_le_dec _ _) as [H|H]; [|reflexivity].
  exfalso. exact (Qlt_irrefl _ H).
Qed.

(** X25.  The recorded history replays to the current board. *)
Theorem replay_reproduces_board (g : GameType) (marks : gset Point) (moves : list Point)
        (m : Manager) (out : Outcome) :
  gameLoop (new_game g marks) moves = Some (m, out) ->
  exists m', replayMode m = Some m' /\ board (rule m') = board (rule m).
Proof.
  intros E.
  assert (Hwf0 : wf_board (newBoard (standard_size g))) by (destruct g; reflexivity).
  destruct (gameLoop_coherent _ moves _ m out (new_game_coherent g marks)
              (proj1 (initBoard_wf g _ Hwf0)) E) as (Hg & Hwf & Hsz & (r & Er & Hb)).
  change (gameType (new_game g marks)) with g in Hg, Er.
  rewrite (proj2 (initBoard_wf g _ Hwf0)) in Hsz. cbn [newBoard size] in Hsz.
  unfold replayMode. rewrite Hg, (clear_wf _ Hwf), Hsz.
  match type of Er with
  | replay_loop _ ?r0 _ _ = _ =>
      pose proof (replay_loop_marks g (moveHistory m)
                    (Go.with_board (rule m) (initBoard g (newBoard (standard_size g))))
                    r0 BLACK eq_refl) as H
  end.
  rewrite Er in H.
  destruct (replay_loop g (Go.with_board (rule m) _) BLACK (moveHistory m)) as [r'|];
    [|discriminate].
  simpl in H. exists (with_rule m r'). split; [reflexivity|]. simpl. congruence.
Qed.
End LoopTheorems.

(** ** Saved games and typed moves *)

Section TextFacts.
Import BoardIO GameManager.

Lemma read_digits_stop acc rest : no_digit_head rest -> read_digits acc rest = (acc, rest).
Proof. destruct rest as [|c rest]; simpl; [reflexivity|]. intros ->. reflexivity. Qed.

Lemma read_digits_uint_any (u : Decimal.uint) : forall acc rest,
  no_digit_head rest ->
  read_digits acc (String.append (NilEmpty.string_of_uint u) rest) = (uint_value acc u, rest).
Proof.
  induction u; intros acc rest Hrest; simpl; try (apply IHu; exact Hrest).
  apply read_digits_stop. exact Hrest.
Qed.

(** Reading what [print_int] wrote gives the number back, whatever follows
    it, as long as that is not a digit. *)
Lemma read_int_print_any (z : Z) (rest : string) :
  is_int z -> no_digit_head rest ->
  read_int (String.append (print_int z) rest) = Some (z, rest).
Proof.
  intros Hz Hrest. unfold print_int.
  assert (Hrange : (INT_MIN <=? z) && (z <=? INT_MAX) = true).
  { apply andb_true_iff. split; apply Z.leb_le; apply Hz. }
  destruct z as [|p|p].
  - simpl. unfold read_int. simpl. rewrite read_digits_stop by exact Hrest. reflexivity.
  - assert (Hu : Pos.to_uint p <> Decimal.Nil /\ uint_value 0 (Pos.to_uint p) = Z.pos p).
    { split; [apply Unsigned.to_uint_nonnil|].
      rewrite uint_value_of_uint, Unsigned.of_to. reflexivity. }
    destruct Hu as [Hnil Hval]. simpl. unfold NilZero.string_of_uint.
    destruct (Pos.to_uint p) as [|u|u|u|u|u|u|u|u|u|u]; try contradiction;
      unfold read_int; simpl; rewrite read_digits_uint_any by exact Hrest;
      match goal with
      | |- context [uint_value ?a ?v] =>
          replace (uint_value a v) with (Z.pos p) by (rewrite <- Hval; reflexivity)
      end; cbv zeta; rewrite Hrange; reflexivity.
  - assert (Hu : Pos.to_uint p <> Decimal.Nil /\ uint_value 0 (Pos.to_uint p) = Z.pos p).
    { split; [apply Unsigned.to_uint_nonnil|].
      rewrite uint_value_of_uint, Unsigned.of_to. reflexivity. }
    destruct Hu as [Hnil Hval]. simpl. unfold NilZero.string_of_uint.
    destruct (Pos.to_uint p) as [|u|u|u|u|u|u|u|u|u|u]; try contradiction;
      unfold read_int; simpl; rewrite read_digits_uint_any by exact Hrest;
      match goal with
      | |- context [uint_value ?a ?v] =>
          replace (uint_value a v) with (Z.pos p) by (rewrite <- Hval; reflexivity)
      end; cbv zeta; change (- Z.pos p) with (Z.neg p); rewrite Hrange; reflexivity.
Qed.

Lemma read_int_ws c s : is_space c = true -> read_int (String c s) = read_int s.
Proof. intros Hc. unfold read_int. simpl. rewrite Hc. reflexivity. Qed.

(** *** Lines *)

Lemma one_line_app s t : one_line s -> one_line t -> one_line (String.append s t).
Proof.
  induction s as [|c s IH]; simpl; [auto|]. intros [Hc Hs] Ht. split; [exact Hc|].
  apply IH; assumption.
Qed.

Lemma one_line_uint (u : Decimal.uint) : one_line (NilEmpty.string_of_uint u).
Proof. induction u; simpl; auto. Qed.

Lemma one_line_print_int z : one_line (print_int z).
Proof.
  unfold print_int. destruct (Z.to_int z) as [u|u]; simpl.
  - unfold NilZero.string_of_uint. destruct u; try apply (one_line_uint (_ u)); simpl; auto.
  - split; [reflexivity|].
    unfold NilZero.string_of_uint. destruct u; try apply (one_line_uint (_ u)); simpl; auto.
Qed.

Lemma one_line_stream b cs : one_line (stream_of b cs).
Proof.
  induction cs as [|p cs IH]; simpl; [auto|]. split; [reflexivity|].
  apply one_line_app; [apply one_line_print_int|exact IH].
Qed.

Lemma one_line_serialize b : one_line (serialize b).
Proof.
  rewrite serialize_stream. apply one_line_app; [apply one_line_print_int|apply one_line_stream].
Qed.

Lemma getline_app line rest :
  one_line line -> getline (String.append line (String newline rest)) = (line, rest).
Proof.
  induction line as [|c line IH]; simpl.
  - intros _. reflexivity.
  - intros [Hc Hl]. rewrite Hc, (IH Hl). reflexivity.
Qed.

(** *** The list of moves *)

Lemma app_space s : String.append " " s = String " " s.
Proof. reflexivity. Qed.

Lemma read_points_print (h : list Point) : forall c,
  is_space c = true -> (forall p, p ∈ h -> is_int p.1 /\ is_int p.2) ->
  exists rest,
    read_points (length h) (String c (String.concat "" (map print_point h))) = Some (h, rest).
Proof.
  induction h as [|[x y] h IH]; intros c Hc Hh; simpl length.
  - eexists. reflexivity.
  - destruct (Hh (x, y) ltac:(left)) as [Hx Hy]. simpl in Hx, Hy.
    cbn [read_points map]. rewrite concat_cons. unfold print_point at 1. cbn [fst snd].
    rewrite read_int_ws by exact Hc. rewrite !string_app_assoc, !app_space.
    rewrite read_int_print_any by (auto; reflexivity).
    rewrite read_int_ws by reflexivity.
    rewrite read_int_print_any by (auto; reflexivity).
    destruct (IH " "%char eq_refl) as (rest & E).
    { intros p Hp. apply Hh. right. exact Hp. }
    rewrite E. eexists. reflexivity.
Qed.

(** *** The board, read into a board of its own size *)

Lemma deserialize_same_size (b target : Board) :
  wf_board b -> wf_board target -> size target = 0 \/ size target = size b ->
  deserialize target (serialize b) = Some b.
Proof.
  intros Hwf Hwft Ht. pose proof Hwf as (Hs & Hl & Hrows)%wf_board_spec.
  unfold deserialize. rewrite serialize_stream.
  destruct (stream_of_head b (cells b)) as [r Hr]. rewrite Hr.
  rewrite read_int_print by (unfold INT_MAX; lia). rewrite <- Hr.
  rewrite (proj2 (Z.ltb_ge _ _)) by lia.
  set (n := Z.to_nat (size b)).
  set (g0 := resize_rows (grid target) n (replicate n EMPTY)).
  assert (Hg0 : shape n n g0).
  { pose proof (resize_rows_shape target n Hwft ltac:(lia)) as H.
    destruct (decide (size target = 0)); [exact H|].
    replace (Z.to_nat (size target)) with n in H by lia. exact H. }
  change (cells {| size := size b; grid := g0 |}) with (cells b).
  assert (Hcells : forall p, p ∈ cells b ->
            0 <= p.1 /\ 0 <= p.2 /\ (Z.to_nat p.1 < n)%nat /\ (Z.to_nat p.2 < n)%nat).
  { intros p Hp%elem_of_cells%isValidBounds_spec. lia. }
  destruct (read_cells_loop b n n (cells b) g0 Hg0 Hcells) as (g' & E & Hg' & Hin & _).
  rewrite E. f_equal. destruct b as [s g]. simpl in *. f_equal.
  apply (shape_eq n); [exact Hg'|apply (wf_shape (mkBoard s g) Hwf)|].
  intros p Hp1 Hp2 Hpn Hpn'. destruct p as [x y]. simpl in *.
  assert (Hb : isValidBounds (mkBoard s g) x y = true).
  { apply isValidBounds_spec. simpl. lia. }
  rewrite (Hin (x, y)) by (apply elem_of_cells; exact Hb).
  unfold cell. simpl fst. simpl snd.
  destruct (wf_grid_at (mkBoard s g) x y Hwf Hb) as [c Hc]. rewrite Hc. simpl.
  symmetry. exact Hc.
Qed.

Lemma gameType_of_code_code g : gameType_of_code (gameType_code g) = Some g.
Proof. destruct g; reflexivity. Qed.

(** X26.  A saved game is read back as it was. *)
Theorem loadGame_saveGame (m m0 : Manager) (marks : gset Point) :
  wf_board (board (rule m)) -> size (board (rule m)) = standard_size (gameType m) ->
  is_int (passCount m) ->
  (forall p, p ∈ moveHistory m -> is_int p.1 /\ is_int p.2) ->
  Z.of_nat (length (moveHistory m)) <= INT_MAX ->
  exists m',
    loadGame m0 marks (saveGame m) = Some m' /\
    gameType m' = gameType m /\ currentTurn m' = currentTurn m /\
    passCount m' = passCount m /\ board (rule m') = board (rule m) /\
    moveHistory m' = moveHistory m /\ undoStack m' = undoStack m0.
Proof.
  intros Hwf Hsz Hpc Hh Hlen. unfold loadGame, saveGame. rewrite !app_space.
  rewrite read_int_print by (destruct (gameType m); unfold INT_MAX; simpl; lia).
  rewrite read_int_space.
  rewrite read_int_print by (pose proof (piece_code_range (currentTurn m)); lia).
  rewrite read_int_space.
  rewrite read_int_print_any by (auto; reflexivity).
  rewrite gameType_of_code_code, piece_of_code_code.
  cbn [getline]. change (Ascii.eqb newline newline) with true. cbv iota.
  rewrite getline_app by apply one_line_serialize.
  rewrite deserialize_same_size; [|exact Hwf|destruct (gameType m); reflexivity|
    right; rewrite Hsz; destruct (gameType m); reflexivity].
  rewrite read_int_print_any;
    [|split; [unfold INT_MIN; lia|exact Hlen]|reflexivity].
  rewrite Nat2Z.id.
  destruct (read_points_print (moveHistory m) newline eq_refl Hh) as (rest & ->).
  eexists. split; [reflexivity|]. simpl. auto 10.
Qed.

(** X27.  In the first version of the program, too, a saved game is read
    back as it was, for a board of any size. *)
Theorem loadGame_saveGame_HW1 (g : GameType) (currentPlayer : PieceType) (passCount : Z)
        (b : Board) :
  g <> REVERSI -> is_int passCount -> wf_board b ->
  GameManagerHW1.loadGame (GameManagerHW1.saveGame g currentPlayer passCount b)
  = Some (g, currentPlayer, passCount, b).
Proof.
  intros Hg Hpc Hwf. unfold GameManagerHW1.loadGame, GameManagerHW1.saveGame.
  rewrite !app_space.
  rewrite read_int_print by (destruct g; unfold INT_MAX; simpl; lia).
  rewrite read_int_space.
  rewrite read_int_print by (pose proof (piece_code_range currentPlayer); lia).
  rewrite read_int_space.
  rewrite read_int_print_any by (auto; reflexivity).
  assert (Hcode : GameManagerHW1.gameType_of_code (gameType_code g) = Some g)
    by (destruct g; [reflexivity|reflexivity|contradiction]).
  rewrite Hcode, piece_of_code_code.
  assert (Hws : deserialize (newBoard 0) (String newline (serialize b))
                = deserialize (newBoard 0) (serialize b)).
  { unfold deserialize. rewrite read_int_ws by reflexivity. reflexivity. }
  rewrite Hws, deserialize_same_size; [reflexivity|exact Hwf|reflexivity|left; reflexivity].
Qed.

(** *** Typed coordinates *)

Lemma print_int_head z :
  (exists c s, print_int z = String c s /\ exists d, digit_of c = Some d) \/
  (exists s, print_int z = String "-" s).
Proof.
  unfold print_int. destruct (Z.to_int z) as [u|u]; [left|right].
  - unfold NilZero.string_of_int, NilZero.string_of_uint.
    destruct u; simpl; eexists _, _; (split; [reflexivity|]); eexists; reflexivity.
  - eexists. reflexivity.
Qed.

Lemma print_int_not_command z rest (w : string) :
  (exists c s, w = String c s /\ digit_of c = None /\ c <> "-"%char) ->
  String.append (print_int z) rest <> w.
Proof.
  intros (c & s & -> & Hd & Hm) E.
  destruct (print_int_head z) as [(c' & s' & E' & d & Hd')|(s' & E')]; rewrite E' in E;
    rewrite string_app_cons in E; injection E as Ec _; congruence.
Qed.

(** X28.  A line of two numbers, both of them values of [int] above
    [INT_MIN], is the cell one less in each coordinate; the loop then looks
    at the first coordinate only, so that the lines starting with 0, -1, -2
    and -3 act as pass, undo, save and quit. *)
Theorem getMove_numbers (m : Manager) (x y : Z) (rest : list string) :
  is_int x -> is_int y -> INT_MIN < x -> INT_MIN < y ->
  getMove (String.append (print_int x) (String.append " " (print_int y)) :: rest)
  = Some ((x - 1, y - 1), rest) /\
  (x = 0 -> handle_move m (x - 1, y - 1) = handle_move m (-1, -1)) /\
  (x = -1 -> handle_move m (x - 1, y - 1) = handle_move m (-2, -2)) /\
  (x = -2 -> handle_move m (x - 1, y - 1) = handle_move m (-3, -3)) /\
  (x = -3 -> handle_move m (x - 1, y - 1) = handle_move m (-4, -4)).
Proof.
  intros Hx Hy Hx' Hy'. split.
  - cbn [getMove].
    rewrite !bool_decide_eq_false_2
      by (apply print_int_not_command; eexists _, _; split; [reflexivity|split; [reflexivity|discriminate]]).
    rewrite app_space, read_int_print_any by (auto; reflexivity).
    rewrite read_int_ws by reflexivity.
    rewrite <- (string_app_nil_r (print_int y)).
    rewrite read_int_print_any by (auto; exact I).
    unfold decr. rewrite (proj2 (Z.ltb_lt _ _) Hx'), (proj2 (Z.ltb_lt _ _) Hy'). reflexivity.
  - repeat split; intros ->; reflexivity.
Qed.
End TextFacts.
(** ** Concrete instances of the properties of accounts and of the loop *)

Lemma no_accounts_ok : accounts_ok (UserManager.mkUserManager ∅ "").
Proof.
  split; [|left; reflexivity]. intros name u H. simpl in H.
  rewrite lookup_empty in H. discriminate.
Defined.

Lemma accounts_persist_witness :
  accounts_ok (UserManager.mkUserManager
                 (<["bob"%string := UserManager.mkUser "bob" "x" 1 1]> ∅) "bob") /\
  (forall name u,
     UserManager.users (UserManager.mkUserManager ∅ "") !! name = Some u ->
     exists u',
       UserManager.users
         (UserManager.mkUserManager
            (<["bob"%string := UserManager.mkUser "bob" "x" 1 1]> ∅) "bob") !! name = Some u' /\
       continues u u') /\
  (forall name,
     is_Some (UserManager.users
                (UserManager.mkUserManager
                   (<["bob"%string := UserManager.mkUser "bob" "x" 1 1]> ∅) "bob") !! name) ->
     is_Some (UserManager.users (UserManager.mkUserManager ∅ "") !! name) \/
     exists p, OpRegister name p ∈ [OpRegister "bob" "x"; OpLogin "bob" "x"; OpRecord true]).
Proof.
  apply (accounts_persist [OpRegister "bob" "x"; OpLogin "bob" "x"; OpRecord true]
                          (UserManager.mkUserManager ∅ ""));
    [exact no_accounts_ok | vm_compute; reflexivity].
Defined.

Lemma register_then_login_witness :
  let m1 := (UserManager.registerUser (UserManager.mkUserManager ∅ "") "" "pw").2 in
  (UserManager.registerUser (UserManager.mkUserManager ∅ "") "" "pw").1 = true /\
  (UserManager.registerUser m1 "" "pw").1 = false /\
  (forall p', (UserManager.login m1 "" p').1 = bool_decide (p' = "pw"%string)) /\
  UserManager.currentUser (UserManager.login m1 "" "pw").2 = ""%string /\
  UserManager.isLoggedIn (UserManager.login m1 "" "pw").2
  = negb (bool_decide (""%string = ""%string)).
Proof.
  apply (register_then_login (UserManager.mkUserManager ∅ "") "" "pw"). reflexivity.
Defined.


Lemma undo_after_move_witness :
  exists m2,
    GameManager.iteration first_stone (-2, 0) = Some (m2, GameManager.Continue) /\
    GameManager.gameType m2 = GameManager.gameType (GameManager.new_game GO ∅) /\
    board (GameManager.rule m2) = board (GameManager.rule (GameManager.new_game GO ∅)) /\
    GameManager.currentTurn m2 = GameManager.currentTurn (GameManager.new_game GO ∅) /\
    GameManager.passCount m2 = GameManager.passCount (GameManager.new_game GO ∅) /\
    GameManager.moveHistory m2 = GameManager.moveHistory (GameManager.new_game GO ∅) /\
    GameManager.undoStack m2 = GameManager.undoStack (GameManager.new_game GO ∅).
Proof.
  apply (undo_after_move (GameManager.new_game GO ∅) first_stone (3, 3) 0);
    [vm_compute; reflexivity | vm_compute; reflexivity |].
  intros _. eexists. vm_compute. reflexivity.
Defined.

Lemma game_over_tie_goes_to_white_witness :
  exists m' bScore wScore,
    GameManager.iteration
      (GameManager.mkManager (mkGoRule quiet_corners ∅) REVERSI BLACK 1 [] []) (0, 0)
    = Some (m', GameManager.GameOver bScore wScore) /\
    (bScore == wScore)%Q /\
    GameManager.results "ann" "Player2" (GameManager.GameOver bScore wScore)
    = if GameManager.isAI "Player2" then [] else [true].
Proof.
  apply (game_over_tie_goes_to_white
           (GameManager.mkManager (mkGoRule quiet_corners ∅) REVERSI BLACK 1 [] []) (0, 0)
           (mkGoRule quiet_corners ∅) "ann" "Player2");
    [reflexivity | reflexivity | vm_compute; reflexivity | reflexivity].
Defined.

Lemma replay_reproduces_board_witness :
  exists m', GameManager.replayMode wipeout_game = Some m' /\
             board (GameManager.rule m') = board (GameManager.rule wipeout_game).
Proof.
  apply (replay_reproduces_board REVERSI ∅ wipeout_line wipeout_game GameManager.Continue).
  vm_compute. reflexivity.
Defined.

Lemma wipeout_game_history : GameManager.moveHistory wipeout_game = wipeout_line.
Proof. vm_compute. reflexivity. Defined.

Lemma loadGame_saveGame_witness :
  exists m',
    GameManager.loadGame (GameManager.new_game GOMOKU ∅) ∅ (GameManager.saveGame wipeout_game)
    = Some m' /\
    GameManager.gameType m' = GameManager.gameType wipeout_game /\
    GameManager.currentTurn m' = GameManager.currentTurn wipeout_game /\
    GameManager.passCount m' = GameManager.passCount wipeout_game /\
    board (GameManager.rule m') = board (GameManager.rule wipeout_game) /\
    GameManager.moveHistory m' = GameManager.moveHistory wipeout_game /\
    GameManager.undoStack m' = GameManager.undoStack (GameManager.new_game GOMOKU ∅).
Proof.
  apply (loadGame_saveGame wipeout_game (GameManager.new_game GOMOKU ∅) ∅);
    [vm_compute; reflexivity | vm_compute; reflexivity
    | vm_compute; split; discriminate | | vm_compute; discriminate].
  rewrite wipeout_game_history. intros p Hp. unfold wipeout_line in Hp.
  repeat (apply elem_of_cons in Hp as [->|Hp]; [vm_compute; repeat split; discriminate|]).
  inversion Hp.
Defined.

Lemma loadGame_saveGame_HW1_witness :
  GameManagerHW1.loadGame (GameManagerHW1.saveGame GO WHITE 1 small_position)
  = Some (GO, WHITE, 1, small_position).
Proof.
  apply (loadGame_saveGame_HW1 GO WHITE 1 small_position);
    [discriminate | vm_compute; split; discriminate | reflexivity].
Defined.

Lemma getMove_numbers_witness :
  GameManager.getMove
    [String.append (BoardIO.print_int 0) (String.append " " (BoardIO.print_int 5))]
  = Some ((0 - 1, 5 - 1), []) /\
  (0 = 0 -> GameManager.handle_move first_stone (0 - 1, 5 - 1)
            = GameManager.handle_move first_stone (-1, -1)) /\
  (0 = -1 -> GameManager.handle_move first_stone (0 - 1, 5 - 1)
             = GameManager.handle_move first_stone (-2, -2)) /\
  (0 = -2 -> GameManager.handle_move first_stone (0 - 1, 5 - 1)
             = GameManager.handle_move first_stone (-3, -3)) /\
  (0 = -3 -> GameManager.handle_move first_stone (0 - 1, 5 - 1)
             = GameManager.handle_move first_stone (-4, -4)).
Proof.
  apply (getMove_numbers first_stone 0 5 []);
    [vm_compute; split; discriminate | vm_compute; split; discriminate
    | reflexivity | reflexivity].
Defined.
